(** * BDSP event-script analyzer: parser and diagnostics

    A shallow embedding of [src/utils/parser.ts], [src/data/dataLoader.ts]
    and [src/providers/diagnosticProvider.ts], and the properties of the
    analyzer that the specification states about them.

    Conventions of the embedding:
    - a JavaScript string is a [list ascii] (code units 0..255);
    - a JavaScript number that is a line, a column or an index is a [Z]
      (so that the [-1] of [indexOf] and [findMatchingParen] is itself);
    - a [Map<string, V>] is a [gmap (list ascii) V];
    - an array is a [list], [push] appends at the end;
    - [null]/[undefined] results are [None]. *)

From Stdlib Require Import ZArith List Ascii String Bool Lia DecimalString.
From stdpp Require Import gmap strings list.
Import ListNotations.

Abbreviation str := (list ascii) (only parsing).

(** String literals of the source, as lists of characters. *)
Definition lit (s : string) : str := list_ascii_of_string s.

(* ===================================================================== *)
(** ** The JavaScript string operations the sources use                  *)
(* ===================================================================== *)

Module JS.
Local Open Scope Z_scope.

Definition code (c : ascii) : Z := Z.of_N (N_of_ascii c).

Definition between (lo hi : Z) (c : ascii) : bool :=
  (lo <=? code c) && (code c <=? hi).

Definition chr_eqb (a b : ascii) : bool := Ascii.eqb a b.
Arguments chr_eqb : simpl never.

Fixpoint str_eqb (a b : str) : bool :=
  match a, b with
  | [], [] => true
  | x :: a', y :: b' => chr_eqb x y && str_eqb a' b'
  | _, _ => false
  end.

(** [\s] of a regular expression and the characters [trim] removes:
    TAB, LF, VT, FF, CR, SPACE and NBSP among the first 256 code units. *)
Definition isSpace (c : ascii) : bool :=
  between 9 13 c || (code c =? 32) || (code c =? 160).

(** [\d] *)
Definition isDigit (c : ascii) : bool := between 48 57 c.
(** [[A-Z]] and [[a-z]] *)
Definition isUpper (c : ascii) : bool := between 65 90 c.
Definition isLower (c : ascii) : bool := between 97 122 c.
Definition isUnderscore (c : ascii) : bool := chr_eqb c "_".

(** [s.length] *)
Definition len (s : str) : Z := Z.of_nat (length s).

(** Truthiness of a string: only the empty string is falsy. *)
Definition truthy (s : str) : bool :=
  match s with [] => false | _ :: _ => true end.

Fixpoint trimStart (s : str) : str :=
  match s with
  | [] => []
  | c :: r => if isSpace c then trimStart r else s
  end.

Definition trimEnd (s : str) : str := rev (trimStart (rev s)).

(** [s.trim()] *)
Definition trim (s : str) : str := trimEnd (trimStart s).

(** [s.startsWith(p)] *)
Fixpoint startsWith (s p : str) {struct p} : bool :=
  match p, s with
  | [], _ => true
  | _ :: _, [] => false
  | x :: p', y :: s' => chr_eqb x y && startsWith s' p'
  end.

Definition clamp (s : str) (i : Z) : Z := Z.max 0 (Z.min i (len s)).

(** [s.substring(a, b)]: both ends clamped to [0, s.length], swapped when
    [a > b]. *)
Definition substring (s : str) (a b : Z) : str :=
  let a' := clamp s a in
  let b' := clamp s b in
  let lo := Z.min a' b' in
  let hi := Z.max a' b' in
  take (Z.to_nat (hi - lo)) (drop (Z.to_nat lo) s).

(** [s.substring(a)] *)
Definition substringFrom (s : str) (a : Z) : str := substring s a (len s).

(** The scan of [indexOf]: [s] is the text from index [i] on. *)
Fixpoint indexOfAt (s p : str) (i : Z) : Z :=
  if startsWith s p then i
  else match s with
       | [] => -1
       | _ :: r => indexOfAt r p (i + 1)
       end.

(** [s.indexOf(p, from)] *)
Definition indexOf (s p : str) (from : Z) : Z :=
  let k := clamp s from in
  indexOfAt (drop (Z.to_nat k) s) p k.

(** The scan of [lastIndexOf] for one character: [last] is the index of the
    last occurrence seen so far. *)
Fixpoint lastIndexOfAt (s : str) (c : ascii) (i last : Z) : Z :=
  match s with
  | [] => last
  | x :: r => lastIndexOfAt r c (i + 1) (if chr_eqb x c then i else last)
  end.

(** [s.lastIndexOf(c)] for a one-character string [c] *)
Definition lastIndexOf (s : str) (c : ascii) : Z := lastIndexOfAt s c 0 (-1).

(** [s.includes(p)] *)
Definition includes (s p : str) : bool := 0 <=? indexOf s p 0.

(** The double-quote character (code 34) and the single-quote character. *)
Definition dquote : ascii := Ascii false true false false false true false false.
Definition squote : ascii := "'".

Definition isQuote (c : ascii) : bool := chr_eqb c dquote || chr_eqb c squote.

(** [s.replace(q, empty)] where the pattern [q] is the global regular
    expression matching one single or double quote character. *)
Fixpoint stripQuotes (s : str) : str :=
  match s with
  | [] => []
  | c :: r => if isQuote c then stripQuotes r else c :: stripQuotes r
  end.

(** [s.replace(c, empty)] with a string pattern: the first occurrence only. *)
Fixpoint removeFirst (s : str) (c : ascii) : str :=
  match s with
  | [] => []
  | x :: r => if chr_eqb x c then r else x :: removeFirst r c
  end.

(** [xs.join(sep)] *)
Fixpoint join (sep : str) (xs : list str) : str :=
  match xs with
  | [] => []
  | [x] => x
  | x :: r => x ++ sep ++ join sep r
  end.

(** A number in a template string. *)
Definition numToString (n : Z) : str :=
  lit (NilZero.string_of_int (Z.to_int n)).

(** The longest prefix of characters satisfying [p], and the rest. *)
Fixpoint span (p : ascii -> bool) (s : str) : str * str :=
  match s with
  | [] => ([], [])
  | c :: r => if p c then let '(a, b) := span p r in (c :: a, b) else ([], s)
  end.

End JS.

(* ===================================================================== *)
(** ** The editor's positions and ranges                                 *)
(* ===================================================================== *)

Module Vscode.
Local Open Scope Z_scope.

Record Range := mkRange {
  startLine : Z;
  startCharacter : Z;
  endLine : Z;
  endCharacter : Z
}.

(** [new vscode.Range(l1, c1, l2, c2)]: when the start is after the end the
    two positions are swapped. *)
Definition newRange (l1 c1 l2 c2 : Z) : Range :=
  if (l1 <? l2) || ((l1 =? l2) && (c1 <=? c2))
  then mkRange l1 c1 l2 c2
  else mkRange l2 c2 l1 c1.

Inductive DiagnosticSeverity := Error | Warning.

Record Diagnostic := mkDiagnostic {
  range : Range;
  message : str;
  severity : DiagnosticSeverity;
  source : str
}.

(** A text document: its language identifier and its lines (without line
    terminators), [lineAt(i).text] being the [i]-th of them. *)
Record TextDocument := mkTextDocument {
  languageId : str;
  lines : list str
}.

End Vscode.

(* ===================================================================== *)
(** ** src/utils/parser.ts                                               *)
(* ===================================================================== *)

Module Parser.
Import JS Vscode.
Local Open Scope Z_scope.

Record ParsedLabel := mkParsedLabel {
  lname : str;
  lline : Z;
  lrange : Range
}.

Inductive ArgType :=
  | TNumber | TString | TWork | TFlag | TSysflag | TLabel | TComparator
  | TUnknown.

Record ParsedArgument := mkParsedArgument {
  value : str;
  type : ArgType;
  arange : Range
}.

Record ParsedCommand := mkParsedCommand {
  name : str;
  line : Z;
  column : Z;
  args : list ParsedArgument;
  crange : Range
}.

Record LabelReference := mkLabelReference {
  rname : str;
  rrange : Range;
  rline : Z
}.

Record ParsedDocument := mkParsedDocument {
  labels : gmap str ParsedLabel;
  commands : list ParsedCommand;
  labelReferences : list LabelReference
}.

(** *** The regular expressions *)

(** [[a-zA-Z_]] and [[a-zA-Z0-9_]] *)
Definition isIdentStart (c : ascii) : bool :=
  isLower c || isUpper c || isUnderscore c.
Definition isIdentCont (c : ascii) : bool :=
  isLower c || isUpper c || isDigit c || isUnderscore c.

(** [[A-Z_]] and [[A-Z0-9_]] *)
Definition isCmdStart (c : ascii) : bool := isUpper c || isUnderscore c.
Definition isCmdCont (c : ascii) : bool :=
  isUpper c || isDigit c || isUnderscore c.

(** [text.match(re)] for the label expression: anchored at the start, an
    identifier start, the longest run of identifier characters, then a
    colon. (A shorter run is followed by an identifier character, never by
    the colon, so backtracking adds no match.) The result is group 1. *)
Definition labelMatch (text : str) : option str :=
  match text with
  | c :: r =>
      if isIdentStart c then
        let '(run, rest) := span isIdentCont r in
        match rest with
        | d :: _ => if chr_eqb d ":" then Some (c :: run) else None
        | [] => None
        end
      else None
  | [] => None
  end.

(** The command expression tried at the head of [s]: a command start, the
    longest run of command characters, the longest run of white space, then
    an open parenthesis. (Giving back white space or name characters leaves
    a white-space or name character where the parenthesis must be, so
    backtracking adds no match.) The result is group 1 and the white space
    between the name and the parenthesis. *)
Definition cmdMatchAt (s : str) : option (str * str) :=
  match s with
  | c :: r =>
      if isCmdStart c then
        let '(run, rest) := span isCmdCont r in
        let '(ws, rest') := span isSpace rest in
        match rest' with
        | d :: _ => if chr_eqb d "(" then Some (c :: run, ws) else None
        | [] => None
        end
      else None
  | [] => None
  end.

(** The leftmost match of the command expression in the text that starts at
    index [i]: the index of the match, group 1 and the white space. *)
Fixpoint cmdMatchFrom (s : str) (i : Z) : option (Z * str * str) :=
  match cmdMatchAt s with
  | Some (nm, ws) => Some (i, nm, ws)
  | None =>
      match s with
      | [] => None
      | _ :: r => cmdMatchFrom r (i + 1)
      end
  end.

(** [text.match(re)] for the command expression (not global). *)
Definition cmdMatch (text : str) : option (Z * str * str) := cmdMatchFrom text 0.

(** [text.match(re)] for the global command expression: the texts of all
    matches from left to right, each search resuming where the previous
    match ended; [skip] counts the characters of the previous match still
    to pass. The empty list stands for [null]. *)
Fixpoint cmdMatchAllFrom (s : str) (skip : nat) : list str :=
  match s with
  | [] => []
  | _ :: r =>
      match skip with
      | S k => cmdMatchAllFrom r k
      | O =>
          match cmdMatchAt s with
          | Some (nm, ws) =>
              (nm ++ ws ++ ["("%char]) :: cmdMatchAllFrom r (length nm + length ws)%nat
          | None => cmdMatchAllFrom r 0
          end
      end
  end.

Definition cmdMatchAll (text : str) : list str := cmdMatchAllFrom text 0.

Fixpoint allDigits (s : str) : bool :=
  match s with
  | [] => true
  | c :: r => isDigit c && allDigits r
  end.

(** The number expression: an optional minus sign, one or more digits, and
    optionally a point followed by one or more digits, up to the end. *)
Definition isNumberText (v : str) : bool :=
  let body := match v with
              | c :: r => if chr_eqb c "-" then r else v
              | [] => v
              end in
  let '(int, rest) := span isDigit body in
  truthy int &&
  match rest with
  | [] => true
  | c :: frac => chr_eqb c "." && truthy frac && allDigits frac
  end.

(** The comparator expression: exactly one of the six keywords. *)
Definition isComparatorText (v : str) : bool :=
  str_eqb v (lit "GE") || str_eqb v (lit "GT") || str_eqb v (lit "LE") ||
  str_eqb v (lit "LT") || str_eqb v (lit "EQ") || str_eqb v (lit "NE").

(** *** findMatchingParen *)

(** The loop of [findMatchingParen]: [s] is the text from index [i] on. *)
Fixpoint findMatchingParenLoop (s : str) (i depth : Z) : Z :=
  match s with
  | [] => -1
  | c :: r =>
      if chr_eqb c "(" then findMatchingParenLoop r (i + 1) (depth + 1)
      else if chr_eqb c ")" then
        let depth' := depth - 1 in
        if depth' =? 0 then i else findMatchingParenLoop r (i + 1) depth'
      else findMatchingParenLoop r (i + 1) depth
  end.

Definition findMatchingParen (text : str) (openIndex : Z) : Z :=
  findMatchingParenLoop (drop (Z.to_nat (openIndex + 1)) text) (openIndex + 1) 1.

(** *** createArgument *)

Definition createArgument (value : str) (line startCol endCol : Z)
  : ParsedArgument :=
  let range := newRange line startCol line endCol in
  if startsWith value (lit "@") then mkParsedArgument value TWork range
  else if startsWith value (lit "#") then mkParsedArgument value TFlag range
  else if startsWith value (lit "$") then mkParsedArgument value TSysflag range
  else if startsWith value [dquote] || startsWith value [squote]
       then mkParsedArgument value TString range
  else if isNumberText value then mkParsedArgument value TNumber range
  else if isComparatorText value then mkParsedArgument value TComparator range
  else mkParsedArgument value TUnknown range.

(** *** parseArguments *)

(** The local variables of [parseArguments]. [stringChar] is a string: the
    empty string until the first quote is met. *)
Record ArgScan := mkArgScan {
  sargs : list ParsedArgument;
  currentArg : str;
  inString : bool;
  stringChar : str;
  argStartCol : Z;
  col : Z
}.

(** One iteration of the loop of [parseArguments], at index [i] on the
    character [char]. *)
Definition argStep (line startCol i : Z) (char : ascii) (st : ArgScan)
  : ArgScan :=
  let col := startCol + i in
  if negb (inString st) && (chr_eqb char dquote || chr_eqb char squote) then
    mkArgScan (sargs st) (currentArg st ++ [char]) true [char]
              (argStartCol st) col
  else if inString st && str_eqb [char] (stringChar st) then
    mkArgScan (sargs st) (currentArg st ++ [char]) false (stringChar st)
              (argStartCol st) col
  else if negb (inString st) && chr_eqb char "," then
    mkArgScan
      (if truthy (trim (currentArg st))
       then sargs st ++ [createArgument (trim (currentArg st)) line
                                        (argStartCol st) col]
       else sargs st)
      [] (inString st) (stringChar st) (col + 1) col
  else
    mkArgScan (sargs st) (currentArg st ++ [char]) (inString st)
              (stringChar st)
              (if negb (truthy (currentArg st)) && negb (chr_eqb char " ")
                  && negb (chr_eqb char "009")
               then col else argStartCol st)
              col.

Fixpoint argLoop (line startCol : Z) (s : str) (i : Z) (st : ArgScan)
  : ArgScan :=
  match s with
  | [] => st
  | c :: r => argLoop line startCol r (i + 1) (argStep line startCol i c st)
  end.

Definition argInit (startCol : Z) : ArgScan :=
  mkArgScan [] [] false [] startCol startCol.

(** What follows the loop: the last argument, if any. *)
Definition argFinish (line : Z) (st : ArgScan) : list ParsedArgument :=
  if truthy (trim (currentArg st))
  then sargs st ++ [createArgument (trim (currentArg st)) line
                                   (argStartCol st) (col st + 1)]
  else sargs st.

Definition parseArguments (argsText : str) (line startCol : Z)
  : list ParsedArgument :=
  if negb (truthy (trim argsText)) then []
  else argFinish line (argLoop line startCol argsText 0 (argInit startCol)).

(** *** Jump commands *)

Definition JUMP_COMMANDS : gset str :=
  list_to_set [ lit "_JUMP"; lit "_CALL";
                lit "_IF_FLAGON_JUMP"; lit "_IF_FLAGOFF_JUMP";
                lit "_IF_FLAGON_CALL"; lit "_IF_FLAGOFF_CALL";
                lit "_IFVAL_JUMP"; lit "_IFVAL_CALL";
                lit "_OBJ_ANIME" ].

Definition isJumpCommand (cmdName : str) : bool :=
  bool_decide (cmdName ∈ JUMP_COMMANDS).

(** [args[k] || null] *)
Definition argAt (args : list ParsedArgument) (k : nat) : option ParsedArgument :=
  args !! k.

Definition getLabelArgument (cmdName : str) (args : list ParsedArgument)
  : option ParsedArgument :=
  if str_eqb cmdName (lit "_JUMP") || str_eqb cmdName (lit "_CALL")
  then argAt args 0
  else if str_eqb cmdName (lit "_IF_FLAGON_JUMP")
       || str_eqb cmdName (lit "_IF_FLAGOFF_JUMP")
       || str_eqb cmdName (lit "_IF_FLAGON_CALL")
       || str_eqb cmdName (lit "_IF_FLAGOFF_CALL")
  then argAt args 1
  else if str_eqb cmdName (lit "_IFVAL_JUMP")
       || str_eqb cmdName (lit "_IFVAL_CALL")
  then argAt args 3
  else if str_eqb cmdName (lit "_OBJ_ANIME")
  then argAt args 1
  else None.

Definition isStringType (t : ArgType) : bool :=
  match t with TString => true | _ => false end.

(** *** parseDocument *)

(** The test that skips empty lines and comments. *)
Definition isSkipped (text : str) : bool :=
  let trimmed := trim text in
  negb (truthy trimmed) || startsWith trimmed (lit ";")
  || startsWith trimmed (lit "//").

(** The label part of the loop body. *)
Definition parseLabel (i : Z) (text : str) (labels : gmap str ParsedLabel)
  : gmap str ParsedLabel :=
  match labelMatch text with
  | Some labelName =>
      let startCol := indexOf text labelName 0 in
      <[ labelName :=
           mkParsedLabel labelName i
             (newRange i startCol i (startCol + len labelName + 1)) ]> labels
  | None => labels
  end.

(** The command part of the loop body: the command pushed, and the label
    reference pushed after it, if any. *)
Definition parseCommand (i : Z) (text : str)
  : option (ParsedCommand * option LabelReference) :=
  match cmdMatch text with
  | Some (_, cmdName, _) =>
      let cmdStartCol := indexOf text cmdName 0 in
      let openParen := indexOf text (lit "(") cmdStartCol in
      let closeParen := findMatchingParen text openParen in
      let argsText :=
        if closeParen >? openParen
        then substring text (openParen + 1) closeParen
        else substringFrom text (openParen + 1) in
      let args := parseArguments argsText i (openParen + 1) in
      let cmd :=
        mkParsedCommand cmdName i cmdStartCol args
          (newRange i cmdStartCol i
                    (if closeParen >? 0 then closeParen + 1 else len text)) in
      let ref :=
        if isJumpCommand cmdName && (Z.of_nat (length args) >? 0) then
          match getLabelArgument cmdName args with
          | Some labelArg =>
              if isStringType (type labelArg)
              then Some (mkLabelReference (stripQuotes (value labelArg))
                                          (arange labelArg) i)
              else None
          | None => None
          end
        else None in
      Some (cmd, ref)
  | None => None
  end.

(** The body of the loop over the lines, on line [i]. *)
Definition parseLine (i : Z) (text : str) (doc : ParsedDocument)
  : ParsedDocument :=
  if isSkipped text then doc
  else
    let labels' := parseLabel i text (labels doc) in
    match parseCommand i text with
    | Some (cmd, ref) =>
        mkParsedDocument labels' (commands doc ++ [cmd])
          (match ref with
           | Some r => labelReferences doc ++ [r]
           | None => labelReferences doc
           end)
    | None => mkParsedDocument labels' (commands doc) (labelReferences doc)
    end.

Fixpoint parseLines (ls : list str) (i : Z) (doc : ParsedDocument)
  : ParsedDocument :=
  match ls with
  | [] => doc
  | text :: rest => parseLines rest (i + 1) (parseLine i text doc)
  end.

Definition emptyDocument : ParsedDocument := mkParsedDocument ∅ [] [].

Definition parseDocument (document : TextDocument) : ParsedDocument :=
  parseLines (lines document) 0 emptyDocument.

(** *** getActiveContext *)

(** The number of matches of the global expression for one comma. *)
Fixpoint countCommas (s : str) : Z :=
  match s with
  | [] => 0
  | c :: r => (if chr_eqb c "," then 1 else 0) + countCommas r
  end.

(** [getActiveContext] once the text of the line is at hand. *)
Definition activeContextOfLine (line : str) (character : Z)
  : option (str * Z) :=
  let textUntilPosition := substring line 0 character in
  match cmdMatchAll textUntilPosition with
  | [] => None
  | m :: ms =>
      let lastMatch := List.last ms m in
      let cmdName := trim (removeFirst lastMatch "(") in
      let openParenIndex := lastIndexOf textUntilPosition "(" in
      let textAfterOpenParen := substringFrom textUntilPosition openParenIndex in
      if includes textAfterOpenParen (lit ")") then None
      else Some (cmdName, countCommas textAfterOpenParen)
  end.

(** A call either returns or throws. *)
Inductive result (A : Type) :=
  | Returns (a : A)
  | Throws.
Arguments Returns {A} a.
Arguments Throws {A}.

(** [lineAt] throws for a line that the document does not have. *)
Definition getActiveContext (document : TextDocument) (line character : Z)
  : result (option (str * Z)) :=
  if line <? 0 then Throws
  else match lines document !! Z.to_nat line with
       | Some text => Returns (activeContextOfLine text character)
       | None => Throws
       end.

End Parser.

(* ===================================================================== *)
(** ** src/data/dataLoader.ts                                            *)
(* ===================================================================== *)

Module DataLoader.

(** A field that the loaded JSON may lack, and that the code guards with
    [|| []], is an [option]. *)
Record CommandArg := mkCommandArg {
  TentativeName : str;
  ArgDescription : str;
  Types : option (list str);   (* the field [Type] *)
  Optional : bool
}.

Record Command := mkCommand {
  Id : Z;
  Name : str;
  Description : str;
  Dummy : bool;
  Animation : bool;
  Args : option (list CommandArg)
}.

(** The part of the loader that validation reads: the command table. *)
Record t := mkDataLoader {
  commandLookup : gmap str Command
}.

Definition getCommand (dl : t) (name : str) : option Command :=
  commandLookup dl !! name.

End DataLoader.

(* ===================================================================== *)
(** ** src/providers/diagnosticProvider.ts                               *)
(* ===================================================================== *)

Module DiagnosticProvider.
Import JS Vscode Parser DataLoader.
Local Open Scope Z_scope.

Definition VALID_COMPARATORS : gset str :=
  list_to_set [ lit "GE"; lit "GT"; lit "LE"; lit "LT"; lit "EQ"; lit "NE" ].

Definition JUMP_COMMANDS : gmap str nat :=
  list_to_map [ (lit "_JUMP", 0%nat); (lit "_CALL", 0%nat);
                (lit "_IF_FLAGON_JUMP", 1%nat); (lit "_IF_FLAGOFF_JUMP", 1%nat);
                (lit "_IF_FLAGON_CALL", 1%nat); (lit "_IF_FLAGOFF_CALL", 1%nat);
                (lit "_IFVAL_JUMP", 3%nat); (lit "_IFVAL_CALL", 3%nat);
                (lit "_OBJ_ANIME", 1%nat) ].

Definition IFVAL_COMMANDS : gset str :=
  list_to_set [ lit "_IFVAL_JUMP"; lit "_IFVAL_CALL" ].

Definition createDiagnostic (range : Range) (message : str)
    (severity : DiagnosticSeverity) : Diagnostic :=
  mkDiagnostic range message severity (lit "bdsp-ev").

(** [x || []] *)
Definition orEmpty {A} (x : option (list A)) : list A :=
  match x with Some l => l | None => [] end.

(** [expectedArgs.filter(arg => !arg.Optional).length] *)
Definition requiredCountOf (expectedArgs : list CommandArg) : Z :=
  Z.of_nat (length (List.filter (fun arg => negb (Optional arg)) expectedArgs)).

Definition validateArgumentCount (cmd : ParsedCommand) (cmdDef : Command)
  : option Diagnostic :=
  let expectedArgs := orEmpty (Args cmdDef) in
  let requiredCount := requiredCountOf expectedArgs in
  let maxCount := Z.of_nat (length expectedArgs) in
  let actualCount := Z.of_nat (length (args cmd)) in
  if actualCount <? requiredCount then
    Some (createDiagnostic (crange cmd)
            (name cmd ++ lit " requires at least " ++ numToString requiredCount
             ++ lit " argument(s), but got " ++ numToString actualCount)
            Error)
  else if actualCount >? maxCount then
    Some (createDiagnostic (crange cmd)
            (name cmd ++ lit " accepts at most " ++ numToString maxCount
             ++ lit " argument(s), but got " ++ numToString actualCount)
            Warning)
  else None.

(** The string that a template shows for an argument type. *)
Definition typeName (t : ArgType) : str :=
  match t with
  | TNumber => lit "number"
  | TString => lit "string"
  | TWork => lit "work"
  | TFlag => lit "flag"
  | TSysflag => lit "sysflag"
  | TLabel => lit "label"
  | TComparator => lit "comparator"
  | TUnknown => lit "unknown"
  end.

Definition isType (a b : ArgType) : bool :=
  str_eqb (typeName a) (typeName b).

(** The [switch] of [isArgumentTypeValid] for one expected type: whether it
    returns [true] there. *)
Definition acceptsType (expectedType : str) (t : ArgType) : bool :=
  if str_eqb expectedType (lit "Number") then isType t TNumber
  else if str_eqb expectedType (lit "Work") then isType t TWork || isType t TNumber
  else if str_eqb expectedType (lit "Flag") then isType t TFlag || isType t TNumber
  else if str_eqb expectedType (lit "SysFlag") || str_eqb expectedType (lit "System")
       then isType t TSysflag || isType t TNumber
  else if str_eqb expectedType (lit "Label") then isType t TString
  else if str_eqb expectedType (lit "String") then isType t TString
  else false.

Fixpoint isArgumentTypeValidLoop (t : ArgType) (expectedTypes : list str)
  : bool :=
  match expectedTypes with
  | [] => isType t TUnknown
  | expectedType :: rest =>
      if acceptsType expectedType t then true
      else isArgumentTypeValidLoop t rest
  end.

Definition isArgumentTypeValid (arg : ParsedArgument)
    (expectedTypes : list str) : bool :=
  isArgumentTypeValidLoop (type arg) expectedTypes.

(** The loop of [validateArgumentTypes], both arrays read from index [i]. *)
Fixpoint validateArgumentTypesLoop (i : Z) (cargs : list ParsedArgument)
    (expectedArgs : list CommandArg) : list Diagnostic :=
  match cargs, expectedArgs with
  | arg :: cargs', expectedArg :: expectedArgs' =>
      let expectedTypes := orEmpty (Types expectedArg) in
      let rest := validateArgumentTypesLoop (i + 1) cargs' expectedArgs' in
      if Z.of_nat (length expectedTypes) =? 0 then rest
      else if negb (isArgumentTypeValid arg expectedTypes) then
        createDiagnostic (arange arg)
          (lit "Argument " ++ numToString (i + 1) ++ lit " ("
           ++ TentativeName expectedArg ++ lit "): expected "
           ++ join (lit " | ") expectedTypes ++ lit ", got "
           ++ typeName (type arg))
          Warning :: rest
      else rest
  | _, _ => []
  end.

Definition validateArgumentTypes (cmd : ParsedCommand) (cmdDef : Command)
  : list Diagnostic :=
  validateArgumentTypesLoop 0 (args cmd) (orEmpty (Args cmdDef)).

Definition validateLabelReference (cmd : ParsedCommand) (cmdDef : Command)
    (labels : gmap str ParsedLabel) : option Diagnostic :=
  match JUMP_COMMANDS !! name cmd with
  | None => None
  | Some labelArgIndex =>
      match args cmd !! labelArgIndex with
      | None => None
      | Some arg =>
          if negb (isType (type arg) TString) then None
          else
            let labelName := stripQuotes (value arg) in
            match labels !! labelName with
            | None =>
                Some (createDiagnostic (arange arg)
                        (lit "Undefined label: " ++ labelName) Error)
            | Some _ => None
            end
      end
  end.

Definition validateComparator (cmd : ParsedCommand) (cmdDef : Command)
  : option Diagnostic :=
  if negb (bool_decide (name cmd ∈ IFVAL_COMMANDS)) then None
  else
    match args cmd !! 1%nat with
    | None => None
    | Some arg =>
        let value := stripQuotes (value arg) in
        if negb (bool_decide (value ∈ VALID_COMPARATORS)) then
          Some (createDiagnostic (arange arg)
                  (lit "Invalid comparator: " ++ value
                   ++ lit ". Expected one of: GE, GT, LE, LT, EQ, NE")
                  Error)
        else None
    end.

(** [if (d) diagnostics.push(d)] *)
Definition pushed (d : option Diagnostic) : list Diagnostic :=
  match d with Some x => [x] | None => [] end.

(** The body of the loop of [updateDiagnostics]: what one command pushes. *)
Definition validateCommand (dl : DataLoader.t) (parsed : ParsedDocument)
    (cmd : ParsedCommand) : list Diagnostic :=
  match getCommand dl (name cmd) with
  | None =>
      [createDiagnostic (crange cmd) (lit "Unknown command: " ++ name cmd) Error]
  | Some cmdDef =>
      pushed (validateArgumentCount cmd cmdDef)
      ++ validateArgumentTypes cmd cmdDef
      ++ pushed (validateLabelReference cmd cmdDef (labels parsed))
      ++ pushed (validateComparator cmd cmdDef)
  end.

Fixpoint validateCommands (dl : DataLoader.t) (parsed : ParsedDocument)
    (cmds : list ParsedCommand) (diagnostics : list Diagnostic)
  : list Diagnostic :=
  match cmds with
  | [] => diagnostics
  | cmd :: rest =>
      validateCommands dl parsed rest (diagnostics ++ validateCommand dl parsed cmd)
  end.

(** [updateDiagnostics]: the diagnostics set for the document, or [None]
    when the collection is left as it was. *)
Definition updateDiagnostics (dl : DataLoader.t) (document : TextDocument)
  : option (list Diagnostic) :=
  if negb (str_eqb (languageId document) (lit "bdsp-ev")) then None
  else
    let parsed := parseDocument document in
    Some (validateCommands dl parsed (commands parsed) []).

End DiagnosticProvider.

(* ===================================================================== *)
(** ** src/utils/parser.ts: getWordAtPosition                            *)
(* ===================================================================== *)

Module WordAtPosition.
Import JS Vscode Parser.
Local Open Scope Z_scope.

(** [[@#$]] *)
Definition isSigil (c : ascii) : bool :=
  chr_eqb c "@" || chr_eqb c "#" || chr_eqb c "$".

(** [[a-zA-Z0-9_\-]] *)
Definition isPrefixCont (c : ascii) : bool :=
  isLower c || isUpper c || isDigit c || isUnderscore c || chr_eqb c "-".

(** An expression made of one character class followed by the longest run
    of a second class, tried at the head of [s]; [atLeastOne] asks for a
    run that is not empty (the [+] of the prefix expression, where the
    other two have [*]). All three expressions of getWordAtPosition have
    this shape, and nothing follows the run, so the longest run is the
    match. *)
Definition tokenAt (first cont : ascii -> bool) (atLeastOne : bool) (s : str)
  : option str :=
  match s with
  | c :: r =>
      if first c then
        let '(run, _) := span cont r in
        if atLeastOne && negb (truthy run) then None else Some (c :: run)
      else None
  | [] => None
  end.

(** The prefix expression, the command-name expression and the label-name
    expression. *)
Definition prefixPattern : str -> option str := tokenAt isSigil isPrefixCont true.
Definition cmdPattern : str -> option str := tokenAt isCmdStart isCmdCont false.
Definition labelPattern : str -> option str :=
  tokenAt isIdentStart isIdentCont false.

(** One [while] loop of getWordAtPosition: the successive matches of a
    global expression, each search resuming where the previous match
    ended, up to the first match around the position. [s] is the text from
    index [i] on and [skip] counts the characters of the previous match
    still to pass. *)
Fixpoint wordLoop (pattern : str -> option str) (s : str) (i : Z) (skip : nat)
    (line character : Z) : option (str * Range) :=
  match s with
  | [] => None
  | _ :: r =>
      match skip with
      | S k => wordLoop pattern r (i + 1) k line character
      | O =>
          match pattern s with
          | Some m =>
              let start := i in
              let end_ := start + len m in
              if (character >=? start) && (character <=? end_)
              then Some (m, newRange line start line end_)
              else wordLoop pattern r (i + 1) (length m - 1) line character
          | None => wordLoop pattern r (i + 1) 0 line character
          end
      end
  end.

(** getWordAtPosition once the text of the line is at hand. *)
Definition wordOfLine (text : str) (line character : Z) : option (str * Range) :=
  match wordLoop prefixPattern text 0 0 line character with
  | Some w => Some w
  | None =>
      match wordLoop cmdPattern text 0 0 line character with
      | Some w => Some w
      | None => wordLoop labelPattern text 0 0 line character
      end
  end.

Definition getWordAtPosition (document : TextDocument) (line character : Z)
  : result (option (str * Range)) :=
  if line <? 0 then Throws
  else match lines document !! Z.to_nat line with
       | Some text => Returns (wordOfLine text line character)
       | None => Throws
       end.

End WordAtPosition.

(* ===================================================================== *)
(** ** src/data/dataLoader.ts: loadCommands                              *)
(* ===================================================================== *)

Module LoadCommands.
Import JS DataLoader.

(** The loop of loadCommands that fills the cleared lookup table. *)
Fixpoint fillLookup (cmds : list Command) (lookup : gmap str Command)
  : gmap str Command :=
  match cmds with
  | [] => lookup
  | cmd :: rest =>
      fillLookup rest
        (if truthy (Name cmd) then <[ Name cmd := cmd ]> lookup else lookup)
  end.

(** loadCommands on the command table of the loader. [parsed] is what
    reading and parsing the file gives: the array of commands, or [None]
    when that throws, which the [catch] turns into a log message. *)
Definition loadCommands (dl : DataLoader.t) (parsed : option (list Command))
  : DataLoader.t :=
  match parsed with
  | Some cmds => mkDataLoader (fillLookup cmds ∅)
  | None => dl
  end.

End LoadCommands.

(* ===================================================================== *)
(** ** The definition provider: getLabelFromString                       *)
(* ===================================================================== *)

Module DefinitionProvider.
Import JS Vscode Parser.
Local Open Scope Z_scope.

(** The loop of getLabelFromString: [s] is the text of [line] from index
    [i] on. *)
Fixpoint labelFromStringLoop (line s : str) (i : Z) (inString : bool)
    (stringChar : str) (stringStart charPos : Z) : option str :=
  match s with
  | [] => None
  | char :: r =>
      if negb inString && (chr_eqb char dquote || chr_eqb char squote) then
        labelFromStringLoop line r (i + 1) true [char] i charPos
      else if inString && str_eqb [char] stringChar then
        if (charPos >? stringStart) && (charPos <=? i)
        then Some (substring line (stringStart + 1) i)
        else labelFromStringLoop line r (i + 1) false stringChar stringStart
                                 charPos
      else labelFromStringLoop line r (i + 1) inString stringChar stringStart
                               charPos
  end.

Definition getLabelFromString (line : str) (charPos : Z) : option str :=
  labelFromStringLoop line line 0 false [] (-1) charPos.

End DefinitionProvider.

(* ===================================================================== *)
(** ** src/providers/completionProvider.ts: the signature help           *)
(* ===================================================================== *)

Module SignatureHelpProvider.
Import JS Vscode Parser DataLoader.
Local Open Scope Z_scope.

Record ParameterInformation := mkParameterInformation {
  plabel : str;
  pdocumentation : str
}.

Record SignatureInformation := mkSignatureInformation {
  slabel : str;
  sdocumentation : str;
  parameters : list ParameterInformation
}.

Record SignatureHelp := mkSignatureHelp {
  signatures : list SignatureInformation;
  activeSignature : Z;
  activeParameter : Z
}.

(** [s || d] on strings *)
Definition orElse (s d : str) : str := if truthy s then s else d.

(** The line feed of a template string. *)
Definition newline : ascii := "010".

(** DataLoader.getArgDocumentation *)
Definition getArgDocumentation (arg : CommandArg) : str :=
  let typeStr := match Types arg with
                 | Some ts => join (lit " | ") ts
                 | None => lit "Any"
                 end in
  let doc := lit "(`" ++ typeStr ++ lit "`)" in
  let doc := if Optional arg then doc ++ lit " (Optional)" else doc in
  if truthy (ArgDescription arg)
  then doc ++ [newline; newline] ++ ArgDescription arg
  else doc.

Definition provideSignatureHelp (dl : DataLoader.t) (document : TextDocument)
    (line character : Z) : result (option SignatureHelp) :=
  match getActiveContext document line character with
  | Throws => Throws
  | Returns None => Returns None
  | Returns (Some (cmdName, argIndex)) =>
      match getCommand dl cmdName with
      | None => Returns None
      | Some cmd =>
          let args := match Args cmd with Some l => l | None => [] end in
          let paramLabels :=
            map (fun arg => orElse (TentativeName arg) (lit "arg")) args in
          let signature :=
            Name cmd ++ lit "(" ++ join (lit ", ") paramLabels ++ lit ")" in
          let signatureInfo :=
            mkSignatureInformation signature (Description cmd)
              (map (fun arg =>
                      mkParameterInformation
                        (orElse (TentativeName arg) (lit "arg"))
                        (getArgDocumentation arg))
                   args) in
          Returns (Some (mkSignatureHelp [signatureInfo] 0
                           (Z.min argIndex (Z.of_nat (length args) - 1))))
      end
  end.

End SignatureHelpProvider.


(* ===================================================================== *)
(** ** Notions used in the statements                                    *)
(* ===================================================================== *)

Module Notions.
Import JS Vscode Parser.
Local Open Scope Z_scope.

(** The entry of the label table for the name [n] declared on line [i]. *)
Definition labelEntry (n : str) (i : Z) : ParsedLabel :=
  mkParsedLabel n i (mkRange i 0 i (len n + 1)).

(** A parsed argument without its range. *)
Definition valueAndType (a : ParsedArgument) : str * ArgType :=
  (value a, type a).

(** Two states of the loop of parseArguments that differ only in columns
    and in the ranges of the arguments found. *)
Definition sameArguments (st1 st2 : ArgScan) : Prop :=
  map valueAndType (sargs st1) = map valueAndType (sargs st2)
  /\ currentArg st1 = currentArg st2
  /\ inString st1 = inString st2
  /\ stringChar st1 = stringChar st2.



(** The text [s] with every quote character, double or single, left out. *)
Definition withoutQuotes (s : str) : str :=
  List.filter (fun c => negb (Ascii.eqb c dquote || Ascii.eqb c "'")) s.

(** The kinds of diagnostics of the validator, told by the start of their
    message: the two arity messages begin with the name of the command. *)
Definition isArityDiagnostic (cmd : ParsedCommand) (d : Diagnostic) : bool :=
  startsWith (message d) (name cmd ++ lit " requires at least ")
  || startsWith (message d) (name cmd ++ lit " accepts at most ").

Definition isUndefinedLabel (d : Diagnostic) : bool :=
  startsWith (message d) (lit "Undefined label: ").

Definition isInvalidComparator (d : Diagnostic) : bool :=
  startsWith (message d) (lit "Invalid comparator: ").

(** Following the words of the specification, not the code: the call that
    the cursor is inside of. The text before the cursor is read from left
    to right with the stack of the parentheses that are open and not yet
    closed, the innermost first; each entry has the name of the command
    that the parenthesis opens (none for a parenthesis that follows no
    command name) and a count of commas. A command opening is a command
    name, optional white space and an open parenthesis, as the command
    expression has it; a close parenthesis closes the innermost open one;
    a comma inside a pair of identical quote characters is never counted.

    The words leave two readings open, and both are kept as parameters:
    whether a parenthesis inside a quoted string is text ([stringsOpaque])
    or takes part in the matching, and whether a comma counts for the
    innermost open parenthesis only ([innermostOnly]) or for every open
    one. *)
Definition spec_countComma (innermostOnly : bool)
    (stack : list (option str * Z)) : list (option str * Z) :=
  if innermostOnly
  then match stack with
       | (o, n) :: rest => (o, n + 1) :: rest
       | [] => []
       end
  else map (fun e => (fst e, snd e + 1)) stack.

(** A character that is not a comma and not a quote character, at the
    head of [s]: the stack after it, and the number of characters of a
    command opening still to pass. *)
Definition spec_parenthesis (s : str) (stack : list (option str * Z))
  : nat * list (option str * Z) :=
  match cmdMatchAt s with
  | Some (nm, ws) => ((length nm + length ws)%nat, (Some nm, 0) :: stack)
  | None =>
      match s with
      | c :: _ =>
          if chr_eqb c "(" then (0%nat, (None, 0) :: stack)
          else if chr_eqb c ")" then (0%nat, tail stack)
          else (0%nat, stack)
      | [] => (0%nat, stack)
      end
  end.

Fixpoint spec_openCalls (stringsOpaque innermostOnly : bool) (s : str)
    (skip : nat) (open : option ascii) (stack : list (option str * Z))
  : list (option str * Z) :=
  match s with
  | [] => stack
  | c :: r =>
      match skip with
      | S k => spec_openCalls stringsOpaque innermostOnly r k open stack
      | O =>
          match open with
          | Some q =>
              if chr_eqb c q
              then spec_openCalls stringsOpaque innermostOnly r 0 None stack
              else if stringsOpaque
              then spec_openCalls stringsOpaque innermostOnly r 0 open stack
              else let '(k, stack') := spec_parenthesis s stack in
                   spec_openCalls stringsOpaque innermostOnly r k open stack'
          | None =>
              if isQuote c
              then spec_openCalls stringsOpaque innermostOnly r 0 (Some c) stack
              else if chr_eqb c ","
              then spec_openCalls stringsOpaque innermostOnly r 0 None
                     (spec_countComma innermostOnly stack)
              else let '(k, stack') := spec_parenthesis s stack in
                   spec_openCalls stringsOpaque innermostOnly r k None stack'
          end
      end
  end.

(** The most recent command opening that has no matching close parenthesis
    before the cursor, with the count of its commas; none when the cursor
    is inside no open call. *)
Definition spec_activeContext (stringsOpaque innermostOnly : bool)
    (line : str) (character : Z) : option (str * Z) :=
  match List.find (fun e => bool_decide (is_Some (fst e)))
                  (spec_openCalls stringsOpaque innermostOnly
                     (substring line 0 character) 0 None [])
  with
  | Some (Some nm, n) => Some (nm, n)
  | _ => None
  end.

End Notions.

(* ===================================================================== *)
(** ** Example scripts and registries                                    *)
(* ===================================================================== *)

Module Examples.
Import JS Vscode Parser DataLoader DiagnosticProvider Notions.
Local Open Scope Z_scope.

(** A double-quoted string literal of a script. *)
Definition quoted (s : str) : str := dquote :: s ++ [dquote].

Definition script (ls : list str) : TextDocument :=
  mkTextDocument (lit "bdsp-ev") ls.

Definition end_document : TextDocument := script [ lit "_END()" ].

Definition end_command : ParsedCommand :=
  mkParsedCommand (lit "_END") 0 0 [] (mkRange 0 0 0 6).

(** A command with two required slots and one optional slot. *)
Definition slot (nm : string) (optional : bool) : CommandArg :=
  mkCommandArg (lit nm) [] None optional.

Definition three_slots : Command :=
  mkCommand 1 (lit "_CMD") [] false false
            (Some [ slot "a" false; slot "b" false; slot "c" true ]).

Definition three_slots_registry : DataLoader.t :=
  mkDataLoader {[ lit "_CMD" := three_slots ]}.

(** The two calls of the arity example: one argument and four arguments
    for two required slots and one optional slot. *)
Definition too_few_document : TextDocument := script [ lit "_CMD(1)" ].

Definition too_few_command : ParsedCommand :=
  mkParsedCommand (lit "_CMD") 0 0
    [ mkParsedArgument (lit "1") TNumber (mkRange 0 5 0 6) ]
    (mkRange 0 0 0 7).

Definition too_many_document : TextDocument :=
  script [ lit "_CMD(1, 2, 3, 4)" ].

Definition too_many_command : ParsedCommand :=
  mkParsedCommand (lit "_CMD") 0 0
    [ mkParsedArgument (lit "1") TNumber (mkRange 0 5 0 6);
      mkParsedArgument (lit "2") TNumber (mkRange 0 7 0 9);
      mkParsedArgument (lit "3") TNumber (mkRange 0 10 0 12);
      mkParsedArgument (lit "4") TNumber (mkRange 0 13 0 15) ]
    (mkRange 0 0 0 16).

(** Label references *)
Definition jump_def : Command :=
  mkCommand 2 (lit "_JUMP") [] false false
    (Some [ mkCommandArg (lit "label") [] (Some [lit "Label"]) false ]).

Definition jump_registry : DataLoader.t :=
  mkDataLoader {[ lit "_JUMP" := jump_def ]}.

Definition missing_label_document : TextDocument :=
  script [ lit "_JUMP(" ++ quoted (lit "missing_label") ++ lit ")" ].

Definition missing_label_arg : ParsedArgument :=
  mkParsedArgument (quoted (lit "missing_label")) TString (mkRange 0 6 0 21).

Definition missing_label_command : ParsedCommand :=
  mkParsedCommand (lit "_JUMP") 0 0 [ missing_label_arg ] (mkRange 0 0 0 22).

Definition declared_label_document : TextDocument :=
  script [ lit "_JUMP(" ++ quoted (lit "missing_label") ++ lit ")";
           lit "missing_label:" ].

(** Comparators *)
Definition ifval_def : Command :=
  mkCommand 3 (lit "_IFVAL_JUMP") [] false false
    (Some [ mkCommandArg (lit "work") [] (Some [lit "Work"]) false;
            mkCommandArg (lit "cmp") [] None false;
            mkCommandArg (lit "value") [] (Some [lit "Number"; lit "Work"]) false;
            mkCommandArg (lit "label") [] (Some [lit "Label"]) false ]).

Definition ifval_registry : DataLoader.t :=
  mkDataLoader {[ lit "_IFVAL_JUMP" := ifval_def ]}.

Definition ifval_line (cmp : string) : str :=
  lit "_IFVAL_JUMP(@LOCALWORK1, " ++ lit cmp ++ lit ", 5, "
  ++ quoted (lit "ev_special") ++ lit ")".

Definition ifval_arg (cmp : string) (t : ArgType) : ParsedArgument :=
  mkParsedArgument (lit cmp) t (mkRange 0 24 0 27).

Definition ifval_command (cmp : string) (t : ArgType) : ParsedCommand :=
  mkParsedCommand (lit "_IFVAL_JUMP") 0 0
    [ mkParsedArgument (lit "@LOCALWORK1") TWork (mkRange 0 12 0 23);
      ifval_arg cmp t;
      mkParsedArgument (lit "5") TNumber (mkRange 0 28 0 30);
      mkParsedArgument (quoted (lit "ev_special")) TString (mkRange 0 31 0 44) ]
    (mkRange 0 0 0 45).

(** The same call with a quoted comparator, and the documents that also
    declare the label of the call. *)
Definition ifval_quoted_arg (cmp : string) : ParsedArgument :=
  mkParsedArgument (lit cmp) TString (mkRange 0 24 0 29).

Definition ifval_quoted_command (cmp : string) : ParsedCommand :=
  mkParsedCommand (lit "_IFVAL_JUMP") 0 0
    [ mkParsedArgument (lit "@LOCALWORK1") TWork (mkRange 0 12 0 23);
      ifval_quoted_arg cmp;
      mkParsedArgument (lit "5") TNumber (mkRange 0 30 0 32);
      mkParsedArgument (quoted (lit "ev_special")) TString (mkRange 0 33 0 46) ]
    (mkRange 0 0 0 47).

Definition ifval_document (cmp : string) : TextDocument :=
  script [ ifval_line cmp; lit "ev_special:" ].

(** Duplicate labels *)
Definition duplicate_label_document : TextDocument :=
  script [ lit "a:"; lit "_END()"; lit "a:"; lit "_END()" ].

(** A label and a command on one line *)
Definition label_and_jump_line : str :=
  lit "lbl: _JUMP(" ++ quoted (lit "x") ++ lit ")".

Definition label_and_jump_arg : ParsedArgument :=
  mkParsedArgument (quoted (lit "x")) TString (mkRange 0 11 0 14).

Definition label_and_jump_command : ParsedCommand :=
  mkParsedCommand (lit "_JUMP") 0 5 [ label_and_jump_arg ] (mkRange 0 5 0 15).

(** A command name that also occurs earlier in its line *)
Definition end_after_label_line : str := lit "ev_END: _END()".

(** Quoted commas and empty segments *)
Definition talkmsg_line : str :=
  lit "_TALKMSG(" ++ quoted (lit "a, b") ++ lit ")".

(** The active call context *)
Definition talkmsg_open_line : str :=
  lit "_TALKMSG(" ++ quoted (lit "a") ++ lit ", ".





End Examples.

(* ===================================================================== *)
(** ** Notions used in the further properties                            *)
(* ===================================================================== *)

Module MoreNotions.
Import JS Vscode Parser DataLoader DiagnosticProvider WordAtPosition.
Local Open Scope Z_scope.

(** A range lies on one line, is not empty and stays between two columns. *)
Definition rangeWithin (line lo hi : Z) (r : Range) : Prop :=
  startLine r = line /\ endLine r = line
  /\ lo <= startCharacter r /\ startCharacter r < endCharacter r
  /\ endCharacter r <= hi.

(** The ranges of a list of arguments follow each other without touching:
    each ends before the next ones start. *)
Definition rangesInOrder (l : list ParsedArgument) : Prop :=
  forall (i j : nat) a b,
    (i < j)%nat -> l !! i = Some a -> l !! j = Some b ->
    endCharacter (arange a) < startCharacter (arange b).

(** The invariant of the loop of parseArguments before the character at
    index [i]: where the current argument starts, and where the arguments
    found so far lie. *)
Definition argLoopInv (line sc i : Z) (st : ArgScan) : Prop :=
  sc <= argStartCol st /\ argStartCol st <= sc + i
  /\ (currentArg st <> [] -> argStartCol st < sc + i)
  /\ Forall (fun a => rangeWithin line sc (argStartCol st - 1) (arange a))
            (sargs st)
  /\ rangesInOrder (sargs st).

(** The commands of a list are on lines that increase strictly. *)
Definition commandsInOrder (l : list ParsedCommand) : Prop :=
  forall (i j : nat) a b,
    (i < j)%nat -> l !! i = Some a -> l !! j = Some b -> line a < line b.

(** A command on a line from [lo] up to [hi] excluded, with its range on
    that line. *)
Definition commandOnLine (lo hi : Z) (c : ParsedCommand) : Prop :=
  lo <= line c < hi
  /\ startLine (crange c) = line c /\ endLine (crange c) = line c.

(** The label reference that a jump command makes of its quoted-string
    label argument. *)
Definition referenceOf (cmd : ParsedCommand) (arg : ParsedArgument)
  : LabelReference :=
  mkLabelReference (stripQuotes (value arg)) (arange arg) (line cmd).

(** [arg] is the label argument of the jump command [cmd], written as a
    quoted string; the index of the argument is the validator's. *)
Definition labelArgumentOf (table : gmap str nat) (cmd : ParsedCommand)
    (arg : ParsedArgument) : Prop :=
  exists k, table !! name cmd = Some k /\ args cmd !! k = Some arg
            /\ type arg = TString.

(** A diagnostic of the extension placed on a command: at the range of the
    command or at the range of one of its arguments. *)
Definition diagnosticOn (cmd : ParsedCommand) (d : Diagnostic) : Prop :=
  source d = lit "bdsp-ev"
  /\ (range d = crange cmd
      \/ exists a, In a (args cmd) /\ range d = arange a).

(** The quote character of the string that is open after the text [s],
    if any, [open] being the one open before it: a quote character opens
    a string, and only the same character closes it. *)
Fixpoint openQuoteAfter (s : str) (open : option ascii) : option ascii :=
  match s with
  | [] => open
  | c :: r =>
      match open with
      | Some q => openQuoteAfter r (if chr_eqb c q then None else Some q)
      | None => openQuoteAfter r (if isQuote c then Some c else None)
      end
  end.

(** The state of the loop of getLabelFromString that stands for an open
    quote, or for none. *)
Definition loopStateOf (open : option ascii) (inString : bool) (stringChar : str)
  : Prop :=
  match open with
  | Some q => inString = true /\ stringChar = [q]
  | None => inString = false
  end.

(** The three shapes of the word that getWordAtPosition returns: a sigil
    followed by one or more characters of a symbol name, a command-style
    name, or an identifier. *)
Definition wordShape (w : str) : Prop :=
  exists c run,
    w = c :: run
    /\ ((isSigil c = true /\ run <> [] /\ forallb isPrefixCont run = true)
        \/ (isCmdStart c = true /\ forallb isCmdCont run = true)
        \/ (isIdentStart c = true /\ forallb isIdentCont run = true)).

(** The class of a character as the first of an argument: the three
    sigils, the quotes, what a number starts with, the upper-case letters,
    and the rest. *)
Definition charClass (c : ascii) : Z :=
  if chr_eqb c "@" then 1
  else if chr_eqb c "#" then 2
  else if chr_eqb c "$" then 3
  else if isQuote c then 4
  else if chr_eqb c "-" || isDigit c then 5
  else if isUpper c then 6
  else 0.

Definition firstCharClass (v : str) : Z :=
  match v with
  | [] => 0
  | c :: _ => charClass c
  end.

(** The parentheses of a text are balanced, [d] of them being open before
    it: none closes what is not open, and none stays open. *)
Fixpoint balancedFrom (s : str) (d : nat) : bool :=
  match s with
  | [] => Nat.eqb d 0
  | c :: r =>
      if chr_eqb c "(" then balancedFrom r (S d)
      else if chr_eqb c ")" then
        match d with
        | O => false
        | S d' => balancedFrom r d'
        end
      else balancedFrom r d
  end.

Definition balanced (s : str) : Prop := balancedFrom s 0 = true.

End MoreNotions.

(* ===================================================================== *)
(** ** Properties                                                        *)
(* ===================================================================== *)

Import JS Vscode Parser DataLoader DiagnosticProvider Notions Examples.
Local Open Scope Z_scope.

(** *** Characters and strings *)

Ltac ascii_cases c :=
  destruct c as [[] [] [] [] [] [] [] []]; vm_compute; try congruence; auto.

Lemma chr_eqb_refl c : chr_eqb c c = true.
Proof. apply Ascii.eqb_refl. Qed.

Lemma chr_eqb_eq a b : chr_eqb a b = true <-> a = b.
Proof. apply Ascii.eqb_eq. Qed.

Lemma chr_eqb_neq a b : chr_eqb a b = false <-> a <> b.
Proof. apply Ascii.eqb_neq. Qed.

Lemma str_eqb_eq a b : str_eqb a b = true <-> a = b.
Proof.
  revert b. induction a as [|x a IH]; intros [|y b]; simpl; split;
    try congruence; try done.
  - intros H. apply andb_true_iff in H as [H1 H2].
    apply chr_eqb_eq in H1. apply IH in H2. congruence.
  - intros H. inversion H; subst. rewrite chr_eqb_refl. simpl. by apply IH.
Qed.

Lemma str_eqb_refl a : str_eqb a a = true.
Proof. by apply str_eqb_eq. Qed.

(** *** The loop of updateDiagnostics *)

Lemma validateCommands_flat dl parsed cmds diagnostics :
  validateCommands dl parsed cmds diagnostics
  = diagnostics ++ concat (map (validateCommand dl parsed) cmds).
Proof.
  revert diagnostics. induction cmds as [|cmd rest IH]; intros diagnostics; simpl.
  - by rewrite app_nil_r.
  - rewrite IH. by rewrite app_assoc.
Qed.

Lemma updateDiagnostics_flat dl document :
  languageId document = lit "bdsp-ev" ->
  updateDiagnostics dl document
  = Some (concat (map (validateCommand dl (parseDocument document))
                      (commands (parseDocument document)))).
Proof.
  intros Hlang. unfold updateDiagnostics. rewrite Hlang, str_eqb_refl. simpl.
  by rewrite validateCommands_flat.
Qed.

Lemma validateCommand_known dl parsed cmd cmdDef :
  getCommand dl (name cmd) = Some cmdDef ->
  validateCommand dl parsed cmd
  = pushed (validateArgumentCount cmd cmdDef)
    ++ validateArgumentTypes cmd cmdDef
    ++ pushed (validateLabelReference cmd cmdDef (labels parsed))
    ++ pushed (validateComparator cmd cmdDef).
Proof. intros H. unfold validateCommand. by rewrite H. Qed.

(** *** C1 *)

(** C1: a parsed command whose name has no entry in the command table of
    the registry contributes exactly one diagnostic to the diagnostics of
    the document: the error [Unknown command: <name>] at the range of the
    command. No arity, argument-type, label-reference or comparator
    diagnostic is emitted for it: the diagnostics of the document are those
    of the commands before it, this one error, and those of the commands
    after it. *)
Theorem unknown_command_single_error dl document pre cmd post :
  languageId document = lit "bdsp-ev" ->
  commands (parseDocument document) = pre ++ cmd :: post ->
  getCommand dl (name cmd) = None ->
  validateCommand dl (parseDocument document) cmd
  = [ mkDiagnostic (crange cmd) (lit "Unknown command: " ++ name cmd)
                   Error (lit "bdsp-ev") ]
  /\ updateDiagnostics dl document
     = Some (concat (map (validateCommand dl (parseDocument document)) pre)
             ++ [ mkDiagnostic (crange cmd) (lit "Unknown command: " ++ name cmd)
                               Error (lit "bdsp-ev") ]
             ++ concat (map (validateCommand dl (parseDocument document)) post)).
Proof.
  intros Hlang Hcmds Hnone.
  assert (Hone : validateCommand dl (parseDocument document) cmd
                 = [ mkDiagnostic (crange cmd) (lit "Unknown command: " ++ name cmd)
                                  Error (lit "bdsp-ev") ]).
  { unfold validateCommand. by rewrite Hnone. }
  split; [exact Hone|].
  rewrite updateDiagnostics_flat by done.
  rewrite Hcmds, map_app, concat_app. simpl. by rewrite Hone.
Qed.

Lemma unknown_command_single_error_witness :
  validateCommand (mkDataLoader ∅) (parseDocument end_document) end_command
  = [ mkDiagnostic (mkRange 0 0 0 6) (lit "Unknown command: _END")
                   Error (lit "bdsp-ev") ]
  /\ updateDiagnostics (mkDataLoader ∅) end_document
     = Some [ mkDiagnostic (mkRange 0 0 0 6) (lit "Unknown command: _END")
                           Error (lit "bdsp-ev") ].
Proof.
  apply (unknown_command_single_error (mkDataLoader ∅) end_document
           [] end_command []); reflexivity.
Defined.

(** *** The counts of the arity check *)

Lemma requiredCountOf_le expectedArgs :
  requiredCountOf expectedArgs <= Z.of_nat (length expectedArgs).
Proof.
  unfold requiredCountOf. apply Nat2Z.inj_le.
  induction expectedArgs as [|a l IH]; simpl; [lia|].
  destruct (negb (Optional a)); simpl; lia.
Qed.


(** *** The comparator tables *)

Lemma elem_of_VALID_COMPARATORS v :
  v ∈ VALID_COMPARATORS
  <-> In v [ lit "GE"; lit "GT"; lit "LE"; lit "LT"; lit "EQ"; lit "NE" ].
Proof.
  unfold VALID_COMPARATORS. rewrite elem_of_list_to_set. apply list_elem_of_In.
Qed.

Lemma elem_of_IFVAL_COMMANDS n :
  n ∈ IFVAL_COMMANDS <-> n = lit "_IFVAL_JUMP" \/ n = lit "_IFVAL_CALL".
Proof.
  unfold IFVAL_COMMANDS. rewrite elem_of_list_to_set, list_elem_of_In. simpl.
  intuition congruence.
Qed.


(** *** Trimming *)

Lemma trimStart_nonspace c r : isSpace c = false -> trimStart (c :: r) = c :: r.
Proof. intros H. simpl. by rewrite H. Qed.

Lemma trimStart_snoc_nonspace l c :
  isSpace c = false -> exists l', trimStart (l ++ [c]) = l' ++ [c].
Proof.
  intros Hc. induction l as [|x l IH]; simpl.
  - rewrite Hc. by exists [].
  - destruct (isSpace x); [exact IH|]. by exists (x :: l).
Qed.

Lemma trimEnd_cons_nonspace c r :
  isSpace c = false -> exists r', trimEnd (c :: r) = c :: r'.
Proof.
  intros Hc. unfold trimEnd. simpl.
  destruct (trimStart_snoc_nonspace (rev r) c Hc) as [l' Hl'].
  rewrite Hl', rev_app_distr. simpl. by exists (rev l').
Qed.

Lemma trim_cons_nonspace c r :
  isSpace c = false -> exists r', trim (c :: r) = c :: r'.
Proof.
  intros Hc. unfold trim. rewrite trimStart_nonspace by done.
  by apply trimEnd_cons_nonspace.
Qed.


Lemma trimStart_spaces ws : forallb isSpace ws = true -> trimStart ws = [].
Proof.
  induction ws as [|c ws IH]; simpl; [done|].
  intros H. apply andb_true_iff in H as [H1 H2]. rewrite H1. by apply IH.
Qed.

Lemma trim_spaces ws : forallb isSpace ws = true -> trim ws = [].
Proof. intros H. unfold trim. by rewrite trimStart_spaces. Qed.

(** *** The label expression *)

Lemma span_app p s a b : span p s = (a, b) -> s = a ++ b.
Proof.
  revert a b. induction s as [|c s IH]; simpl; intros a b H.
  - by inversion H.
  - destruct (p c).
    + destruct (span p s) as [a' b'] eqn:E. inversion H; subst.
      simpl. f_equal. by apply IH.
    + by inversion H.
Qed.

Lemma span_forallb p s a b : span p s = (a, b) -> forallb p a = true.
Proof.
  revert a b. induction s as [|c s IH]; simpl; intros a b H.
  - by inversion H.
  - destruct (p c) eqn:Ec.
    + destruct (span p s) as [a' b'] eqn:E. inversion H; subst.
      simpl. rewrite Ec. simpl. by eapply IH.
    + by inversion H.
Qed.

Lemma startsWith_app a b : startsWith (a ++ b) a = true.
Proof.
  induction a as [|x a IH]; simpl; [done|]. by rewrite chr_eqb_refl, IH.
Qed.

Lemma isIdentStart_not_space c : isIdentStart c = true -> isSpace c = false.
Proof. ascii_cases c. Qed.

Lemma isIdentStart_not_semicolon c :
  isIdentStart c = true -> chr_eqb ";" c = false.
Proof. ascii_cases c. Qed.

Lemma isIdentStart_not_slash c :
  isIdentStart c = true -> chr_eqb "/" c = false.
Proof. ascii_cases c. Qed.

(** What a successful match of the label expression says of the line. *)
Lemma labelMatch_inv text n :
  labelMatch text = Some n ->
  exists c run rest,
    n = c :: run /\ text = n ++ ":"%char :: rest
    /\ isIdentStart c = true /\ forallb isIdentCont run = true.
Proof.
  unfold labelMatch. destruct text as [|c r]; [done|].
  destruct (isIdentStart c) eqn:Ec; [|done].
  destruct (span isIdentCont r) as [run rest] eqn:Es.
  destruct rest as [|d rest]; [done|].
  destruct (chr_eqb d ":") eqn:Ed; [|done].
  intros H. inversion H; subst. apply chr_eqb_eq in Ed. subst d.
  exists c, run, rest. repeat split; try done.
  - simpl. f_equal. by apply (span_app isIdentCont).
  - by apply (span_forallb isIdentCont r run (":"%char :: rest)).
Qed.

(** A line that declares a label is neither empty nor a comment. *)
Lemma labelMatch_not_skipped text n :
  labelMatch text = Some n -> isSkipped text = false.
Proof.
  intros H. apply labelMatch_inv in H as (c & run & rest & -> & -> & Hc & _).
  simpl. destruct (trim_cons_nonspace c (run ++ ":"%char :: rest)) as [r' Hr'];
    [by apply isIdentStart_not_space|].
  unfold isSkipped. simpl in *. rewrite Hr'. simpl.
  by rewrite isIdentStart_not_semicolon, isIdentStart_not_slash.
Qed.

Lemma clamp_0 s : clamp s 0 = 0.
Proof. unfold clamp, len. lia. Qed.

Lemma indexOfAt_startsWith s p i : startsWith s p = true -> indexOfAt s p i = i.
Proof. intros H. destruct s; simpl; by rewrite H. Qed.

(** The declared name is found at column 0. *)
Lemma labelMatch_indexOf text n :
  labelMatch text = Some n -> indexOf text n 0 = 0.
Proof.
  intros H. apply labelMatch_inv in H as (c & run & rest & Hn & -> & _ & _).
  unfold indexOf. rewrite clamp_0. simpl drop.
  apply indexOfAt_startsWith, startsWith_app.
Qed.

(** *** The label table built by parseDocument *)

Lemma newRange_le l c1 c2 : c1 <= c2 -> newRange l c1 l c2 = mkRange l c1 l c2.
Proof.
  intros H. unfold newRange.
  rewrite Z.ltb_irrefl, Z.eqb_refl. simpl.
  by rewrite (proj2 (Z.leb_le c1 c2) H).
Qed.

Lemma parseLabel_declared i text m n :
  labelMatch text = Some n -> parseLabel i text m = <[ n := labelEntry n i ]> m.
Proof.
  intros H. unfold parseLabel. rewrite H, (labelMatch_indexOf _ _ H).
  unfold labelEntry. rewrite newRange_le; [done|]. unfold len. lia.
Qed.

Lemma parseLine_labels i text doc :
  labels (parseLine i text doc)
  = if isSkipped text then labels doc else parseLabel i text (labels doc).
Proof.
  unfold parseLine. destruct (isSkipped text); [done|].
  by destruct (parseCommand i text) as [[cmd ref]|].
Qed.

Lemma parseLine_labels_declared i text doc n :
  labelMatch text = Some n ->
  labels (parseLine i text doc) = <[ n := labelEntry n i ]> (labels doc).
Proof.
  intros H. rewrite parseLine_labels, (labelMatch_not_skipped _ _ H).
  by apply parseLabel_declared.
Qed.

Lemma parseLine_labels_other i text doc n :
  labelMatch text <> Some n ->
  labels (parseLine i text doc) !! n = labels doc !! n.
Proof.
  intros H. rewrite parseLine_labels. destruct (isSkipped text); [done|].
  unfold parseLabel. destruct (labelMatch text) as [n'|] eqn:E; [|done].
  rewrite lookup_insert_ne; [done|]. congruence.
Qed.

Lemma parseLine_labels_mono i text doc n :
  is_Some (labels doc !! n) -> is_Some (labels (parseLine i text doc) !! n).
Proof.
  intros H. destruct (decide (labelMatch text = Some n)) as [E|E].
  - rewrite (parseLine_labels_declared _ _ _ _ E), lookup_insert_eq. eauto.
  - by rewrite parseLine_labels_other.
Qed.

Lemma parseLines_labels_mono ls i doc n :
  is_Some (labels doc !! n) -> is_Some (labels (parseLines ls i doc) !! n).
Proof.
  revert i doc. induction ls as [|text rest IH]; intros i doc H; simpl; [done|].
  by apply IH, parseLine_labels_mono.
Qed.

Lemma parseLines_labels_declared ls i doc text n :
  In text ls -> labelMatch text = Some n ->
  is_Some (labels (parseLines ls i doc) !! n).
Proof.
  revert i doc. induction ls as [|t rest IH]; intros i doc Hin Hm; [done|].
  simpl. destruct Hin as [->|Hin].
  - apply parseLines_labels_mono.
    rewrite (parseLine_labels_declared _ _ _ _ Hm), lookup_insert_eq. eauto.
  - by apply IH.
Qed.

Lemma parseLines_labels_undeclared ls i doc n :
  Forall (fun t => labelMatch t <> Some n) ls ->
  labels (parseLines ls i doc) !! n = labels doc !! n.
Proof.
  revert i doc. induction ls as [|t rest IH]; intros i doc H; simpl; [done|].
  inversion H; subst. rewrite IH by done. by apply parseLine_labels_other.
Qed.

Lemma parseLines_app l1 l2 i doc :
  parseLines (l1 ++ l2) i doc
  = parseLines l2 (i + Z.of_nat (length l1)) (parseLines l1 i doc).
Proof.
  revert i doc. induction l1 as [|t l1 IH]; intros i doc; simpl.
  - f_equal. lia.
  - rewrite IH. f_equal. lia.
Qed.

(** The examples are what the parser makes of their lines. *)
Example missing_label_command_parsed :
  commands (parseDocument missing_label_document) = [ missing_label_command ].
Proof. reflexivity. Qed.

Example ifval_command_parsed :
  commands (parseDocument (script [ ifval_line "EQ" ]))
  = [ ifval_command "EQ" TComparator ]
  /\ commands (parseDocument (script [ ifval_line "XX" ]))
     = [ ifval_command "XX" TUnknown ].
Proof. split; reflexivity. Qed.


(** *** The table of label-bearing arguments *)

(** The table of label-bearing argument indices. *)
Lemma JUMP_COMMANDS_table n k :
  DiagnosticProvider.JUMP_COMMANDS !! n = Some k
  <-> In (n, k)
        [ (lit "_JUMP", 0%nat); (lit "_CALL", 0%nat);
          (lit "_IF_FLAGON_JUMP", 1%nat); (lit "_IF_FLAGOFF_JUMP", 1%nat);
          (lit "_IF_FLAGON_CALL", 1%nat); (lit "_IF_FLAGOFF_CALL", 1%nat);
          (lit "_IFVAL_JUMP", 3%nat); (lit "_IFVAL_CALL", 3%nat);
          (lit "_OBJ_ANIME", 1%nat) ].
Proof.
  unfold DiagnosticProvider.JUMP_COMMANDS.
  rewrite <- list_elem_of_In, <- elem_of_list_to_map; [done|].
  apply (bool_decide_unpack _). vm_compute. reflexivity.
Qed.


(** *** C6 *)

(** The label table after all lines: the entry of a name is that of the
    last line declaring it. *)
Lemma parseLines_labels_last before text after i doc n :
  labelMatch text = Some n ->
  Forall (fun t => labelMatch t <> Some n) after ->
  labels (parseLines (before ++ text :: after) i doc) !! n
  = Some (labelEntry n (i + Z.of_nat (length before))).
Proof.
  intros Hm Hafter. rewrite parseLines_app. simpl.
  rewrite parseLines_labels_undeclared by done.
  by rewrite (parseLine_labels_declared _ _ _ _ Hm), lookup_insert_eq.
Qed.

(** C6, as the code has it: when a label name is declared on more than one
    line, the label table used for resolving references holds the last
    declaration of that name. Whatever the lines before it declare, the
    entry of a name is the one made for the last line that declares it: its
    line number, and the range of the name and its colon at column 0. A name
    that no line declares has no entry. *)
Theorem label_table_last_declaration_wins document n :
  (forall before text after,
      lines document = before ++ text :: after ->
      labelMatch text = Some n ->
      Forall (fun t => labelMatch t <> Some n) after ->
      labels (parseDocument document) !! n
      = Some (mkParsedLabel n (Z.of_nat (length before))
                (mkRange (Z.of_nat (length before)) 0
                         (Z.of_nat (length before)) (len n + 1))))
  /\ (Forall (fun t => labelMatch t <> Some n) (lines document) ->
      labels (parseDocument document) !! n = None).
Proof.
  split.
  - intros before text after Hlines Hm Hafter. unfold parseDocument.
    rewrite Hlines. by rewrite (parseLines_labels_last _ _ _ _ _ n).
  - intros Hnone. unfold parseDocument.
    by rewrite parseLines_labels_undeclared.
Qed.

Lemma label_table_last_declaration_wins_witness :
  labels (parseDocument duplicate_label_document) !! lit "a"
  = Some (mkParsedLabel (lit "a") 2 (mkRange 2 0 2 2)).
Proof.
  destruct (label_table_last_declaration_wins duplicate_label_document (lit "a"))
    as [H _].
  apply (H [ lit "a:"; lit "_END()" ] (lit "a:") [ lit "_END()" ]).
  - reflexivity.
  - reflexivity.
  - repeat constructor. vm_compute. discriminate.
Defined.

(** C6 does not hold with the first declaration winning: in a document
    that declares [a] on line 0 and again on line 2 the table holds the
    declaration of line 2, not the first one. *)
Lemma first_declaration_not_kept :
  labelMatch (lit "a:") = Some (lit "a")
  /\ lines duplicate_label_document !! 0%nat = Some (lit "a:")
  /\ lines duplicate_label_document !! 2%nat = Some (lit "a:")
  /\ lline <$> labels (parseDocument duplicate_label_document) !! lit "a"
     = Some 2
  /\ lline <$> labels (parseDocument duplicate_label_document) !! lit "a"
     <> Some 0.
Proof. repeat split; try reflexivity. vm_compute. discriminate. Qed.

(** *** C10 *)

Lemma parseCommand_matched i text idx cmdName ws :
  cmdMatch text = Some (idx, cmdName, ws) ->
  exists cmd ref,
    parseCommand i text = Some (cmd, ref) /\ name cmd = cmdName /\ line cmd = i.
Proof.
  intros H. unfold parseCommand. rewrite H. eexists _, _. by split.
Qed.

(** C10: the label rule and the command rule are applied independently to
    a line. A line on which both expressions match adds its label to the
    label table and also appends its parsed command to the command list.
    So the line [lbl: _JUMP(<quoted x>)] adds [lbl] to the label table and
    produces the _JUMP command with its quoted-string argument (and the
    label reference to x). *)
Theorem label_and_command_on_one_line :
  (forall i text doc n idx cmdName ws,
      labelMatch text = Some n ->
      cmdMatch text = Some (idx, cmdName, ws) ->
      labels (parseLine i text doc) !! n = Some (labelEntry n i)
      /\ exists cmd ref,
           parseCommand i text = Some (cmd, ref)
           /\ name cmd = cmdName /\ line cmd = i
           /\ commands (parseLine i text doc) = commands doc ++ [cmd])
  /\ (let parsed := parseDocument (script [ label_and_jump_line ]) in
      labels parsed !! lit "lbl"
      = Some (mkParsedLabel (lit "lbl") 0 (mkRange 0 0 0 4))
      /\ commands parsed = [ label_and_jump_command ]
      /\ labelReferences parsed
         = [ mkLabelReference (lit "x") (mkRange 0 11 0 14) 0 ]).
Proof.
  split.
  - intros i text doc n idx cmdName ws Hl Hc. split.
    + by rewrite (parseLine_labels_declared _ _ _ _ Hl), lookup_insert_eq.
    + destruct (parseCommand_matched i text idx cmdName ws Hc)
        as (cmd & ref & Hp & Hn & Hi).
      exists cmd, ref. repeat split; try done.
      unfold parseLine. rewrite (labelMatch_not_skipped _ _ Hl), Hp.
      by destruct ref.
  - repeat split; reflexivity.
Qed.

Lemma label_and_command_on_one_line_witness :
  labels (parseLine 0 label_and_jump_line emptyDocument) !! lit "lbl"
  = Some (labelEntry (lit "lbl") 0)
  /\ exists cmd ref,
       parseCommand 0 label_and_jump_line = Some (cmd, ref)
       /\ name cmd = lit "_JUMP" /\ line cmd = 0
       /\ commands (parseLine 0 label_and_jump_line emptyDocument)
          = commands emptyDocument ++ [cmd].
Proof.
  destruct label_and_command_on_one_line as [H _].
  apply (H 0 label_and_jump_line emptyDocument (lit "lbl") 5 (lit "_JUMP") []);
    reflexivity.
Defined.

(** *** C7 *)

(** C7, at the line [ev_END: _END()]: the command expression matches the
    name _END at column 8, and exactly one command is produced, ending after
    the close parenthesis (column 14); but its column and the start of its
    range are column 2, the first place where the text _END occurs in the
    line (inside the label), not the start column of the matched name. *)
Theorem command_range_starts_at_first_occurrence :
  cmdMatch end_after_label_line = Some (8, lit "_END", [])
  /\ indexOf end_after_label_line (lit "_END") 0 = 2
  /\ commands (parseDocument (script [ end_after_label_line ]))
     = [ mkParsedCommand (lit "_END") 0 2 [] (mkRange 0 2 0 14) ].
Proof. repeat split; reflexivity. Qed.

(** *** The loop of parseArguments *)

Lemma argLoop_app line sc a b i st :
  argLoop line sc (a ++ b) i st
  = argLoop line sc b (i + len a) (argLoop line sc a i st).
Proof.
  revert i st. induction a as [|c a IH]; intros i st; simpl.
  - f_equal. unfold len. simpl. lia.
  - rewrite IH. f_equal. unfold len. simpl length. lia.
Qed.





Lemma argStep_comma line sc i st :
  inString st = false ->
  argStep line sc i "," st
  = mkArgScan
      (if truthy (trim (currentArg st))
       then sargs st ++ [createArgument (trim (currentArg st)) line
                                        (argStartCol st) (sc + i)]
       else sargs st)
      [] false (stringChar st) (sc + i + 1) (sc + i).
Proof. intros Hs. unfold argStep. rewrite Hs. reflexivity. Qed.

Lemma isSpace_plain c :
  isSpace c = true -> isQuote c = false /\ chr_eqb c "," = false.
Proof. ascii_cases c. Qed.

Lemma argStep_space line sc i c st :
  inString st = false -> isSpace c = true ->
  sargs (argStep line sc i c st) = sargs st
  /\ currentArg (argStep line sc i c st) = currentArg st ++ [c]
  /\ inString (argStep line sc i c st) = false
  /\ stringChar (argStep line sc i c st) = stringChar st.
Proof.
  intros Hs Hc. apply isSpace_plain in Hc as [Hq Hcomma].
  unfold argStep. rewrite Hs. unfold isQuote in Hq. rewrite Hq, Hcomma. simpl.
  done.
Qed.



(** *** C5 *)






(** *** C9 *)

Lemma valueAndType_createArgument v l1 s1 e1 l2 s2 e2 :
  valueAndType (createArgument v l1 s1 e1)
  = valueAndType (createArgument v l2 s2 e2).
Proof.
  unfold createArgument.
  repeat match goal with |- context [if ?b then _ else _] => destruct b end;
    reflexivity.
Qed.

Lemma sameArguments_step l1 sc1 i1 l2 sc2 i2 c st1 st2 :
  sameArguments st1 st2 ->
  sameArguments (argStep l1 sc1 i1 c st1) (argStep l2 sc2 i2 c st2).
Proof.
  intros (Ha & Hc & Hs & Hq). unfold argStep. rewrite <- Hc, <- Hs, <- Hq.
  repeat match goal with |- context [if ?b then _ else _] => destruct b end;
    unfold sameArguments; cbn [sargs currentArg inString stringChar];
    repeat split; try done.
  rewrite !map_app, Ha. simpl. f_equal. f_equal.
  apply valueAndType_createArgument.
Qed.

Lemma sameArguments_loop l1 sc1 l2 sc2 s i1 i2 st1 st2 :
  sameArguments st1 st2 ->
  sameArguments (argLoop l1 sc1 s i1 st1) (argLoop l2 sc2 s i2 st2).
Proof.
  revert i1 i2 st1 st2. induction s as [|c s IH]; intros i1 i2 st1 st2 H; simpl.
  - done.
  - by apply IH, sameArguments_step.
Qed.

Lemma sameArguments_finish l1 l2 st1 st2 :
  sameArguments st1 st2 ->
  map valueAndType (argFinish l1 st1) = map valueAndType (argFinish l2 st2).
Proof.
  intros (Ha & Hc & Hs & Hq). unfold argFinish. rewrite <- Hc.
  destruct (truthy (trim (currentArg st1))); [|done].
  rewrite !map_app, Ha. simpl. f_equal. f_equal.
  apply valueAndType_createArgument.
Qed.

(** White space at top level goes into the current argument. *)
Lemma argLoop_spaces line sc ws i st :
  inString st = false -> forallb isSpace ws = true ->
  let st' := argLoop line sc ws i st in
  sargs st' = sargs st /\ currentArg st' = currentArg st ++ ws
  /\ inString st' = false /\ stringChar st' = stringChar st.
Proof.
  revert i st. induction ws as [|c ws IH]; intros i st Hs Hws; simpl.
  - by rewrite app_nil_r.
  - apply andb_true_iff in Hws as [Hc Hws].
    destruct (argStep_space line sc i c st Hs Hc) as (H1 & H2 & H3 & H4).
    destruct (IH (i + 1) (argStep line sc i c st) H3 Hws) as (K1 & K2 & K3 & K4).
    rewrite K1, K2, K3, K4, H1, H2, H4. by rewrite <- app_assoc.
Qed.

Lemma trimStart_nonspace_in c s :
  In c s -> isSpace c = false ->
  exists c' r', trimStart s = c' :: r' /\ isSpace c' = false.
Proof.
  intros Hin Hc. induction s as [|x s IH]; [done|]. simpl.
  destruct (isSpace x) eqn:Ex.
  - apply IH. destruct Hin as [->|Hin]; [congruence|done].
  - by exists x, s.
Qed.

Lemma truthy_trim_in c s :
  In c s -> isSpace c = false -> truthy (trim s) = true.
Proof.
  intros Hin Hc.
  destruct (trimStart_nonspace_in c s Hin Hc) as (c' & r' & E & Hc').
  unfold trim. rewrite E.
  by destruct (trimEnd_cons_nonspace c' r' Hc') as [r'' ->].
Qed.

(** C9: a segment between two top-level commas that is empty or only white
    space contributes no argument. For any text [p] after which the scan is
    outside a quoted string, white space [ws] and text [s], the arguments
    parsed from [p , ws , s] are, by value and kind and in order, those
    parsed from [p , s]: the segment [ws] is dropped, and the arguments
    after it are one position earlier than written. So [CMD(a,,b)] yields
    exactly two arguments, [a] at index 0 and [b] at index 1. *)
Theorem empty_segment_contributes_no_argument :
  (forall p ws s line startCol,
      inString (argLoop line startCol p 0 (argInit startCol)) = false ->
      forallb isSpace ws = true ->
      map valueAndType
          (parseArguments (p ++ ","%char :: ws ++ ","%char :: s) line startCol)
      = map valueAndType (parseArguments (p ++ ","%char :: s) line startCol))
  /\ commands (parseDocument (script [ lit "CMD(a,,b)" ]))
     = [ mkParsedCommand (lit "CMD") 0 0
           [ mkParsedArgument (lit "a") TUnknown (mkRange 0 4 0 5);
             mkParsedArgument (lit "b") TUnknown (mkRange 0 7 0 8) ]
           (mkRange 0 0 0 9) ].
Proof.
  split; [|reflexivity].
  intros p ws s line startCol Htop Hws.
  unfold parseArguments.
  rewrite (truthy_trim_in "," (p ++ _ :: ws ++ _ :: s));
    [| apply in_or_app; right; by left | reflexivity].
  rewrite (truthy_trim_in "," (p ++ _ :: s));
    [| apply in_or_app; right; by left | reflexivity].
  cbn [negb]. apply sameArguments_finish.
  rewrite !argLoop_app. simpl.
  set (stp := argLoop line startCol p 0 (argInit startCol)) in *.
  rewrite !argStep_comma by done.
  set (stc := mkArgScan _ _ _ _ _ _).
  rewrite argLoop_app. simpl.
  apply sameArguments_loop.
  destruct (argLoop_spaces line startCol ws (0 + len p + 1) stc)
    as (H1 & H2 & H3 & H4); [done | done |].
  rewrite argStep_comma by done.
  rewrite H1, H2, H4. simpl. rewrite trim_spaces by done. simpl.
  by repeat split.
Qed.

Lemma empty_segment_contributes_no_argument_witness :
  map valueAndType (parseArguments (lit "a,,b") 0 4)
  = map valueAndType (parseArguments (lit "a,b") 0 4).
Proof.
  destruct empty_segment_contributes_no_argument as [H _].
  apply (H (lit "a") [] (lit "b") 0 4); reflexivity.
Defined.

(** *** Substrings and searches *)

Lemma len_app a b : len (a ++ b) = len a + len b.
Proof. unfold len. rewrite length_app. lia. Qed.

Lemma len_nonneg a : 0 <= len a.
Proof. unfold len. lia. Qed.


Lemma substringFrom_suffix a b : substringFrom (a ++ b) (len a) = b.
Proof.
  unfold substringFrom, substring, clamp. rewrite len_app.
  pose proof (len_nonneg a). pose proof (len_nonneg b).
  replace (Z.max 0 (Z.min (len a) (len a + len b))) with (len a) by lia.
  replace (Z.max 0 (Z.min (len a + len b) (len a + len b)))
    with (len a + len b) by lia.
  replace (Z.min (len a) (len a + len b)) with (len a) by lia.
  replace (Z.max (len a) (len a + len b) - len a) with (len b) by lia.
  unfold len. rewrite !Nat2Z.id, drop_app_length. by rewrite firstn_all.
Qed.










(** *** The command expression *)

Lemma span_exact p a b :
  forallb p a = true ->
  match b with [] => True | x :: _ => p x = false end ->
  span p (a ++ b) = (a, b).
Proof.
  intros Ha Hb. induction a as [|x a IH]; simpl.
  - destruct b as [|y b]; [done|]. simpl in *. by rewrite Hb.
  - simpl in Ha. apply andb_true_iff in Ha as [Hx Ha].
    by rewrite Hx, IH.
Qed.

Lemma isCmdStart_isCmdCont c : isCmdStart c = true -> isCmdCont c = true.
Proof. ascii_cases c. Qed.

Lemma isCmdCont_not_space c : isCmdCont c = true -> isSpace c = false.
Proof. ascii_cases c. Qed.

Lemma isSpace_not_cmdCont c : isSpace c = true -> isCmdCont c = false.
Proof. ascii_cases c. Qed.

Lemma isCmdCont_not_paren c : isCmdCont c = true -> c <> "("%char.
Proof. ascii_cases c. Qed.

Lemma isSpace_not_paren c : isSpace c = true -> c <> "("%char.
Proof. ascii_cases c. Qed.

Lemma forallb_In {A} (p : A -> bool) l x :
  forallb p l = true -> In x l -> p x = true.
Proof. intros H Hin. by apply (proj1 (forallb_forall p l) H). Qed.

Lemma name_ws_no_paren nm ws :
  forallb isCmdCont nm = true -> forallb isSpace ws = true ->
  ~ In "("%char (nm ++ ws).
Proof.
  intros Hn Hw Hin. apply in_app_or in Hin as [Hin|Hin].
  - by apply (isCmdCont_not_paren "(" (forallb_In _ nm _ Hn Hin)).
  - by apply (isSpace_not_paren "(" (forallb_In _ ws _ Hw Hin)).
Qed.

(** What a match of the command expression at the head of a text says. *)
Lemma cmdMatchAt_inv s nm ws :
  cmdMatchAt s = Some (nm, ws) ->
  exists c run rest,
    nm = c :: run /\ isCmdStart c = true /\ forallb isCmdCont run = true
    /\ forallb isSpace ws = true /\ s = nm ++ ws ++ "("%char :: rest.
Proof.
  unfold cmdMatchAt. destruct s as [|c r]; [done|].
  destruct (isCmdStart c) eqn:Ec; [|done].
  destruct (span isCmdCont r) as [run rest1] eqn:E1.
  destruct (span isSpace rest1) as [ws' rest2] eqn:E2.
  destruct rest2 as [|d rest]; [done|].
  destruct (chr_eqb d "(") eqn:Ed; [|done].
  intros H. inversion H; subst. apply chr_eqb_eq in Ed. subst d.
  exists c, run, rest. repeat split; try done.
  - by apply (span_forallb isCmdCont r run rest1).
  - by apply (span_forallb isSpace rest1 ws ("("%char :: rest)).
  - simpl. f_equal. rewrite (span_app _ _ _ _ E1). f_equal.
    by apply (span_app isSpace).
Qed.

Lemma cmdMatchAt_intro c run ws rest :
  isCmdStart c = true -> forallb isCmdCont run = true ->
  forallb isSpace ws = true ->
  cmdMatchAt ((c :: run) ++ ws ++ "("%char :: rest) = Some (c :: run, ws).
Proof.
  intros Hc Hrun Hws. unfold cmdMatchAt. simpl. rewrite Hc.
  rewrite (span_exact isCmdCont run (ws ++ "("%char :: rest)); try done.
  - rewrite (span_exact isSpace ws ("("%char :: rest)); try done.
  - destruct ws as [|x ws]; simpl; [done|].
    simpl in Hws. apply andb_true_iff in Hws as [Hx _].
    by apply isSpace_not_cmdCont.
Qed.






(** *** The last command opening of a text *)

Section LastOpening.
Variables (c : ascii) (run ws rest : str).
Hypothesis Hc : isCmdStart c = true.
Hypothesis Hrun : forallb isCmdCont run = true.
Hypothesis Hws : forallb isSpace ws = true.
Hypothesis Hrest : ~ In "("%char rest.







Lemma trimStart_app_spaces a b :
  forallb isSpace a = true -> trimStart (a ++ b) = trimStart b.
Proof.
  induction a as [|x a IH]; simpl; [done|].
  intros H. apply andb_true_iff in H as [Hx Ha]. rewrite Hx. by apply IH.
Qed.



End LastOpening.

(** *** The text after the last open parenthesis *)





(* ===================================================================== *)
(** ** Further properties of the parser and the validator                *)
(* ===================================================================== *)

Import MoreNotions.

(** *** The two tables of jump commands *)

Lemma str_eqb_neq a b : a <> b -> str_eqb a b = false.
Proof.
  intros H. destruct (str_eqb a b) eqn:E; [|done].
  by apply str_eqb_eq in E.
Qed.

Lemma elem_of_parser_JUMP_COMMANDS n :
  n ∈ Parser.JUMP_COMMANDS
  <-> In n [ lit "_JUMP"; lit "_CALL";
             lit "_IF_FLAGON_JUMP"; lit "_IF_FLAGOFF_JUMP";
             lit "_IF_FLAGON_CALL"; lit "_IF_FLAGOFF_CALL";
             lit "_IFVAL_JUMP"; lit "_IFVAL_CALL"; lit "_OBJ_ANIME" ].
Proof.
  unfold Parser.JUMP_COMMANDS. rewrite elem_of_list_to_set.
  apply list_elem_of_In.
Qed.

Lemma jump_tables_same cmdName (args : list ParsedArgument) :
  (isJumpCommand cmdName = true
   <-> is_Some (DiagnosticProvider.JUMP_COMMANDS !! cmdName))
  /\ getLabelArgument cmdName args
     = match DiagnosticProvider.JUMP_COMMANDS !! cmdName with
       | Some k => args !! k
       | None => None
       end.
Proof.
  destruct (decide (cmdName ∈ Parser.JUMP_COMMANDS)) as [Hin|Hnot];
    rewrite elem_of_parser_JUMP_COMMANDS in *.
  - assert (Hj : isJumpCommand cmdName = true)
      by (apply bool_decide_eq_true_2, elem_of_parser_JUMP_COMMANDS, Hin).
    rewrite Hj. simpl in Hin.
    repeat (destruct Hin as [<-|Hin];
            [split; [split; [intros _; vm_compute; eauto
                            | intros _; reflexivity]
                    | vm_compute; reflexivity]|]).
    done.
  - assert (Hj : isJumpCommand cmdName = false).
    { apply bool_decide_eq_false_2. intros H.
      by apply Hnot, elem_of_parser_JUMP_COMMANDS. }
    assert (Hk : DiagnosticProvider.JUMP_COMMANDS !! cmdName = None).
    { destruct (DiagnosticProvider.JUMP_COMMANDS !! cmdName) as [k|] eqn:E;
        [|done].
      exfalso. apply JUMP_COMMANDS_table in E. apply Hnot. simpl in E |- *.
      repeat (destruct E as [E|E]; [inversion E; tauto|]). done. }
    rewrite Hj, Hk. split.
    + split; [done | intros [x Hx]; done].
    + unfold getLabelArgument. simpl in Hnot.
      rewrite !str_eqb_neq; [done|..]; intros ->; apply Hnot; tauto.
Qed.

(** X1: the parser and the validator keep separate tables of the jump/call
    commands, and the two agree: a name is a jump command for the parser
    exactly when the validator's table has an index for it, and the
    argument that the parser takes as the label of a command is the one at
    the validator's index (none when the name is in neither table or the
    argument is absent). *)
Theorem jump_tables_agree cmdName (args : list ParsedArgument) :
  (isJumpCommand cmdName = true
   <-> is_Some (DiagnosticProvider.JUMP_COMMANDS !! cmdName))
  /\ getLabelArgument cmdName args
     = match DiagnosticProvider.JUMP_COMMANDS !! cmdName with
       | Some k => args !! k
       | None => None
       end.
Proof. apply jump_tables_same. Qed.

(** *** The arguments that parseArguments makes *)

Lemma arange_createArgument v l s e :
  arange (createArgument v l s e) = newRange l s l e.
Proof.
  unfold createArgument.
  repeat match goal with |- context [if ?b then _ else _] => destruct b end;
    reflexivity.
Qed.

Lemma value_createArgument v l s e : value (createArgument v l s e) = v.
Proof.
  unfold createArgument.
  repeat match goal with |- context [if ?b then _ else _] => destruct b end;
    reflexivity.
Qed.

Lemma type_createArgument_not_label v l s e :
  type (createArgument v l s e) <> TLabel.
Proof.
  unfold createArgument.
  repeat match goal with |- context [if ?b then _ else _] => destruct b end;
    discriminate.
Qed.

(** Every argument comes from createArgument, applied to a trimmed text
    that is not empty. *)
Lemma argStep_created (P : ParsedArgument -> Prop) line sc i c st :
  (forall cur s e, truthy (trim cur) = true ->
                   P (createArgument (trim cur) line s e)) ->
  Forall P (sargs st) -> Forall P (sargs (argStep line sc i c st)).
Proof.
  intros HP Hst. unfold argStep.
  repeat match goal with |- context [if ?b then _ else _] => destruct b eqn:? end;
    cbn [sargs]; try done.
  apply Forall_app. split; [done|]. repeat constructor. by apply HP.
Qed.

Lemma argLoop_created (P : ParsedArgument -> Prop) line sc s i st :
  (forall cur s e, truthy (trim cur) = true ->
                   P (createArgument (trim cur) line s e)) ->
  Forall P (sargs st) -> Forall P (sargs (argLoop line sc s i st)).
Proof.
  intros HP. revert i st. induction s as [|c s IH]; intros i st Hst; simpl.
  - done.
  - by apply IH, argStep_created.
Qed.

Lemma parseArguments_created (P : ParsedArgument -> Prop) argsText line sc :
  (forall cur s e, truthy (trim cur) = true ->
                   P (createArgument (trim cur) line s e)) ->
  Forall P (parseArguments argsText line sc).
Proof.
  intros HP. unfold parseArguments.
  destruct (negb (truthy (trim argsText))); [constructor|].
  unfold argFinish.
  pose proof (argLoop_created P line sc argsText 0 (argInit sc) HP) as H.
  destruct (truthy (trim (currentArg _))) eqn:E.
  - apply Forall_app. split; [apply H; constructor|].
    repeat constructor. by apply HP.
  - apply H. constructor.
Qed.

(** *** Trimming twice *)

Lemma trimStart_head s :
  trimStart s = [] \/ exists c r, trimStart s = c :: r /\ isSpace c = false.
Proof.
  induction s as [|c s IH]; simpl; [by left|].
  destruct (isSpace c) eqn:E; [done|]. right. by exists c, s.
Qed.

Lemma trimStart_idem s : trimStart (trimStart s) = trimStart s.
Proof.
  destruct (trimStart_head s) as [->|(c & r & -> & Hc)]; [done|].
  by apply trimStart_nonspace.
Qed.

Lemma trim_idem s : trim (trim s) = trim s.
Proof.
  unfold trim. destruct (trimStart_head s) as [->|(c & r & -> & Hc)]; [done|].
  destruct (trimEnd_cons_nonspace c r Hc) as [r' Hr']. rewrite Hr'.
  rewrite trimStart_nonspace by done. rewrite <- Hr'.
  unfold trimEnd. by rewrite rev_involutive, trimStart_idem.
Qed.

Lemma truthy_nonempty (s : str) : truthy s = true <-> s <> [].
Proof. destruct s; simpl; split; done. Qed.

(** *** The commands that parseDocument makes *)

Lemma parseLine_commands (Q : ParsedCommand -> Prop) i text doc :
  (forall cmd ref, parseCommand i text = Some (cmd, ref) -> Q cmd) ->
  Forall Q (commands doc) -> Forall Q (commands (parseLine i text doc)).
Proof.
  intros HQ Hdoc. unfold parseLine. destruct (isSkipped text); [done|].
  destruct (parseCommand i text) as [[cmd ref]|] eqn:E; simpl; [|done].
  apply Forall_app. split; [done|]. repeat constructor. by eapply HQ.
Qed.

Lemma parseLines_commands (Q : ParsedCommand -> Prop) ls i doc :
  (forall k text cmd ref, parseCommand k text = Some (cmd, ref) -> Q cmd) ->
  Forall Q (commands doc) -> Forall Q (commands (parseLines ls i doc)).
Proof.
  intros HQ. revert i doc. induction ls as [|text rest IH]; intros i doc H; simpl.
  - done.
  - apply IH, parseLine_commands; [|done]. intros cmd ref. apply HQ.
Qed.

Lemma parseDocument_commands (Q : ParsedCommand -> Prop) document :
  (forall k text cmd ref, parseCommand k text = Some (cmd, ref) -> Q cmd) ->
  Forall Q (commands (parseDocument document)).
Proof. intros HQ. apply parseLines_commands; [done | constructor]. Qed.

(** What parseCommand returns: the command of the matched name, with the
    arguments that parseArguments makes of some text and a range on the
    line, and the label reference made of the label argument. *)
Lemma parseCommand_inv i text cmd ref :
  parseCommand i text = Some (cmd, ref) ->
  exists nm col argsText sc e,
    cmd = mkParsedCommand nm i col (parseArguments argsText i sc)
                          (newRange i col i e)
    /\ ref = if isJumpCommand nm
                && (Z.of_nat (length (parseArguments argsText i sc)) >? 0)
             then match getLabelArgument nm (parseArguments argsText i sc) with
                  | Some labelArg =>
                      if isStringType (type labelArg)
                      then Some (mkLabelReference (stripQuotes (value labelArg))
                                                  (arange labelArg) i)
                      else None
                  | None => None
                  end
             else None.
Proof.
  unfold parseCommand. destruct (cmdMatch text) as [[[idx nm] ws]|]; [|done].
  cbv zeta. intros H.
  pose proof (f_equal (fun o => match o with
                                | Some (c, _) => c
                                | None => cmd
                                end) H) as Hc.
  pose proof (f_equal (fun o => match o with
                                | Some (_, r) => r
                                | None => ref
                                end) H) as Hr.
  cbv beta iota in Hc, Hr.
  eexists nm, _, _, _, _. split; symmetry; [exact Hc | exact Hr].
Qed.

(** The arguments of a parsed command are those parseArguments makes of
    some text. *)
Lemma parseCommand_args i text cmd ref :
  parseCommand i text = Some (cmd, ref) ->
  exists argsText sc, line cmd = i /\ args cmd = parseArguments argsText i sc.
Proof.
  intros H. apply parseCommand_inv in H as (nm & col & t & sc & e & -> & _).
  by exists t, sc.
Qed.

(** X2: the argument kind [label] is declared but never produced: no
    argument of any parsed command of any document is classified as a
    label; a label name written in a script is a quoted string. *)
Theorem parsed_arguments_never_label document cmd a :
  In cmd (commands (parseDocument document)) ->
  In a (args cmd) ->
  type a <> TLabel.
Proof.
  intros Hcmd Ha.
  pose proof (parseDocument_commands
                (fun cmd => Forall (fun a => type a <> TLabel) (args cmd))
                document) as H.
  rewrite Forall_forall in H. specialize (H ltac:(
    intros k text cmd' ref Hp;
    destruct (parseCommand_args _ _ _ _ Hp) as (t & sc & _ & ->);
    apply parseArguments_created; intros; apply type_createArgument_not_label)).
  apply list_elem_of_In in Hcmd. specialize (H cmd Hcmd).
  rewrite Forall_forall in H. apply H. by apply list_elem_of_In.
Qed.

(** X3: the value of every argument of every parsed command is a text that
    is not empty and has no white space at either end: trimming it changes
    nothing. *)
Theorem parsed_arguments_trimmed document cmd a :
  In cmd (commands (parseDocument document)) ->
  In a (args cmd) ->
  value a <> [] /\ trim (value a) = value a.
Proof.
  intros Hcmd Ha.
  pose proof (parseDocument_commands
                (fun cmd => Forall (fun a => value a <> []
                                             /\ trim (value a) = value a)
                                   (args cmd))
                document) as H.
  rewrite Forall_forall in H. specialize (H ltac:(
    intros k text cmd' ref Hp;
    destruct (parseCommand_args _ _ _ _ Hp) as (t & sc & _ & ->);
    apply parseArguments_created; intros cur s e Hcur;
    rewrite value_createArgument; split;
    [by apply truthy_nonempty | apply trim_idem])).
  apply list_elem_of_In in Hcmd. specialize (H cmd Hcmd).
  rewrite Forall_forall in H. apply H. by apply list_elem_of_In.
Qed.

Lemma parsed_arguments_never_label_witness :
  type (mkParsedArgument (quoted (lit "a, b")) TString (mkRange 0 9 0 15))
  <> TLabel.
Proof.
  apply (parsed_arguments_never_label (script [ talkmsg_line ])
           (mkParsedCommand (lit "_TALKMSG") 0 0
              [ mkParsedArgument (quoted (lit "a, b")) TString (mkRange 0 9 0 15) ]
              (mkRange 0 0 0 16))).
  - left. reflexivity.
  - left. reflexivity.
Defined.

Lemma parsed_arguments_trimmed_witness :
  value (ifval_arg "XX" TUnknown) <> []
  /\ trim (value (ifval_arg "XX" TUnknown)) = value (ifval_arg "XX" TUnknown).
Proof.
  apply (parsed_arguments_trimmed (script [ ifval_line "XX" ])
           (ifval_command "XX" TUnknown)).
  - left. reflexivity.
  - right. left. reflexivity.
Defined.

(** *** The ranges that parseArguments records *)

Lemma rangesInOrder_nil : rangesInOrder [].
Proof. intros i j a b _ H. by rewrite lookup_nil in H. Qed.

Lemma rangesInOrder_snoc l x :
  rangesInOrder l ->
  Forall (fun a => endCharacter (arange a) < startCharacter (arange x)) l ->
  rangesInOrder (l ++ [x]).
Proof.
  intros Hl Hx i j a b Hij Ha Hb.
  assert (Hj : (j < length (l ++ [x]))%nat) by (by eapply lookup_lt_Some).
  rewrite length_app in Hj. simpl in Hj.
  assert (Hi : (i < length l)%nat) by (clear -Hij Hj; lia).
  rewrite (lookup_app_l l [x] i Hi) in Ha.
  destruct (decide (j < length l)%nat) as [Hlt|Hge].
  - rewrite (lookup_app_l l [x] j Hlt) in Hb. exact (Hl i j a b Hij Ha Hb).
  - assert (j = length l) as -> by (clear -Hge Hj; lia).
    rewrite list_lookup_middle in Hb by done.
    inversion Hb; subst.
    rewrite Forall_forall in Hx. apply Hx.
    by eapply list_elem_of_lookup_2.
Qed.

Lemma rangeWithin_weaken line lo hi hi' r :
  rangeWithin line lo hi r -> hi <= hi' -> rangeWithin line lo hi' r.
Proof. unfold rangeWithin. intros (?&?&?&?&?) ?. repeat split; try done. lia. Qed.

Lemma Forall_rangeWithin_weaken line lo hi hi' (l : list ParsedArgument) :
  Forall (fun a => rangeWithin line lo hi (arange a)) l -> hi <= hi' ->
  Forall (fun a => rangeWithin line lo hi' (arange a)) l.
Proof.
  intros H Hle. induction H as [|a l Ha Hl IH]; constructor; [|done].
  by apply (rangeWithin_weaken line lo hi hi').
Qed.

(** What pushing the current argument keeps of the invariant. *)
Lemma argLoopInv_push line sc i st v e :
  argLoopInv line sc i st -> argStartCol st < e ->
  Forall (fun a => rangeWithin line sc e (arange a))
         (sargs st ++ [createArgument v line (argStartCol st) e])
  /\ rangesInOrder (sargs st ++ [createArgument v line (argStartCol st) e]).
Proof.
  intros (H1 & H2 & H3 & H4 & H5) He.
  assert (Hr : arange (createArgument v line (argStartCol st) e)
               = mkRange line (argStartCol st) line e).
  { rewrite arange_createArgument. apply newRange_le. lia. }
  split.
  - apply Forall_app. split.
    + eapply Forall_rangeWithin_weaken; [exact H4 | lia].
    + repeat constructor; rewrite Hr; simpl; lia.
  - apply rangesInOrder_snoc; [done|].
    rewrite Hr. simpl. clear -H4.
    induction H4 as [|a l (_ & _ & _ & _ & Ha) Hl IH]; constructor; [lia|done].
Qed.

Lemma argLoopInv_step line sc i c st :
  0 <= i -> argLoopInv line sc i st ->
  argLoopInv line sc (i + 1) (argStep line sc i c st).
Proof.
  intros Hi Hinv. pose proof Hinv as (H1 & H2 & H3 & H4 & H5).
  unfold argStep.
  destruct (negb (inString st) && (chr_eqb c dquote || chr_eqb c squote)).
  { unfold argLoopInv. cbn [sargs currentArg argStartCol].
    repeat split; try done; lia. }
  destruct (inString st && str_eqb [c] (stringChar st)).
  { unfold argLoopInv. cbn [sargs currentArg argStartCol].
    repeat split; try done; lia. }
  destruct (negb (inString st) && chr_eqb c ",").
  { unfold argLoopInv. cbn [sargs currentArg argStartCol].
    destruct (truthy (trim (currentArg st))) eqn:E.
    - assert (Hcur : currentArg st <> [])
        by (intros Hnil; by rewrite Hnil in E).
      destruct (argLoopInv_push line sc i st (trim (currentArg st)) (sc + i)
                  Hinv (H3 Hcur)) as [Ha Hb].
      repeat split; try done; try lia.
      replace (sc + i + 1 - 1) with (sc + i) by lia. done.
    - repeat split; try done; try lia.
      eapply Forall_rangeWithin_weaken; [exact H4 | lia]. }
  unfold argLoopInv. cbn [sargs currentArg argStartCol].
  destruct (negb (truthy (currentArg st)) && negb (chr_eqb c " ")
            && negb (chr_eqb c "009")).
  - repeat split; try done; try lia.
    eapply Forall_rangeWithin_weaken; [exact H4 | lia].
  - repeat split; try done; lia.
Qed.

Lemma argLoopInv_loop line sc s i st :
  0 <= i -> argLoopInv line sc i st ->
  argLoopInv line sc (i + len s) (argLoop line sc s i st).
Proof.
  revert i st. induction s as [|c s IH]; intros i st Hi Hinv; simpl.
  - unfold len. simpl. by rewrite Z.add_0_r.
  - replace (i + len (c :: s)) with (i + 1 + len s)
      by (unfold len; simpl length; lia).
    apply IH; [lia|]. by apply argLoopInv_step.
Qed.

Lemma argLoop_col line sc s i st :
  s <> [] -> col (argLoop line sc s i st) = sc + i + len s - 1.
Proof.
  revert i st. induction s as [|c s IH]; intros i st Hne; [done|].
  simpl. destruct s as [|d s].
  - simpl. unfold len. simpl. unfold argStep.
    repeat match goal with |- context [if ?b then _ else _] => destruct b end;
      simpl; lia.
  - rewrite IH by done. unfold len. simpl length. lia.
Qed.

Lemma argLoopInv_init line sc : argLoopInv line sc 0 (argInit sc).
Proof.
  unfold argLoopInv, argInit. simpl.
  repeat split; try lia; try done; try apply rangesInOrder_nil.
Qed.

(** X4: the ranges of the arguments that parseArguments returns lie on the
    given line, inside the argument text (from its start column to its
    end), are not empty, and follow each other in source order without
    overlapping: each argument ends before the next one starts. *)
Theorem argument_ranges_ordered argsText line startCol :
  Forall (fun a => rangeWithin line startCol (startCol + len argsText)
                               (arange a))
         (parseArguments argsText line startCol)
  /\ rangesInOrder (parseArguments argsText line startCol).
Proof.
  unfold parseArguments.
  destruct (negb (truthy (trim argsText))).
  { split; [constructor | apply rangesInOrder_nil]. }
  pose proof (argLoopInv_loop line startCol argsText 0 (argInit startCol)
                ltac:(lia) (argLoopInv_init line startCol)) as Hinv.
  rewrite Z.add_0_l in Hinv.
  set (st := argLoop line startCol argsText 0 (argInit startCol)) in *.
  unfold argFinish.
  destruct (truthy (trim (currentArg st))) eqn:E.
  - assert (Hcur : currentArg st <> [])
      by (intros Hnil; by rewrite Hnil in E).
    assert (Hne : argsText <> []).
    { intros ->. subst st. simpl in Hcur. done. }
    assert (Hcol : col st + 1 = startCol + len argsText).
    { subst st. rewrite argLoop_col by done. lia. }
    rewrite Hcol. pose proof Hinv as (_ & _ & H3 & _ & _).
    exact (argLoopInv_push line startCol (len argsText) st _ _ Hinv (H3 Hcur)).
  - destruct Hinv as (H1 & H2 & H3 & H4 & H5). split; [|done].
    eapply Forall_rangeWithin_weaken; [exact H4 | lia].
Qed.

(** *** findMatchingParen *)

Lemma findMatchingParenLoop_sound s i depth :
  findMatchingParenLoop s i depth = -1
  \/ (i <= findMatchingParenLoop s i depth < i + len s
      /\ s !! Z.to_nat (findMatchingParenLoop s i depth - i) = Some ")"%char).
Proof.
  revert i depth. induction s as [|c s IH]; intros i depth; simpl; [by left|].
  assert (Hshift : forall d,
    findMatchingParenLoop s (i + 1) d = -1
    \/ (i <= findMatchingParenLoop s (i + 1) d < i + len (c :: s)
        /\ (c :: s) !! Z.to_nat (findMatchingParenLoop s (i + 1) d - i)
           = Some ")"%char)).
  { intros d. destruct (IH (i + 1) d) as [H|[H1 H2]]; [by left|right].
    split; [unfold len in *; simpl length; lia|].
    replace (Z.to_nat (findMatchingParenLoop s (i + 1) d - i))
      with (S (Z.to_nat (findMatchingParenLoop s (i + 1) d - (i + 1))))
      by lia.
    done. }
  destruct (chr_eqb c "(") eqn:Eo; [apply Hshift|].
  destruct (chr_eqb c ")") eqn:Ec; [|apply Hshift].
  destruct (depth - 1 =? 0); [|apply Hshift].
  right. split; [unfold len; simpl length; lia|].
  rewrite Z.sub_diag. simpl. f_equal. by apply chr_eqb_eq.
Qed.

Lemma lookup_drop_Z (s : str) (a b : Z) :
  0 <= a -> a <= b ->
  drop (Z.to_nat a) s !! Z.to_nat (b - a) = s !! Z.to_nat b.
Proof.
  intros Ha Hb. rewrite lookup_drop. f_equal. lia.
Qed.

(** X5: findMatchingParen returns -1 or the index of a close parenthesis
    of the text that lies after the open index and inside the text. *)
Theorem findMatchingParen_sound text openIndex :
  -1 <= openIndex ->
  findMatchingParen text openIndex = -1
  \/ (openIndex < findMatchingParen text openIndex < len text
      /\ text !! Z.to_nat (findMatchingParen text openIndex) = Some ")"%char).
Proof.
  intros Hopen. unfold findMatchingParen.
  destruct (findMatchingParenLoop_sound
              (drop (Z.to_nat (openIndex + 1)) text) (openIndex + 1) 1)
    as [H|[H1 H2]]; [by left|right].
  rewrite lookup_drop_Z in H2 by lia. split; [|done].
  assert (Hlen : len (drop (Z.to_nat (openIndex + 1)) text)
                 <= len text - (openIndex + 1) \/ len text < openIndex + 1).
  { unfold len. rewrite length_drop. lia. }
  assert (Hlen0 : len (drop (Z.to_nat (openIndex + 1)) text) = 0
                  \/ openIndex + 1 <= len text).
  { unfold len. rewrite length_drop. lia. }
  lia.
Qed.

Lemma findMatchingParen_sound_witness :
  findMatchingParen (lit "_A(f(1), 2) ; (x)") 2 = -1
  \/ (2 < findMatchingParen (lit "_A(f(1), 2) ; (x)") 2
        < len (lit "_A(f(1), 2) ; (x)")
      /\ lit "_A(f(1), 2) ; (x)"
           !! Z.to_nat (findMatchingParen (lit "_A(f(1), 2) ; (x)") 2)
         = Some ")"%char).
Proof. apply (findMatchingParen_sound (lit "_A(f(1), 2) ; (x)") 2). lia. Defined.

(** Over a balanced text the depth is at the end what it was at the start,
    and no close parenthesis is taken for the matching one. *)
Lemma findMatchingParenLoop_balanced body k rest i depth :
  balancedFrom body k = true -> 1 <= depth ->
  findMatchingParenLoop (body ++ rest) i (depth + Z.of_nat k)
  = findMatchingParenLoop rest (i + len body) depth.
Proof.
  revert k i. induction body as [|c body IH]; intros k i Hb Hd; simpl in *.
  - apply Nat.eqb_eq in Hb. subst k. unfold len. simpl.
    by rewrite !Z.add_0_r.
  - replace (i + len (c :: body)) with (i + 1 + len body)
      by (unfold len; simpl length; lia).
    destruct (chr_eqb c "(").
    { rewrite <- (IH (S k) (i + 1)) by done. f_equal. lia. }
    destruct (chr_eqb c ")"); [|by apply IH].
    destruct k as [|k]; [done|].
    destruct (depth + Z.of_nat (S k) - 1 =? 0) eqn:E;
      [apply Z.eqb_eq in E; lia|].
    rewrite <- (IH k (i + 1)) by done. f_equal. lia.
Qed.

Lemma findMatchingParen_close pre body post :
  balanced body ->
  findMatchingParen (pre ++ "("%char :: body ++ ")"%char :: post) (len pre)
  = len pre + 1 + len body.
Proof.
  intros Hb. unfold findMatchingParen.
  replace (drop (Z.to_nat (len pre + 1))
                (pre ++ "("%char :: body ++ ")"%char :: post))
    with (body ++ ")"%char :: post).
  - rewrite <- (Z.add_0_r 1) at 2. change 0 with (Z.of_nat 0).
    rewrite (findMatchingParenLoop_balanced body 0) by (done || lia).
    simpl. reflexivity.
  - replace (Z.to_nat (len pre + 1)) with (length (pre ++ ["("%char]))
      by (rewrite length_app; unfold len; simpl; lia).
    rewrite (app_assoc pre ["("%char] (body ++ ")"%char :: post)
             : pre ++ "("%char :: body ++ ")"%char :: post = _).
    by rewrite drop_app_length.
Qed.

(** X6: when the text between an open parenthesis and a close parenthesis
    has balanced parentheses (nested calls or none), findMatchingParen
    returns the index of that close parenthesis, whatever follows it. *)
Theorem findMatchingParen_balanced pre body post :
  balanced body ->
  findMatchingParen (pre ++ "("%char :: body ++ ")"%char :: post) (len pre)
  = len pre + 1 + len body.
Proof. apply findMatchingParen_close. Qed.

Lemma findMatchingParen_balanced_witness :
  findMatchingParen (lit "_A(f(1), (2)) ; (x)") 2 = 12.
Proof.
  apply (findMatchingParen_balanced (lit "_A") (lit "f(1), (2)") (lit " ; (x)")).
  reflexivity.
Defined.

Lemma findMatchingParenLoop_unclosed s i depth :
  ~ In ")"%char s -> findMatchingParenLoop s i depth = -1.
Proof.
  revert i depth. induction s as [|c s IH]; intros i depth Hnot; simpl; [done|].
  assert (Hc : chr_eqb c ")" = false)
    by (apply chr_eqb_neq; intros ->; apply Hnot; by left).
  assert (Hs : ~ In ")"%char s) by (intros H; apply Hnot; by right).
  rewrite Hc. destruct (chr_eqb c "("); by apply IH.
Qed.

(** *** A command line as scripts write it *)

Lemma isSpace_not_cmdStart c : isSpace c = true -> isCmdStart c = false.
Proof. ascii_cases c. Qed.

Lemma cmdMatchFrom_cons x s i :
  cmdMatchFrom (x :: s) i
  = match cmdMatchAt (x :: s) with
    | Some (nm, ws) => Some (i, nm, ws)
    | None => cmdMatchFrom s (i + 1)
    end.
Proof. reflexivity. Qed.

Lemma cmdMatchFrom_spaces ind s i :
  forallb isSpace ind = true ->
  cmdMatchFrom (ind ++ s) i = cmdMatchFrom s (i + len ind).
Proof.
  revert i. induction ind as [|x ind IH]; intros i Hind.
  - unfold len. simpl. by rewrite Z.add_0_r.
  - simpl in Hind. apply andb_true_iff in Hind as [Hx Hind].
    rewrite <- app_comm_cons, cmdMatchFrom_cons.
    assert (Hm : cmdMatchAt (x :: ind ++ s) = None)
      by (unfold cmdMatchAt; by rewrite (isSpace_not_cmdStart x Hx)).
    rewrite Hm, IH by done. f_equal. unfold len. simpl length. lia.
Qed.

Lemma cmdMatchFrom_here c run ws rest i :
  isCmdStart c = true -> forallb isCmdCont run = true ->
  forallb isSpace ws = true ->
  cmdMatchFrom ((c :: run) ++ ws ++ "("%char :: rest) i = Some (i, c :: run, ws).
Proof.
  intros Hc Hrun Hws. rewrite <- app_comm_cons, cmdMatchFrom_cons, app_comm_cons.
  by rewrite cmdMatchAt_intro.
Qed.

Lemma indexOfAt_cons x s p i :
  indexOfAt (x :: s) p i
  = if startsWith (x :: s) p then i else indexOfAt s p (i + 1).
Proof. reflexivity. Qed.

Lemma indexOfAt_spaces ind s c p i :
  forallb isSpace ind = true -> isSpace c = false ->
  indexOfAt (ind ++ s) (c :: p) i = indexOfAt s (c :: p) (i + len ind).
Proof.
  revert i. induction ind as [|x ind IH]; intros i Hind Hc.
  - unfold len. simpl app. simpl length. by rewrite Z.add_0_r.
  - simpl in Hind. apply andb_true_iff in Hind as [Hx Hind].
    rewrite <- app_comm_cons, indexOfAt_cons.
    assert (Hcx : chr_eqb c x = false)
      by (apply chr_eqb_neq; intros ->; congruence).
    simpl startsWith. rewrite Hcx. simpl.
    rewrite IH by done. f_equal. unfold len. simpl length. lia.
Qed.

Lemma indexOfAt_char_first a c b i :
  ~ In c a -> indexOfAt (a ++ c :: b) [c] i = i + len a.
Proof.
  revert i. induction a as [|x a IH]; intros i Hnot.
  - simpl app. rewrite indexOfAt_cons. simpl startsWith.
    rewrite chr_eqb_refl. simpl. unfold len. simpl. lia.
  - assert (Hx : chr_eqb c x = false)
      by (apply chr_eqb_neq; intros ->; apply Hnot; by left).
    rewrite <- app_comm_cons, indexOfAt_cons. simpl startsWith.
    rewrite Hx. simpl. rewrite IH by (intros H; apply Hnot; by right).
    unfold len. simpl length. lia.
Qed.

Lemma clamp_len_app a b : clamp (a ++ b) (len a) = len a.
Proof.
  unfold clamp. rewrite len_app. pose proof (len_nonneg a).
  pose proof (len_nonneg b). lia.
Qed.

Lemma drop_len_app (a b : str) : drop (Z.to_nat (len a)) (a ++ b) = b.
Proof. unfold len. by rewrite Nat2Z.id, drop_app_length. Qed.

Lemma substring_middle a b c :
  substring (a ++ b ++ c) (len a) (len a + len b) = b.
Proof.
  unfold substring, clamp. rewrite !len_app.
  pose proof (len_nonneg a). pose proof (len_nonneg b).
  pose proof (len_nonneg c).
  replace (Z.max 0 (Z.min (len a) (len a + (len b + len c)))) with (len a)
    by lia.
  replace (Z.max 0 (Z.min (len a + len b) (len a + (len b + len c))))
    with (len a + len b) by lia.
  replace (Z.min (len a) (len a + len b)) with (len a) by lia.
  replace (Z.max (len a) (len a + len b) - len a) with (len b) by lia.
  rewrite drop_len_app. unfold len. by rewrite Nat2Z.id, take_app_length.
Qed.

(** The first steps of parseCommand on an indented call: the match, the
    column of the name and the index of the open parenthesis. *)
Lemma command_line_start ind c run ws rest :
  forallb isSpace ind = true -> isCmdStart c = true ->
  forallb isCmdCont run = true -> forallb isSpace ws = true ->
  let text := ind ++ (c :: run) ++ ws ++ "("%char :: rest in
  cmdMatch text = Some (len ind, c :: run, ws)
  /\ indexOf text (c :: run) 0 = len ind
  /\ indexOf text (lit "(") (len ind) = len ind + len (c :: run) + len ws.
Proof.
  intros Hind Hc Hrun Hws text. subst text. repeat split.
  - unfold cmdMatch. rewrite cmdMatchFrom_spaces by done.
    by rewrite cmdMatchFrom_here.
  - unfold indexOf. rewrite clamp_0. change (Z.to_nat 0) with 0%nat.
    rewrite drop_0, indexOfAt_spaces;
      [| done | by apply isCmdCont_not_space, isCmdStart_isCmdCont].
    rewrite indexOfAt_startsWith by apply startsWith_app. lia.
  - unfold indexOf. rewrite clamp_len_app, drop_len_app.
    rewrite (app_assoc (c :: run) ws).
    change (lit "(") with ["("%char].
    rewrite indexOfAt_char_first, len_app.
    + lia.
    + apply name_ws_no_paren; [|done].
      simpl. by rewrite (isCmdStart_isCmdCont c Hc), Hrun.
Qed.

Lemma command_line_terminated i ind c run ws body post :
  forallb isSpace ind = true -> isCmdStart c = true ->
  forallb isCmdCont run = true -> forallb isSpace ws = true ->
  balanced body ->
  fst <$> parseCommand i
            (ind ++ (c :: run) ++ ws ++ "("%char :: body ++ ")"%char :: post)
  = Some (mkParsedCommand (c :: run) i (len ind)
            (parseArguments body i (len ind + len (c :: run) + len ws + 1))
            (mkRange i (len ind) i
               (len ind + len (c :: run) + len ws + 1 + len body + 1))).
Proof.
  intros Hind Hc Hrun Hws Hbal.
  destruct (command_line_start ind c run ws (body ++ ")"%char :: post)
              Hind Hc Hrun Hws) as (Hm & Hname & Hopen).
  unfold parseCommand. rewrite Hm. cbv zeta. rewrite Hname, Hopen.
  set (open := len ind + len (c :: run) + len ws).
  assert (Htext : ind ++ (c :: run) ++ ws ++ "("%char :: body ++ ")"%char :: post
                  = (ind ++ (c :: run) ++ ws) ++ "("%char :: body ++ ")"%char :: post)
    by (by rewrite <- !app_assoc).
  assert (Hlen : len (ind ++ (c :: run) ++ ws) = open)
    by (rewrite !len_app; subst open; lia).
  assert (Hclose : findMatchingParen
                     (ind ++ (c :: run) ++ ws ++ "("%char :: body ++ ")"%char :: post)
                     open = open + 1 + len body).
  { rewrite Htext, <- Hlen. by apply findMatchingParen_close. }
  rewrite Hclose.
  pose proof (len_nonneg ind). pose proof (len_nonneg (c :: run)).
  pose proof (len_nonneg ws). pose proof (len_nonneg body).
  assert (Hgt1 : (open + 1 + len body >? open) = true) by (apply Z.gtb_lt; lia).
  assert (Hgt2 : (open + 1 + len body >? 0) = true)
    by (apply Z.gtb_lt; subst open; lia).
  rewrite Hgt1, Hgt2.
  assert (Hsub : substring
                   (ind ++ (c :: run) ++ ws ++ "("%char :: body ++ ")"%char :: post)
                   (open + 1) (open + 1 + len body) = body).
  { replace (ind ++ (c :: run) ++ ws ++ "("%char :: body ++ ")"%char :: post)
      with ((ind ++ (c :: run) ++ ws ++ ["("%char]) ++ body ++ ")"%char :: post)
      by (by rewrite <- !app_assoc).
    replace (open + 1) with (len (ind ++ (c :: run) ++ ws ++ ["("%char]))
      by (rewrite !len_app; subst open; unfold len at 4; simpl; lia).
    apply substring_middle. }
  rewrite Hsub. rewrite newRange_le by (subst open; lia). done.
Qed.

(** X7: a script line made of indentation, a command name, optional white
    space and a parenthesised argument text with balanced parentheses,
    whatever follows the close parenthesis, is parsed as that command: its
    column is that of the name, its arguments are those of the text between
    the parentheses, read from the column after the open parenthesis, and
    its range runs from the name to the close parenthesis inclusive. *)
Theorem indented_call_parsed i ind c run ws body post :
  forallb isSpace ind = true -> isCmdStart c = true ->
  forallb isCmdCont run = true -> forallb isSpace ws = true ->
  balanced body ->
  fst <$> parseCommand i
            (ind ++ (c :: run) ++ ws ++ "("%char :: body ++ ")"%char :: post)
  = Some (mkParsedCommand (c :: run) i (len ind)
            (parseArguments body i (len ind + len (c :: run) + len ws + 1))
            (mkRange i (len ind) i
               (len ind + len (c :: run) + len ws + 1 + len body + 1))).
Proof. apply command_line_terminated. Qed.

Lemma indented_call_parsed_witness :
  fst <$> parseCommand 3 (lit "    _TIME_WAIT(30, @LOCALWORK0) ; wait")
  = Some (mkParsedCommand (lit "_TIME_WAIT") 3 4
            (parseArguments (lit "30, @LOCALWORK0") 3 15)
            (mkRange 3 4 3 31)).
Proof.
  apply (indented_call_parsed 3 (lit "    ") "_"%char (lit "TIME_WAIT") []
           (lit "30, @LOCALWORK0") (lit " ; wait")); reflexivity.
Defined.

(** X8: an unterminated call (no close parenthesis after the open one) is
    still parsed: the rest of the line is the argument text and the range
    of the command runs to the end of the line. *)
Theorem unterminated_call_parsed i ind c run ws body :
  forallb isSpace ind = true -> isCmdStart c = true ->
  forallb isCmdCont run = true -> forallb isSpace ws = true ->
  ~ In ")"%char body ->
  fst <$> parseCommand i (ind ++ (c :: run) ++ ws ++ "("%char :: body)
  = Some (mkParsedCommand (c :: run) i (len ind)
            (parseArguments body i (len ind + len (c :: run) + len ws + 1))
            (mkRange i (len ind) i
               (len (ind ++ (c :: run) ++ ws ++ "("%char :: body)))).
Proof.
  intros Hind Hc Hrun Hws Hbody.
  destruct (command_line_start ind c run ws body Hind Hc Hrun Hws)
    as (Hm & Hname & Hopen).
  unfold parseCommand. rewrite Hm. cbv zeta. rewrite Hname, Hopen.
  set (open := len ind + len (c :: run) + len ws).
  pose proof (len_nonneg ind). pose proof (len_nonneg (c :: run)).
  pose proof (len_nonneg ws). pose proof (len_nonneg body).
  assert (Hdrop : drop (Z.to_nat (open + 1))
                    (ind ++ (c :: run) ++ ws ++ "("%char :: body) = body).
  { replace (ind ++ (c :: run) ++ ws ++ "("%char :: body)
      with ((ind ++ (c :: run) ++ ws ++ ["("%char]) ++ body)
      by (by rewrite <- !app_assoc).
    replace (open + 1) with (len (ind ++ (c :: run) ++ ws ++ ["("%char]))
      by (rewrite !len_app; subst open; unfold len at 4; simpl; lia).
    apply drop_len_app. }
  assert (Hclose : findMatchingParen
                     (ind ++ (c :: run) ++ ws ++ "("%char :: body) open = -1).
  { unfold findMatchingParen. rewrite Hdrop.
    by apply findMatchingParenLoop_unclosed. }
  rewrite Hclose.
  assert (Hgt1 : (-1 >? open) = false)
    by (rewrite Z.gtb_ltb; apply Z.ltb_ge; subst open; lia).
  rewrite Hgt1. change (-1 >? 0) with false. cbv iota.
  assert (Hsub : substringFrom (ind ++ (c :: run) ++ ws ++ "("%char :: body)
                               (open + 1) = body).
  { replace (ind ++ (c :: run) ++ ws ++ "("%char :: body)
      with ((ind ++ (c :: run) ++ ws ++ ["("%char]) ++ body)
      by (by rewrite <- !app_assoc).
    replace (open + 1) with (len (ind ++ (c :: run) ++ ws ++ ["("%char]))
      by (rewrite !len_app; subst open; unfold len at 4; simpl; lia).
    apply substringFrom_suffix. }
  rewrite Hsub. rewrite newRange_le; [done|].
  rewrite !len_app. pose proof (len_nonneg ("("%char :: body)). lia.
Qed.

Lemma unterminated_call_parsed_witness :
  fst <$> parseCommand 0 (lit "  _TALKMSG(1, 2")
  = Some (mkParsedCommand (lit "_TALKMSG") 0 2
            (parseArguments (lit "1, 2") 0 11)
            (mkRange 0 2 0 15)).
Proof.
  apply (unterminated_call_parsed 0 (lit "  ") "_"%char (lit "TALKMSG") []
           (lit "1, 2")); try reflexivity.
  vm_compute. intuition discriminate.
Defined.

(** *** The commands and label references of a document *)

Lemma parseLines_snoc l t i doc :
  parseLines (l ++ [t]) i doc
  = parseLine (i + Z.of_nat (length l)) t (parseLines l i doc).
Proof. by rewrite parseLines_app. Qed.

Lemma newRange_lines l c1 c2 :
  startLine (newRange l c1 l c2) = l /\ endLine (newRange l c1 l c2) = l.
Proof. unfold newRange. by destruct (_ || _). Qed.

Lemma parseCommand_line i text cmd ref :
  parseCommand i text = Some (cmd, ref) ->
  line cmd = i /\ startLine (crange cmd) = i /\ endLine (crange cmd) = i.
Proof.
  intros H. apply parseCommand_inv in H as (nm & col & t & sc & e & -> & _).
  simpl. split; [done|]. apply newRange_lines.
Qed.

Lemma commandsInOrder_snoc l x :
  commandsInOrder l -> Forall (fun a => line a < line x) l ->
  commandsInOrder (l ++ [x]).
Proof.
  intros Hl Hx i j a b Hij Ha Hb.
  assert (Hj : (j < length (l ++ [x]))%nat) by (by eapply lookup_lt_Some).
  rewrite length_app in Hj. simpl in Hj.
  assert (Hi : (i < length l)%nat) by (clear -Hij Hj; lia).
  rewrite (lookup_app_l l [x] i Hi) in Ha.
  destruct (decide (j < length l)%nat) as [Hlt|Hge].
  - rewrite (lookup_app_l l [x] j Hlt) in Hb. exact (Hl i j a b Hij Ha Hb).
  - assert (j = length l) as -> by (clear -Hge Hj; lia).
    rewrite list_lookup_middle in Hb by done.
    inversion Hb; subst.
    rewrite Forall_forall in Hx. apply Hx.
    by eapply list_elem_of_lookup_2.
Qed.

Lemma commandOnLine_weaken lo hi hi' c :
  commandOnLine lo hi c -> hi <= hi' -> commandOnLine lo hi' c.
Proof. unfold commandOnLine. intros (?&?&?) ?. repeat split; try done; lia. Qed.

Lemma parseLine_in_order lo i text doc :
  lo <= i ->
  Forall (commandOnLine lo i) (commands doc) /\ commandsInOrder (commands doc) ->
  Forall (commandOnLine lo (i + 1)) (commands (parseLine i text doc))
  /\ commandsInOrder (commands (parseLine i text doc)).
Proof.
  intros Hlo [Hall Hord].
  assert (Hall' : Forall (commandOnLine lo (i + 1)) (commands doc)).
  { clear -Hall. induction Hall; constructor; [|done].
    eapply commandOnLine_weaken; [done | lia]. }
  unfold parseLine. destruct (isSkipped text); [done|].
  destruct (parseCommand i text) as [[cmd ref]|] eqn:E; simpl; [|done].
  destruct (parseCommand_line _ _ _ _ E) as (H1 & H2 & H3).
  split.
  - apply Forall_app. split; [done|]. repeat constructor; try lia; congruence.
  - apply commandsInOrder_snoc; [done|].
    clear -Hall H1. induction Hall as [|a l (Ha & _) Hl IH]; constructor;
      [lia | done].
Qed.

Lemma parseLines_in_order lo ls i doc :
  lo <= i ->
  Forall (commandOnLine lo i) (commands doc) /\ commandsInOrder (commands doc) ->
  Forall (commandOnLine lo (i + Z.of_nat (length ls)))
         (commands (parseLines ls i doc))
  /\ commandsInOrder (commands (parseLines ls i doc)).
Proof.
  revert i doc. induction ls as [|t ls IH]; intros i doc Hlo H.
  - simpl. by rewrite Z.add_0_r.
  - simpl parseLines.
    replace (i + Z.of_nat (length (t :: ls)))
      with (i + 1 + Z.of_nat (length ls)) by (simpl length; lia).
    apply IH; [lia|]. by apply parseLine_in_order.
Qed.

(** X9: the commands of a parsed document are in line order: each is on a
    line of the document, with its range on that line, and the line numbers
    increase strictly along the command list, so that no line has two
    commands. *)
Theorem commands_in_line_order document :
  Forall (commandOnLine 0 (Z.of_nat (length (lines document))))
         (commands (parseDocument document))
  /\ commandsInOrder (commands (parseDocument document)).
Proof.
  unfold parseDocument.
  apply (parseLines_in_order 0 (lines document) 0 emptyDocument); [lia|].
  split; [constructor|]. intros i j a b _ H. simpl in H.
  by rewrite lookup_nil in H.
Qed.

(** *** The label references of a document *)

Lemma isStringType_iff t : isStringType t = true <-> t = TString.
Proof. destruct t; simpl; split; done. Qed.

(** What parseCommand records as the label reference of its command. *)
Lemma parseCommand_reference i text cmd ref :
  parseCommand i text = Some (cmd, ref) ->
  (forall r, ref = Some r ->
     exists arg, labelArgumentOf DiagnosticProvider.JUMP_COMMANDS cmd arg
                 /\ r = referenceOf cmd arg)
  /\ (forall arg, labelArgumentOf DiagnosticProvider.JUMP_COMMANDS cmd arg ->
        ref = Some (referenceOf cmd arg)).
Proof.
  intros H. apply parseCommand_inv in H as (nm & col & t & sc & e & -> & ->).
  set (argl := parseArguments t i sc).
  destruct (jump_tables_same nm argl) as [Hjump Hlabel].
  unfold labelArgumentOf, referenceOf. cbn [name args line].
  split.
  - intros r Hr.
    destruct (isJumpCommand nm && (Z.of_nat (length argl) >? 0)); [|done].
    rewrite Hlabel in Hr.
    destruct (DiagnosticProvider.JUMP_COMMANDS !! nm) as [k|] eqn:Ek; [|done].
    destruct (argl !! k) as [arg|] eqn:Ea; [|done].
    destruct (isStringType (type arg)) eqn:Et; [|done].
    apply isStringType_iff in Et. inversion Hr; subst.
    exists arg. split; [|done]. by exists k.
  - intros arg (k & Hk & Ha & Ht).
    assert (Hj : isJumpCommand nm = true) by (apply Hjump; eauto).
    assert (Hn : (Z.of_nat (length argl) >? 0) = true).
    { apply Z.gtb_lt. apply lookup_lt_Some in Ha. lia. }
    rewrite Hj, Hn, Hlabel, Hk, Ha, Ht. reflexivity.
Qed.

Lemma parseLine_references i text doc :
  (Forall (fun r => exists cmd arg,
              In cmd (commands doc)
              /\ labelArgumentOf DiagnosticProvider.JUMP_COMMANDS cmd arg
              /\ r = referenceOf cmd arg) (labelReferences doc)
   /\ Forall (fun cmd => forall arg,
                labelArgumentOf DiagnosticProvider.JUMP_COMMANDS cmd arg ->
                In (referenceOf cmd arg) (labelReferences doc))
             (commands doc)) ->
  let doc' := parseLine i text doc in
  Forall (fun r => exists cmd arg,
            In cmd (commands doc')
            /\ labelArgumentOf DiagnosticProvider.JUMP_COMMANDS cmd arg
            /\ r = referenceOf cmd arg) (labelReferences doc')
  /\ Forall (fun cmd => forall arg,
               labelArgumentOf DiagnosticProvider.JUMP_COMMANDS cmd arg ->
               In (referenceOf cmd arg) (labelReferences doc'))
            (commands doc').
Proof.
  intros [Hs Hc]. unfold parseLine. destruct (isSkipped text); [done|].
  destruct (parseCommand i text) as [[cmd ref]|] eqn:E; [|done].
  destruct (parseCommand_reference _ _ _ _ E) as [Hr1 Hr2].
  cbn [commands labelReferences].
  assert (Hs' : Forall (fun r => exists cmd0 arg,
              In cmd0 (commands doc ++ [cmd])
              /\ labelArgumentOf DiagnosticProvider.JUMP_COMMANDS cmd0 arg
              /\ r = referenceOf cmd0 arg) (labelReferences doc)).
  { clear -Hs. induction Hs as [|r l (c & a & H1 & H2 & H3) Hl IH];
      constructor; [|done].
    exists c, a. split; [apply in_or_app; by left | done]. }
  split.
  - destruct ref as [r|]; [|done].
    apply Forall_app. split; [done|]. repeat constructor.
    destruct (Hr1 r eq_refl) as (arg & Ha & ->).
    exists cmd, arg. split; [apply in_or_app; right; by left | done].
  - apply Forall_app. split.
    + clear -Hc. induction Hc as [|c l Hc0 Hl IH]; constructor; [|done].
      intros arg Ha. specialize (Hc0 arg Ha).
      destruct ref; [apply in_or_app; by left | done].
    + repeat constructor. intros arg Ha. rewrite (Hr2 arg Ha).
      apply in_or_app. right. by left.
Qed.

Lemma parseLines_references ls i doc :
  (Forall (fun r => exists cmd arg,
              In cmd (commands doc)
              /\ labelArgumentOf DiagnosticProvider.JUMP_COMMANDS cmd arg
              /\ r = referenceOf cmd arg) (labelReferences doc)
   /\ Forall (fun cmd => forall arg,
                labelArgumentOf DiagnosticProvider.JUMP_COMMANDS cmd arg ->
                In (referenceOf cmd arg) (labelReferences doc))
             (commands doc)) ->
  let doc' := parseLines ls i doc in
  Forall (fun r => exists cmd arg,
            In cmd (commands doc')
            /\ labelArgumentOf DiagnosticProvider.JUMP_COMMANDS cmd arg
            /\ r = referenceOf cmd arg) (labelReferences doc')
  /\ Forall (fun cmd => forall arg,
               labelArgumentOf DiagnosticProvider.JUMP_COMMANDS cmd arg ->
               In (referenceOf cmd arg) (labelReferences doc'))
            (commands doc').
Proof.
  revert i doc. induction ls as [|t ls IH]; intros i doc H; simpl; [done|].
  by apply IH, parseLine_references.
Qed.

Lemma parseDocument_references document :
  let parsed := parseDocument document in
  (forall r, In r (labelReferences parsed) ->
     exists cmd arg,
       In cmd (commands parsed)
       /\ labelArgumentOf DiagnosticProvider.JUMP_COMMANDS cmd arg
       /\ r = referenceOf cmd arg)
  /\ (forall cmd arg,
        In cmd (commands parsed) ->
        labelArgumentOf DiagnosticProvider.JUMP_COMMANDS cmd arg ->
        In (referenceOf cmd arg) (labelReferences parsed)).
Proof.
  destruct (parseLines_references (lines document) 0 emptyDocument)
    as [H1 H2]; [split; constructor|].
  fold (parseDocument document) in H1, H2.
  rewrite List.Forall_forall in H1, H2. split.
  - exact H1.
  - intros cmd arg Hcmd Harg. by apply (H2 cmd Hcmd).
Qed.

(** X10: the label references of a parsed document are exactly the
    quoted-string label arguments of its jump/call commands, taken at the
    index that the validator's table gives for the command: each reference
    is the quote-stripped value, the range and the line of such an
    argument, and each such argument has its reference. *)
Theorem label_references_exact document :
  let parsed := parseDocument document in
  (forall r, In r (labelReferences parsed) ->
     exists cmd arg,
       In cmd (commands parsed)
       /\ labelArgumentOf DiagnosticProvider.JUMP_COMMANDS cmd arg
       /\ r = referenceOf cmd arg)
  /\ (forall cmd arg,
        In cmd (commands parsed) ->
        labelArgumentOf DiagnosticProvider.JUMP_COMMANDS cmd arg ->
        In (referenceOf cmd arg) (labelReferences parsed)).
Proof. apply parseDocument_references. Qed.

Lemma label_references_exact_witness :
  exists cmd arg,
    In cmd (commands (parseDocument (script [ label_and_jump_line ])))
    /\ labelArgumentOf DiagnosticProvider.JUMP_COMMANDS cmd arg
    /\ mkLabelReference (lit "x") (mkRange 0 11 0 14) 0 = referenceOf cmd arg.
Proof.
  destruct (label_references_exact (script [ label_and_jump_line ])) as [H _].
  apply H. vm_compute. left. reflexivity.
Defined.

Lemma In_concat_map {A B} (f : A -> list B) l x y :
  In x l -> In y (f x) -> In y (concat (map f l)).
Proof.
  intros Hx Hy. induction l as [|a l IH]; [done|]. simpl.
  apply in_or_app. destruct Hx as [->|Hx]; [by left | right; by apply IH].
Qed.

(** X11: an undefined label reference is reported. For a document of the
    language, every label reference recorded by the parser whose name has
    no entry in the label table, and whose command is known to the
    registry, gives the error [Undefined label: <name>] at the range of the
    reference among the diagnostics of the document. *)
Theorem undefined_reference_reported dl document r :
  languageId document = lit "bdsp-ev" ->
  In r (labelReferences (parseDocument document)) ->
  labels (parseDocument document) !! rname r = None ->
  (forall cmd, In cmd (commands (parseDocument document)) ->
               line cmd = rline r -> is_Some (getCommand dl (name cmd))) ->
  exists diagnostics,
    updateDiagnostics dl document = Some diagnostics
    /\ In (mkDiagnostic (rrange r) (lit "Undefined label: " ++ rname r)
                        Error (lit "bdsp-ev"))
          diagnostics.
Proof.
  intros Hlang Hr Hnone Hknown.
  destruct (parseDocument_references document) as [Hrefs _].
  destruct (Hrefs r Hr) as (cmd & arg & Hcmd & (k & Hk & Ha & Ht) & ->).
  destruct (Hknown cmd Hcmd eq_refl) as [cmdDef Hdef].
  eexists. split; [by apply updateDiagnostics_flat|].
  apply (In_concat_map _ _ cmd); [done|].
  rewrite (validateCommand_known _ _ _ _ Hdef).
  apply in_or_app. right. apply in_or_app. right. apply in_or_app. left.
  unfold validateLabelReference. rewrite Hk, Ha, Ht. cbn [isType negb].
  change (isType TString TString) with true. cbn [negb].
  simpl in Hnone. rewrite Hnone. by left.
Qed.

Lemma undefined_reference_reported_witness :
  exists diagnostics,
    updateDiagnostics jump_registry missing_label_document = Some diagnostics
    /\ In (mkDiagnostic (mkRange 0 6 0 21) (lit "Undefined label: missing_label")
                        Error (lit "bdsp-ev"))
          diagnostics.
Proof.
  apply (undefined_reference_reported jump_registry missing_label_document
           (mkLabelReference (lit "missing_label") (mkRange 0 6 0 21) 0)).
  - reflexivity.
  - vm_compute. left. reflexivity.
  - vm_compute. reflexivity.
  - vm_compute. intros cmd [<-|[]] _. vm_compute. eauto.
Defined.

(** *** The entries of the label table *)

Lemma parseLines_labels_sound ls i doc n l :
  labels (parseLines ls i doc) !! n = Some l ->
  labels doc !! n = Some l
  \/ exists k text, ls !! k = Some text /\ labelMatch text = Some n
                    /\ l = labelEntry n (i + Z.of_nat k).
Proof.
  revert doc. induction ls as [|t ls IH] using rev_ind; intros doc H.
  - by left.
  - rewrite parseLines_snoc in H.
    destruct (decide (labelMatch t = Some n)) as [Hm|Hm].
    + rewrite (parseLine_labels_declared _ _ _ _ Hm), lookup_insert_eq in H.
      inversion H; subst. right. exists (length ls), t.
      by rewrite list_lookup_middle.
    + rewrite parseLine_labels_other in H by done.
      destruct (IH doc H) as [Hd|(k & text & Hk & Ht & ->)]; [by left|].
      right. exists k, text. split; [|done].
      apply lookup_app_l_Some. done.
Qed.

(** X12: every entry of the label table of a parsed document comes from a
    line of the document that declares its key: the entry holds the key as
    its name, the number of that line, and the range of the name and its
    colon from column 0 of that line. *)
Theorem label_table_sound document n l :
  labels (parseDocument document) !! n = Some l ->
  exists k text,
    lines document !! k = Some text /\ labelMatch text = Some n
    /\ l = mkParsedLabel n (Z.of_nat k)
             (mkRange (Z.of_nat k) 0 (Z.of_nat k) (len n + 1)).
Proof.
  intros H. unfold parseDocument in H.
  destruct (parseLines_labels_sound _ _ _ _ _ H)
    as [Hd|(k & text & Hk & Ht & ->)]; [done|].
  exists k, text. by rewrite Z.add_0_l.
Qed.

Lemma label_table_sound_witness :
  exists k text,
    lines duplicate_label_document !! k = Some text
    /\ labelMatch text = Some (lit "a")
    /\ labelEntry (lit "a") 2
       = mkParsedLabel (lit "a") (Z.of_nat k)
           (mkRange (Z.of_nat k) 0 (Z.of_nat k) (len (lit "a") + 1)).
Proof.
  apply (label_table_sound duplicate_label_document (lit "a")
           (labelEntry (lit "a") 2)).
  reflexivity.
Defined.

(** *** Comments and blank lines *)

Lemma isSkipped_blank ind : forallb isSpace ind = true -> isSkipped ind = true.
Proof. intros H. unfold isSkipped. by rewrite trim_spaces. Qed.

Lemma trim_indented ind c rest :
  forallb isSpace ind = true -> isSpace c = false ->
  exists r', trim (ind ++ c :: rest) = c :: r'.
Proof.
  intros Hind Hc. unfold trim.
  rewrite trimStart_app_spaces, trimStart_nonspace by done.
  by apply trimEnd_cons_nonspace.
Qed.

Lemma isSkipped_semicolon ind rest :
  forallb isSpace ind = true -> isSkipped (ind ++ ";"%char :: rest) = true.
Proof.
  intros H. unfold isSkipped.
  destruct (trim_indented ind ";" rest H eq_refl) as [r' ->].
  reflexivity.
Qed.

Lemma trimStart_snoc2_nonspace l c d :
  isSpace c = false -> exists l', trimStart (l ++ [c; d]) = l' ++ [c; d].
Proof.
  intros Hc. induction l as [|x l IH]; simpl.
  - rewrite Hc. by exists [].
  - destruct (isSpace x); [exact IH | by exists (x :: l)].
Qed.

Lemma isSkipped_slashes ind rest :
  forallb isSpace ind = true ->
  isSkipped (ind ++ "/"%char :: "/"%char :: rest) = true.
Proof.
  intros H. unfold isSkipped, trim.
  rewrite trimStart_app_spaces, trimStart_nonspace by done.
  unfold trimEnd.
  replace (rev ("/"%char :: "/"%char :: rest))
    with (rev rest ++ ["/"%char; "/"%char])
    by (simpl; by rewrite <- app_assoc).
  destruct (trimStart_snoc2_nonspace (rev rest) "/" "/" eq_refl) as [l' ->].
  rewrite rev_app_distr. reflexivity.
Qed.

Lemma parseLines_skipped ls i doc :
  Forall (fun t => isSkipped t = true) ls -> parseLines ls i doc = doc.
Proof.
  revert i doc. induction ls as [|t ls IH]; intros i doc H; simpl; [done|].
  inversion H; subst. unfold parseLine at 1.
  replace (isSkipped t) with true by done. by apply IH.
Qed.

(** X13: blank lines and comment lines contribute nothing. A line that is
    only white space, or whose first character after any white space is a
    semicolon, or whose first two are slashes, leaves the parsed document
    as it is, whatever the comment contains (a label, a call, an unknown
    command); and a document of the language made only of such lines
    parses to the empty document and gets no diagnostics from any
    registry. *)
Theorem comments_and_blank_lines_ignored :
  (forall i ind rest doc,
      forallb isSpace ind = true ->
      parseLine i ind doc = doc
      /\ parseLine i (ind ++ ";"%char :: rest) doc = doc
      /\ parseLine i (ind ++ "/"%char :: "/"%char :: rest) doc = doc)
  /\ (forall dl document,
      languageId document = lit "bdsp-ev" ->
      Forall (fun t => isSkipped t = true) (lines document) ->
      parseDocument document = emptyDocument
      /\ updateDiagnostics dl document = Some []).
Proof.
  split.
  - intros i ind rest doc Hind. unfold parseLine.
    by rewrite isSkipped_blank, isSkipped_semicolon, isSkipped_slashes.
  - intros dl document Hlang Hall.
    assert (Hp : parseDocument document = emptyDocument)
      by (by apply parseLines_skipped).
    split; [done|]. rewrite updateDiagnostics_flat by done.
    by rewrite Hp.
Qed.

Lemma comments_and_blank_lines_ignored_witness :
  parseLine 0 (lit "  ; _NO_SUCH(1)") emptyDocument = emptyDocument
  /\ updateDiagnostics (mkDataLoader ∅)
       (script [ lit "; lbl: _NO_SUCH(1)"; lit "   "; lit "  // _JUMP(x)" ])
     = Some [].
Proof.
  destruct comments_and_blank_lines_ignored as [H1 H2]. split.
  - apply (H1 0 (lit "  ") (lit " _NO_SUCH(1)") emptyDocument). reflexivity.
  - apply (H2 (mkDataLoader ∅)
              (script [ lit "; lbl: _NO_SUCH(1)"; lit "   "; lit "  // _JUMP(x)" ])).
    + reflexivity.
    + repeat constructor.
Defined.

(** *** The diagnostics of the validator *)

Lemma isArgumentTypeValidLoop_unknown expectedTypes :
  isArgumentTypeValidLoop TUnknown expectedTypes = true.
Proof.
  induction expectedTypes as [|t l IH]; simpl; [done|].
  by destruct (acceptsType t TUnknown).
Qed.

Lemma validateArgumentTypesLoop_shape i cargs expectedArgs :
  (length (validateArgumentTypesLoop i cargs expectedArgs)
   <= Nat.min (length cargs) (length expectedArgs))%nat
  /\ Forall (fun d => severity d = Warning /\ source d = lit "bdsp-ev"
                      /\ exists a, In a cargs /\ type a <> TUnknown
                                   /\ range d = arange a)
            (validateArgumentTypesLoop i cargs expectedArgs).
Proof.
  revert i expectedArgs.
  induction cargs as [|arg cargs IH]; intros i [|e expectedArgs]; simpl;
    try (split; [lia | constructor]).
  destruct (IH (i + 1) expectedArgs) as [Hlen Hall].
  assert (Hall' : Forall (fun d => severity d = Warning
                      /\ source d = lit "bdsp-ev"
                      /\ exists a, (arg = a \/ In a cargs)
                                   /\ type a <> TUnknown
                                   /\ range d = arange a)
            (validateArgumentTypesLoop (i + 1) cargs expectedArgs)).
  { clear -Hall. induction Hall as [|d l (H1 & H2 & a & H3 & H4) Hl IH];
      constructor; [|done].
    repeat split; try done. exists a. tauto. }
  destruct (Z.of_nat (length (orEmpty (Types e))) =? 0);
    [split; [lia | done]|].
  destruct (isArgumentTypeValid arg (orEmpty (Types e))) eqn:Ev; simpl;
    [split; [lia | done]|].
  split; [lia|]. constructor; [|done].
  repeat split. exists arg. repeat split; [by left|].
  intros Ht. unfold isArgumentTypeValid in Ev.
  by rewrite Ht, isArgumentTypeValidLoop_unknown in Ev.
Qed.

(** X14: the argument-type check emits only warnings, each at the range of
    an argument of the command that the parser did classify: an argument of
    unclassified kind is never flagged, whatever its slot accepts. There
    are at most as many of them as positions present both in the call and
    in the schema of the command. *)
Theorem type_diagnostics_shape cmd cmdDef :
  (length (validateArgumentTypes cmd cmdDef)
   <= Nat.min (length (args cmd)) (length (orEmpty (Args cmdDef))))%nat
  /\ Forall (fun d => severity d = Warning /\ source d = lit "bdsp-ev"
                      /\ exists a, In a (args cmd) /\ type a <> TUnknown
                                   /\ range d = arange a)
            (validateArgumentTypes cmd cmdDef).
Proof. apply validateArgumentTypesLoop_shape. Qed.

Lemma In_lookup {A} (l : list A) k x : l !! k = Some x -> In x l.
Proof. intros H. apply list_elem_of_In. by eapply list_elem_of_lookup_2. Qed.

Lemma validateCommand_on dl parsed cmd :
  Forall (diagnosticOn cmd) (validateCommand dl parsed cmd).
Proof.
  unfold validateCommand. destruct (getCommand dl (name cmd)) as [cmdDef|].
  - repeat apply Forall_app_2.
    + unfold validateArgumentCount.
      repeat match goal with |- context [if ?b then _ else _] => destruct b end;
        simpl; repeat constructor.
    + destruct (validateArgumentTypesLoop_shape 0 (args cmd)
                  (orEmpty (Args cmdDef))) as [_ H].
      fold (validateArgumentTypes cmd cmdDef) in H.
      induction H as [|d l (_ & H2 & a & H3 & _ & H4) Hl IH];
        constructor; [|done].
      split; [done|]. right. by exists a.
    + unfold validateLabelReference.
      destruct (DiagnosticProvider.JUMP_COMMANDS !! name cmd) as [k|];
        [|constructor].
      destruct (args cmd !! k) as [arg|] eqn:Ea; [|constructor].
      destruct (negb (isType (type arg) TString)); [constructor|].
      destruct (labels parsed !! stripQuotes (value arg)); [constructor|].
      constructor; [|constructor]. split; [reflexivity|]. right. exists arg.
      split; [by eapply In_lookup | done].
    + unfold validateComparator.
      destruct (negb (bool_decide (name cmd ∈ IFVAL_COMMANDS)));
        [constructor|].
      destruct (args cmd !! 1%nat) as [arg|] eqn:Ea; [|constructor].
      destruct (negb (bool_decide (stripQuotes (value arg) ∈ VALID_COMPARATORS)));
        [|constructor].
      constructor; [|constructor]. split; [reflexivity|]. right. exists arg.
      split; [by eapply In_lookup | done].
  - repeat constructor.
Qed.

(** X15: every diagnostic that updateDiagnostics sets for a document is
    tagged with the source [bdsp-ev] and is placed on a command of the
    parsed document: at the range of that command, or at the range of one
    of its arguments. *)
Theorem diagnostics_on_commands dl document diagnostics d :
  updateDiagnostics dl document = Some diagnostics ->
  In d diagnostics ->
  exists cmd,
    In cmd (commands (parseDocument document)) /\ diagnosticOn cmd d.
Proof.
  unfold updateDiagnostics.
  destruct (negb (str_eqb (languageId document) (lit "bdsp-ev"))); [done|].
  intros H Hd. inversion H; subst. clear H.
  rewrite validateCommands_flat in Hd. simpl in Hd.
  induction (commands (parseDocument document)) as [|cmd cmds IH];
    simpl in Hd; [done|].
  apply in_app_or in Hd as [Hd|Hd].
  - exists cmd. split; [by left|].
    pose proof (validateCommand_on dl (parseDocument document) cmd) as Hon.
    rewrite List.Forall_forall in Hon. by apply Hon.
  - destruct (IH Hd) as (c & Hc & Hon). exists c. split; [by right | done].
Qed.

Lemma diagnostics_on_commands_witness :
  exists cmd,
    In cmd (commands (parseDocument missing_label_document))
    /\ diagnosticOn cmd
         (mkDiagnostic (mkRange 0 6 0 21) (lit "Undefined label: missing_label")
                       Error (lit "bdsp-ev")).
Proof.
  apply (diagnostics_on_commands jump_registry missing_label_document
           [ mkDiagnostic (mkRange 0 6 0 21)
               (lit "Undefined label: missing_label") Error (lit "bdsp-ev") ]).
  - reflexivity.
  - left. reflexivity.
Defined.

(** *** loadCommands *)

Import WordAtPosition LoadCommands DefinitionProvider SignatureHelpProvider.

Lemma fillLookup_app a b lookup :
  fillLookup (a ++ b) lookup = fillLookup b (fillLookup a lookup).
Proof.
  revert lookup. induction a as [|c a IH]; intros lookup; simpl; [done|].
  apply IH.
Qed.

Lemma fillLookup_other cmds lookup n :
  Forall (fun c => Name c <> n) cmds ->
  fillLookup cmds lookup !! n = lookup !! n.
Proof.
  revert lookup. induction cmds as [|c cmds IH]; intros lookup H; simpl;
    [done|].
  inversion H; subst. rewrite IH by done.
  destruct (truthy (Name c)); [|done]. by rewrite lookup_insert_ne.
Qed.

Lemma fillLookup_sound cmds lookup n c :
  fillLookup cmds lookup !! n = Some c ->
  lookup !! n = Some c \/ (In c cmds /\ Name c = n /\ n <> []).
Proof.
  revert lookup. induction cmds as [|x cmds IH]; intros lookup H; simpl in *;
    [by left|].
  destruct (IH _ H) as [Hl|(Hin & Hn & Hne)]; [|right; tauto].
  destruct (truthy (Name x)) eqn:Et; [|by left].
  destruct (decide (Name x = n)) as [Heq|Hneq].
  - rewrite Heq, lookup_insert_eq in Hl. inversion Hl; subst.
    right. repeat split; try by left. by apply truthy_nonempty.
  - rewrite lookup_insert_ne in Hl by done. by left.
Qed.

(** X16: the command table that loadCommands builds from a parsed array
    has exactly the named commands of the array, each under its own name:
    a lookup returns only a command of the array whose name is the key
    (nothing of the previous table survives, and a command without a name
    is under no key); when several commands have the same name the last
    one of the array is the one found. When reading or parsing the file
    fails the loader keeps the table it had. *)
Theorem loadCommands_lookup dl :
  (forall cmds n c,
      getCommand (loadCommands dl (Some cmds)) n = Some c ->
      In c cmds /\ Name c = n /\ n <> [])
  /\ (forall before c after,
      Name c <> [] ->
      Forall (fun c' => Name c' <> Name c) after ->
      getCommand (loadCommands dl (Some (before ++ c :: after))) (Name c)
      = Some c)
  /\ loadCommands dl None = dl.
Proof.
  split; [|split; [|done]].
  - intros cmds n c H. unfold getCommand, loadCommands in H. simpl in H.
    destruct (fillLookup_sound _ _ _ _ H) as [He|Hs]; [|done].
    by rewrite lookup_empty in He.
  - intros before c after Hne Hafter. unfold getCommand, loadCommands. simpl.
    rewrite fillLookup_app. simpl.
    rewrite fillLookup_other by done.
    apply truthy_nonempty in Hne. rewrite Hne.
    by rewrite lookup_insert_eq.
Qed.

Lemma loadCommands_lookup_witness :
  getCommand
    (loadCommands three_slots_registry
       (Some ([ jump_def ] ++ ifval_def :: [ jump_def ])))
    (Name ifval_def)
  = Some ifval_def.
Proof.
  destruct (loadCommands_lookup three_slots_registry) as (_ & H & _).
  apply (H [ jump_def ] ifval_def [ jump_def ]).
  - vm_compute. discriminate.
  - repeat constructor. vm_compute. discriminate.
Defined.

(** *** The signature help *)

Lemma countCommas_nonneg s : 0 <= countCommas s.
Proof.
  induction s as [|c s IH]; simpl; [lia|].
  destruct (chr_eqb c ","); lia.
Qed.

Lemma activeContextOfLine_index text character nm idx :
  activeContextOfLine text character = Some (nm, idx) -> 0 <= idx.
Proof.
  unfold activeContextOfLine.
  destruct (cmdMatchAll _) as [|m ms]; [done|].
  destruct (includes _ _); [done|].
  intros H. inversion H. apply countCommas_nonneg.
Qed.

(** X17: when the signature help is given, it has exactly one signature,
    the first is the active one, the signature has one parameter for each
    slot of the command, and the active parameter is the argument index of
    the cursor clamped to the last parameter: it never points past the
    parameters, however many commas precede the cursor. It is a parameter
    of the signature whenever the command has slots, and -1 when it has
    none. *)
Theorem signature_help_active_parameter dl document line character help :
  provideSignatureHelp dl document line character = Returns (Some help) ->
  exists cmdName argIndex cmd signature,
    getActiveContext document line character
    = Returns (Some (cmdName, argIndex))
    /\ getCommand dl cmdName = Some cmd
    /\ signatures help = [signature]
    /\ activeSignature help = 0
    /\ length (parameters signature) = length (orEmpty (Args cmd))
    /\ activeParameter help
       = Z.min argIndex (Z.of_nat (length (orEmpty (Args cmd))) - 1)
    /\ -1 <= activeParameter help < Z.of_nat (length (parameters signature))
    /\ (orEmpty (Args cmd) <> [] -> 0 <= activeParameter help)
    /\ (orEmpty (Args cmd) = [] -> activeParameter help = -1).
Proof.
  unfold provideSignatureHelp.
  destruct (getActiveContext document line character) as [[[nm idx]|]|] eqn:E;
    try done.
  destruct (getCommand dl nm) as [cmd|] eqn:Ec; [|done].
  intros H. inversion H; subst. clear H.
  assert (Hidx : 0 <= idx).
  { unfold getActiveContext in E. destruct (line <? 0); [done|].
    destruct (lines document !! Z.to_nat line) as [text|]; [|done].
    inversion E as [E']. by eapply activeContextOfLine_index. }
  eexists nm, idx, cmd, _. cbn [signatures activeSignature activeParameter].
  change (match Args cmd with Some l => l | None => [] end)
    with (orEmpty (Args cmd)).
  repeat split; try done.
  - cbn [parameters]. by rewrite length_map.
  - lia.
  - cbn [parameters]. rewrite length_map. lia.
  - intros Hne. destruct (orEmpty (Args cmd)); [done|]. simpl length. lia.
  - intros ->. simpl. lia.
Qed.

Lemma signature_help_active_parameter_witness :
  exists cmdName argIndex cmd signature,
    getActiveContext (script [ lit "_CMD(1, 2, 3, 4, 5, " ]) 0 20
    = Returns (Some (cmdName, argIndex))
    /\ getCommand three_slots_registry cmdName = Some cmd
    /\ signatures
         (mkSignatureHelp
            [ mkSignatureInformation (lit "_CMD(a, b, c)") []
                [ mkParameterInformation (lit "a") (lit "(`Any`)");
                  mkParameterInformation (lit "b") (lit "(`Any`)");
                  mkParameterInformation (lit "c") (lit "(`Any`) (Optional)") ] ]
            0 2)
       = [signature]
    /\ 0 = 0
    /\ length (parameters signature) = length (orEmpty (Args cmd))
    /\ 2 = Z.min argIndex (Z.of_nat (length (orEmpty (Args cmd))) - 1)
    /\ -1 <= 2 < Z.of_nat (length (parameters signature))
    /\ (orEmpty (Args cmd) <> [] -> 0 <= 2)
    /\ (orEmpty (Args cmd) = [] -> 2 = -1).
Proof.
  apply (signature_help_active_parameter three_slots_registry
           (script [ lit "_CMD(1, 2, 3, 4, 5, " ]) 0 20
           (mkSignatureHelp
              [ mkSignatureInformation (lit "_CMD(a, b, c)") []
                  [ mkParameterInformation (lit "a") (lit "(`Any`)");
                    mkParameterInformation (lit "b") (lit "(`Any`)");
                    mkParameterInformation (lit "c") (lit "(`Any`) (Optional)") ] ]
              0 2)).
  reflexivity.
Defined.

(** *** getLabelFromString *)

Lemma labelFromStringLoop_cons line char r i inString stringChar stringStart charPos :
  labelFromStringLoop line (char :: r) i inString stringChar stringStart charPos
  = if negb inString && (chr_eqb char dquote || chr_eqb char squote) then
      labelFromStringLoop line r (i + 1) true [char] i charPos
    else if inString && str_eqb [char] stringChar then
      if (charPos >? stringStart) && (charPos <=? i)
      then Some (substring line (stringStart + 1) i)
      else labelFromStringLoop line r (i + 1) false stringChar stringStart
                               charPos
    else labelFromStringLoop line r (i + 1) inString stringChar stringStart
                             charPos.
Proof. reflexivity. Qed.

(** Before the position of the cursor the loop only follows the quotes. *)
Lemma labelFromStringLoop_before line pre s i open inString stringChar
    stringStart charPos :
  loopStateOf open inString stringChar ->
  i + len pre <= charPos ->
  exists inString' stringChar' stringStart',
    loopStateOf (openQuoteAfter pre open) inString' stringChar'
    /\ labelFromStringLoop line (pre ++ s) i inString stringChar stringStart
                           charPos
       = labelFromStringLoop line s (i + len pre) inString' stringChar'
                             stringStart' charPos.
Proof.
  revert i open inString stringChar stringStart.
  induction pre as [|c pre IH];
    intros i open inString stringChar stringStart Hst Hpos.
  - exists inString, stringChar, stringStart. split; [done|].
    unfold len. simpl. by rewrite Z.add_0_r.
  - assert (Hlen : i + len (c :: pre) = i + 1 + len pre)
      by (unfold len; simpl length; lia).
    rewrite Hlen in *. pose proof (len_nonneg pre).
    rewrite <- app_comm_cons, labelFromStringLoop_cons. simpl openQuoteAfter.
    destruct open as [q|]; simpl in Hst.
    + destruct Hst as [-> ->]. cbn [negb andb]. simpl str_eqb.
      rewrite andb_true_r.
      destruct (chr_eqb c q) eqn:Ecq.
      * assert (Hno : ((charPos >? stringStart) && (charPos <=? i)) = false).
        { apply andb_false_iff. right. apply Z.leb_gt. lia. }
        rewrite Hno. apply IH; [done | lia].
      * apply IH; [by split | lia].
    + subst inString. cbn [negb andb].
      change (chr_eqb c dquote || chr_eqb c squote) with (isQuote c).
      destruct (isQuote c) eqn:Eq.
      * apply IH; [by split | lia].
      * apply IH; [done | lia].
Qed.

Lemma labelFromStringLoop_inside line body s i q stringStart charPos :
  ~ In q body ->
  labelFromStringLoop line (body ++ s) i true [q] stringStart charPos
  = labelFromStringLoop line s (i + len body) true [q] stringStart charPos.
Proof.
  revert i. induction body as [|c body IH]; intros i Hnot.
  - unfold len. simpl. by rewrite Z.add_0_r.
  - rewrite <- app_comm_cons, labelFromStringLoop_cons. cbn [negb andb].
    simpl str_eqb. rewrite andb_true_r.
    assert (Hc : chr_eqb c q = false)
      by (apply chr_eqb_neq; intros ->; apply Hnot; by left).
    rewrite Hc, IH by (intros H; apply Hnot; by right).
    f_equal. unfold len. simpl length. lia.
Qed.

Lemma labelFromStringLoop_no_quotes line s i stringChar stringStart charPos :
  forallb (fun c => negb (isQuote c)) s = true ->
  labelFromStringLoop line s i false stringChar stringStart charPos = None.
Proof.
  revert i. induction s as [|c s IH]; intros i H; [done|].
  simpl in H. apply andb_true_iff in H as [Hc Hs].
  rewrite labelFromStringLoop_cons. cbn [negb andb].
  change (chr_eqb c dquote || chr_eqb c squote) with (isQuote c).
  apply negb_true_iff in Hc. rewrite Hc. by apply IH.
Qed.

(** The loop on a line that has a quoted string around the position. *)
Lemma labelFromStringLoop_around line pre q body post charPos :
  isQuote q = true -> openQuoteAfter pre None = None -> ~ In q body ->
  len pre < charPos <= len pre + 1 + len body ->
  labelFromStringLoop line (pre ++ q :: body ++ q :: post) 0 false [] (-1)
                      charPos
  = Some (substring line (len pre + 1) (len pre + 1 + len body)).
Proof.
  intros Hq Hpre Hbody [Hlo Hhi].
  destruct (labelFromStringLoop_before line pre (q :: body ++ q :: post)
              0 None false [] (-1) charPos)
    as (inS & sc & ss & Hst & ->); [done | lia |].
  rewrite Hpre in Hst. simpl in Hst. subst inS.
  rewrite labelFromStringLoop_cons. cbn [negb andb].
  change (chr_eqb q dquote || chr_eqb q squote) with (isQuote q).
  rewrite Hq, labelFromStringLoop_inside by done.
  rewrite labelFromStringLoop_cons. cbn [negb andb]. simpl str_eqb.
  rewrite chr_eqb_refl. cbn [andb].
  assert (Hin : ((charPos >? 0 + len pre)
                 && (charPos <=? 0 + len pre + 1 + len body)) = true).
  { apply andb_true_iff. split; [apply Z.gtb_lt | apply Z.leb_le]; lia. }
  rewrite Hin. by rewrite !Z.add_0_l.
Qed.

(** X18: go-to-definition reads the label under the cursor out of the
    quoted string around it. When the text before a quote character leaves
    no string open, and the same quote character closes the string, the
    content of the string (without the quotes) is returned for every cursor
    position after the opening quote and up to the closing one. A line
    without quote characters gives none. *)
Theorem label_from_string line pre q body post charPos :
  (line = pre ++ q :: body ++ q :: post ->
   isQuote q = true -> openQuoteAfter pre None = None -> ~ In q body ->
   len pre < charPos <= len pre + 1 + len body ->
   getLabelFromString line charPos = Some body)
  /\ (forallb (fun c => negb (isQuote c)) line = true ->
      getLabelFromString line charPos = None).
Proof.
  split.
  - intros Hline Hq Hpre Hbody Hpos. unfold getLabelFromString.
    rewrite Hline at 2.
    rewrite labelFromStringLoop_around by done. f_equal. rewrite Hline.
    replace (pre ++ q :: body ++ q :: post)
      with ((pre ++ [q]) ++ body ++ q :: post) by (by rewrite <- app_assoc).
    replace (len pre + 1) with (len (pre ++ [q]))
      by (rewrite len_app; unfold len at 2; simpl; lia).
    apply substring_middle.
  - intros H. by apply labelFromStringLoop_no_quotes.
Qed.

Lemma label_from_string_witness :
  getLabelFromString
    (lit "_IFVAL_JUMP(@W, 'EQ', 5, " ++ quoted (lit "ev_special") ++ lit ")")
    30
  = Some (lit "ev_special").
Proof.
  destruct (label_from_string
              (lit "_IFVAL_JUMP(@W, 'EQ', 5, " ++ quoted (lit "ev_special")
               ++ lit ")")
              (lit "_IFVAL_JUMP(@W, 'EQ', 5, ") dquote (lit "ev_special")
              (lit ")") 30) as [H _].
  apply H.
  - reflexivity.
  - reflexivity.
  - reflexivity.
  - vm_compute. intuition discriminate.
  - vm_compute. split; [reflexivity | discriminate].
Defined.

(** *** getWordAtPosition *)

Lemma tokenAt_inv first cont atLeastOne s m :
  tokenAt first cont atLeastOne s = Some m ->
  exists c run rest,
    m = c :: run /\ s = m ++ rest /\ first c = true
    /\ forallb cont run = true /\ (atLeastOne = true -> run <> []).
Proof.
  unfold tokenAt. destruct s as [|c r]; [done|].
  destruct (first c) eqn:Ec; [|done].
  destruct (span cont r) as [run rest] eqn:Es.
  destruct (atLeastOne && negb (truthy run)) eqn:E; [done|].
  intros H. inversion H; subst. exists c, run, rest. repeat split; try done.
  - simpl. f_equal. by apply (span_app cont).
  - by apply (span_forallb cont r run rest).
  - intros ->. simpl in E. intros ->. done.
Qed.

Lemma wordLoop_cons pattern x s i line character :
  wordLoop pattern (x :: s) i 0 line character
  = match pattern (x :: s) with
    | Some m =>
        if (character >=? i) && (character <=? i + len m)
        then Some (m, newRange line i line (i + len m))
        else wordLoop pattern s (i + 1) (length m - 1) line character
    | None => wordLoop pattern s (i + 1) 0 line character
    end.
Proof. reflexivity. Qed.

(** What one loop of getWordAtPosition returns: a match of its expression
    in the text, around the position, with its range. *)
Lemma wordLoop_sound pattern s i skip line character w r :
  (forall t m, pattern t = Some m -> exists rest, t = m ++ rest) ->
  wordLoop pattern s i skip line character = Some (w, r) ->
  exists a b,
    s = a ++ w ++ b /\ pattern (w ++ b) = Some w
    /\ i + len a <= character <= i + len a + len w
    /\ r = mkRange line (i + len a) line (i + len a + len w).
Proof.
  intros Hpat. revert i skip. induction s as [|x s IH]; intros i skip H; [done|].
  assert (Hshift : forall k,
    wordLoop pattern s (i + 1) k line character = Some (w, r) ->
    exists a b,
      x :: s = a ++ w ++ b /\ pattern (w ++ b) = Some w
      /\ i + len a <= character <= i + len a + len w
      /\ r = mkRange line (i + len a) line (i + len a + len w)).
  { intros k Hk. destruct (IH _ _ Hk) as (a & b & -> & Hp & Hpos & ->).
    exists (x :: a), b.
    replace (i + len (x :: a)) with (i + 1 + len a)
      by (unfold len; simpl length; lia).
    done. }
  destruct skip as [|k]; [|by apply (Hshift k)].
  rewrite wordLoop_cons in H.
  destruct (pattern (x :: s)) as [m|] eqn:Ep; [|by apply (Hshift 0%nat)].
  destruct ((character >=? i) && (character <=? i + len m)) eqn:Ec;
    [|by apply (Hshift (length m - 1)%nat)].
  inversion H; subst. clear H.
  apply andb_true_iff in Ec as [E1 E2].
  apply Z.geb_le in E1. apply Z.leb_le in E2.
  destruct (Hpat _ _ Ep) as [rest Hrest].
  exists [], rest. rewrite app_nil_l. unfold len at 1 2 3 4. simpl length.
  rewrite !Z.add_0_r. repeat split; try done.
  - by rewrite <- Hrest.
  - apply newRange_le. pose proof (len_nonneg w). lia.
Qed.

Lemma tokenAt_prefix first cont atLeastOne t m :
  tokenAt first cont atLeastOne t = Some m -> exists rest, t = m ++ rest.
Proof.
  intros H. apply tokenAt_inv in H as (c & run & rest & _ & H & _).
  by exists rest.
Qed.

Lemma wordOfLine_loop text line character w r :
  wordOfLine text line character = Some (w, r) ->
  exists pattern,
    (pattern = prefixPattern \/ pattern = cmdPattern \/ pattern = labelPattern)
    /\ wordLoop pattern text 0 0 line character = Some (w, r).
Proof.
  unfold wordOfLine.
  destruct (wordLoop prefixPattern text 0 0 line character) as [p|] eqn:E1.
  { intros H. inversion H; subst. exists prefixPattern. tauto. }
  destruct (wordLoop cmdPattern text 0 0 line character) as [p|] eqn:E2.
  { intros H. inversion H; subst. exists cmdPattern. tauto. }
  intros H. exists labelPattern. tauto.
Qed.

Lemma pattern_shape pattern t m :
  pattern = prefixPattern \/ pattern = cmdPattern \/ pattern = labelPattern ->
  pattern t = Some m ->
  wordShape m /\ exists rest, t = m ++ rest.
Proof.
  intros Hp Hm. unfold wordShape.
  destruct Hp as [->|[->| ->]];
    pose proof (tokenAt_inv _ _ _ _ _ Hm) as (c & run & rest & -> & -> & H1 & H2 & H3);
    (split; [exists c, run; split; [done|] | by exists rest]).
  - left. repeat split; try done. by apply H3.
  - right. left. by split.
  - right. right. by split.
Qed.

(** X19: the word that getWordAtPosition returns is a piece of the line of
    the position: it is the text of the line between the start and the end
    of the returned range, it is not empty, the range is on the line of the
    position and contains the position (its end included), and the word has
    one of the three recognised shapes: a sigil with a symbol name, a
    command-style name, or an identifier. *)
Theorem word_at_position_sound document line character w r :
  getWordAtPosition document line character = Returns (Some (w, r)) ->
  exists text start,
    lines document !! Z.to_nat line = Some text
    /\ 0 <= start /\ start <= character <= start + len w
    /\ start + len w <= len text
    /\ w = substring text start (start + len w)
    /\ r = mkRange line start line (start + len w)
    /\ wordShape w.
Proof.
  unfold getWordAtPosition. destruct (line <? 0); [done|].
  destruct (lines document !! Z.to_nat line) as [text|]; [|done].
  intros H. inversion H as [Hw]. clear H.
  destruct (wordOfLine_loop _ _ _ _ _ Hw) as (pattern & Hp & Hloop).
  apply wordLoop_sound in Hloop as (a & b & -> & Hm & Hpos & ->).
  2:{ intros t m Ht. by destruct (pattern_shape pattern t m Hp Ht). }
  destruct (pattern_shape pattern _ _ Hp Hm) as [Hshape _].
  exists (a ++ w ++ b), (len a). rewrite !Z.add_0_l in *.
  pose proof (len_nonneg a). pose proof (len_nonneg b).
  repeat split; try done; try lia.
  - rewrite !len_app. lia.
  - by rewrite substring_middle.
Qed.

Lemma word_at_position_sound_witness :
  exists text start,
    lines (script [ lit "  _FLAG_SET(#FH_01)" ]) !! Z.to_nat 0 = Some text
    /\ 0 <= start /\ start <= 14 <= start + len (lit "#FH_01")
    /\ start + len (lit "#FH_01") <= len text
    /\ lit "#FH_01" = substring text start (start + len (lit "#FH_01"))
    /\ mkRange 0 12 0 18 = mkRange 0 start 0 (start + len (lit "#FH_01"))
    /\ wordShape (lit "#FH_01").
Proof.
  apply (word_at_position_sound (script [ lit "  _FLAG_SET(#FH_01)" ]) 0 14).
  reflexivity.
Defined.

(** *** The order of the three expressions of getWordAtPosition *)

Lemma wordLoop_past pattern s i skip line character :
  character < i -> wordLoop pattern s i skip line character = None.
Proof.
  revert i skip. induction s as [|x s IH]; intros i skip Hlt; [done|].
  destruct skip as [|k]; [|simpl; apply IH; lia].
  rewrite wordLoop_cons. destruct (pattern (x :: s)) as [m|];
    [|apply IH; lia].
  assert (E : (character >=? i) = false)
    by (rewrite Z.geb_leb; apply Z.leb_gt; lia).
  rewrite E. cbn [andb]. apply IH. lia.
Qed.

Lemma wordLoop_no_start first cont atLeastOne a s i line character :
  forallb (fun x => negb (first x)) a = true ->
  wordLoop (tokenAt first cont atLeastOne) (a ++ s) i 0 line character
  = wordLoop (tokenAt first cont atLeastOne) s (i + len a) 0 line character.
Proof.
  revert i. induction a as [|x a IH]; intros i Ha.
  - unfold len. simpl. by rewrite Z.add_0_r.
  - simpl in Ha. apply andb_true_iff in Ha as [Hx Ha].
    apply negb_true_iff in Hx.
    rewrite <- app_comm_cons, wordLoop_cons.
    assert (Hp : tokenAt first cont atLeastOne (x :: a ++ s) = None)
      by (unfold tokenAt; by rewrite Hx).
    rewrite Hp, IH by done. f_equal. unfold len. simpl length. lia.
Qed.

Lemma isLower_not_sigil x : isLower x = true -> negb (isSigil x) = true.
Proof. ascii_cases x. Qed.

Lemma isLower_not_cmdStart x : isLower x = true -> negb (isCmdStart x) = true.
Proof. ascii_cases x. Qed.

Lemma isCmdCont_not_sigil x : isCmdCont x = true -> negb (isSigil x) = true.
Proof. ascii_cases x. Qed.

Lemma forallb_impl {A} (p q : A -> bool) l :
  (forall x, p x = true -> q x = true) ->
  forallb p l = true -> forallb q l = true.
Proof.
  intros Hpq. induction l as [|x l IH]; simpl; [done|].
  intros H. apply andb_true_iff in H as [Hx Hl].
  by rewrite (Hpq x Hx), IH.
Qed.

(** X20: the command-name expression is tried before the label-name
    expression, so a run of upper-case letters, digits and underscores
    wins over the identifier that contains it: on a line that starts with
    lower-case letters followed by such a run (as the label [ev_start]
    does), a position on the run gives the run alone as the word, with its
    own range, not the whole identifier. *)
Theorem command_run_wins_over_identifier lo c run rest line character :
  forallb isLower lo = true ->
  isCmdStart c = true -> forallb isCmdCont run = true ->
  match rest with [] => True | x :: _ => isCmdCont x = false end ->
  len lo <= character < len lo + len (c :: run) ->
  wordOfLine (lo ++ (c :: run) ++ rest) line character
  = Some (c :: run, mkRange line (len lo) line (len lo + len (c :: run))).
Proof.
  intros Hlo Hc Hrun Hrest [Hge Hlt].
  pose proof (len_nonneg lo).
  assert (Hprefix : wordLoop prefixPattern (lo ++ (c :: run) ++ rest) 0 0
                             line character = None).
  { rewrite app_assoc. unfold prefixPattern.
    rewrite wordLoop_no_start.
    - apply wordLoop_past. rewrite len_app. lia.
    - rewrite forallb_app. apply andb_true_iff. split.
      + by apply (forallb_impl isLower), Hlo; apply isLower_not_sigil.
      + apply (forallb_impl isCmdCont); [apply isCmdCont_not_sigil|].
        simpl. by rewrite (isCmdStart_isCmdCont c Hc), Hrun. }
  unfold wordOfLine. rewrite Hprefix. unfold cmdPattern.
  rewrite wordLoop_no_start
    by (by apply (forallb_impl isLower), Hlo; apply isLower_not_cmdStart).
  rewrite <- app_comm_cons, wordLoop_cons.
  assert (Hp : tokenAt isCmdStart isCmdCont false (c :: run ++ rest)
               = Some (c :: run)).
  { unfold tokenAt. rewrite Hc. by rewrite (span_exact isCmdCont run rest). }
  rewrite Hp.
  assert (Hin : ((character >=? 0 + len lo)
                 && (character <=? 0 + len lo + len (c :: run))) = true).
  { apply andb_true_iff. split; [apply Z.geb_le | apply Z.leb_le]; lia. }
  rewrite Hin, !Z.add_0_l.
  rewrite newRange_le; [done|]. pose proof (len_nonneg (c :: run)). lia.
Qed.

Lemma command_run_wins_over_identifier_witness :
  wordOfLine (lit "ev_start:") 0 2
  = Some (lit "_", mkRange 0 2 0 3).
Proof.
  apply (command_run_wins_over_identifier (lit "ev") "_"%char [] (lit "start:")
           0 2); try reflexivity.
  vm_compute. split; [discriminate | reflexivity].
Defined.

(** *** With no command table *)

(** X21: with an empty command table (as when the command file could not
    be loaded) every command is unknown: the diagnostics of a document of
    the language are exactly one [Unknown command] error for each parsed
    command, in the order of the commands, each at the range of its
    command. *)
Theorem empty_registry_all_unknown dl document :
  commandLookup dl = ∅ ->
  languageId document = lit "bdsp-ev" ->
  updateDiagnostics dl document
  = Some (map (fun cmd =>
                 mkDiagnostic (crange cmd) (lit "Unknown command: " ++ name cmd)
                              Error (lit "bdsp-ev"))
              (commands (parseDocument document))).
Proof.
  intros Hempty Hlang. rewrite updateDiagnostics_flat by done. f_equal.
  generalize (parseDocument document) at 1. intros parsed.
  induction (commands (parseDocument document)) as [|cmd cmds IH]; [done|].
  simpl. rewrite IH. f_equal. unfold validateCommand, getCommand.
  by rewrite Hempty, lookup_empty.
Qed.

Lemma empty_registry_all_unknown_witness :
  updateDiagnostics (mkDataLoader ∅)
    (script [ lit "_END()"; lit "  _TIME_WAIT(30)" ])
  = Some [ mkDiagnostic (mkRange 0 0 0 6) (lit "Unknown command: _END")
                        Error (lit "bdsp-ev");
           mkDiagnostic (mkRange 1 2 1 16) (lit "Unknown command: _TIME_WAIT")
                        Error (lit "bdsp-ev") ].
Proof.
  apply (empty_registry_all_unknown (mkDataLoader ∅)
           (script [ lit "_END()"; lit "  _TIME_WAIT(30)" ])); reflexivity.
Defined.

(** *** The kinds of arguments *)

Lemma isComparatorText_iff v :
  isComparatorText v = true
  <-> In v [ lit "GE"; lit "GT"; lit "LE"; lit "LT"; lit "EQ"; lit "NE" ].
Proof.
  unfold isComparatorText. rewrite !orb_true_iff, !str_eqb_eq. simpl.
  intuition congruence.
Qed.

Lemma startsWith_char v x :
  startsWith v [x] = true -> exists r, v = x :: r.
Proof.
  destruct v as [|c r]; simpl; [done|]. rewrite andb_true_r.
  intros H. apply chr_eqb_eq in H. subst. by exists r.
Qed.

Lemma isDigit_class c : isDigit c = true -> charClass c = 5.
Proof. ascii_cases c. Qed.

Lemma isNumberText_class v : isNumberText v = true -> firstCharClass v = 5.
Proof.
  destruct v as [|c r]; [done|]. unfold isNumberText. simpl firstCharClass.
  destruct (chr_eqb c "-") eqn:Em.
  { apply chr_eqb_eq in Em. by subst c. }
  simpl span. destruct (isDigit c) eqn:Ed; [intros _; by apply isDigit_class|].
  done.
Qed.

Lemma isComparatorText_class v :
  isComparatorText v = true -> firstCharClass v = 6.
Proof.
  intros H. apply isComparatorText_iff in H. simpl in H.
  destruct H as [<-|[<-|[<-|[<-|[<-|[<-|[]]]]]]]; reflexivity.
Qed.

(** The tests of createArgument exclude each other: each one that succeeds
    fixes the class of the first character. *)
Lemma createArgument_tests v :
  (startsWith v (lit "@") = true -> firstCharClass v = 1)
  /\ (startsWith v (lit "#") = true -> firstCharClass v = 2)
  /\ (startsWith v (lit "$") = true -> firstCharClass v = 3)
  /\ (startsWith v [dquote] = true -> firstCharClass v = 4)
  /\ (startsWith v [squote] = true -> firstCharClass v = 4)
  /\ (isNumberText v = true -> firstCharClass v = 5)
  /\ (isComparatorText v = true -> firstCharClass v = 6).
Proof.
  repeat split;
    try (intros H; apply startsWith_char in H as [r ->]; reflexivity).
  - apply isNumberText_class.
  - apply isComparatorText_class.
Qed.

Lemma createArgument_kind v line s e :
  let t := type (createArgument v line s e) in
  (t = TWork <-> startsWith v (lit "@") = true)
  /\ (t = TFlag <-> startsWith v (lit "#") = true)
  /\ (t = TSysflag <-> startsWith v (lit "$") = true)
  /\ (t = TString
      <-> startsWith v [dquote] = true \/ startsWith v [squote] = true)
  /\ (t = TNumber <-> isNumberText v = true)
  /\ (t = TComparator <-> isComparatorText v = true).
Proof.
  destruct (createArgument_tests v) as (F1 & F2 & F3 & F4 & F5 & F6 & F7).
  unfold createArgument.
  destruct (startsWith v (lit "@")), (startsWith v (lit "#")),
    (startsWith v (lit "$")), (startsWith v [dquote]),
    (startsWith v [squote]), (isNumberText v), (isComparatorText v);
    repeat match goal with
           | H : true = true -> _ |- _ => specialize (H eq_refl)
           | H : false = true -> _ |- _ => clear H
           end;
    try congruence;
    cbn [orb type]; repeat split; intros; try done; try discriminate;
    try tauto;
    try (match goal with H : _ \/ _ |- _ => destruct H; discriminate end).
Qed.

(** X22: the kind of an argument is decided by the shape of its value, and
    the order of the tests hides nothing: an argument is a work, flag or
    system-flag reference exactly when its value starts with the sigil, a
    quoted string exactly when it starts with a quote character (closed or
    not), a numeric literal exactly when it matches the number expression,
    and a comparator exactly when it is one of the six keywords. *)
Theorem argument_kind_by_shape v line s e :
  let t := type (createArgument v line s e) in
  (t = TWork <-> startsWith v (lit "@") = true)
  /\ (t = TFlag <-> startsWith v (lit "#") = true)
  /\ (t = TSysflag <-> startsWith v (lit "$") = true)
  /\ (t = TString
      <-> startsWith v [dquote] = true \/ startsWith v [squote] = true)
  /\ (t = TNumber <-> isNumberText v = true)
  /\ (t = TComparator
      <-> In v [ lit "GE"; lit "GT"; lit "LE"; lit "LT"; lit "EQ"; lit "NE" ]).
Proof.
  intros t. destruct (createArgument_kind v line s e) as (H1&H2&H3&H4&H5&H6).
  split; [exact H1|]. split; [exact H2|]. split; [exact H3|].
  split; [exact H4|]. split; [exact H5|].
  subst t. rewrite H6. apply isComparatorText_iff.
Qed.

(** X23: the parser and the validator agree on comparators: an argument
    that the parser classifies as a comparator keyword is never flagged by
    the comparator check, on any command of a parsed document. *)
Theorem comparator_kind_never_flagged document cmd cmdDef arg :
  In cmd (commands (parseDocument document)) ->
  args cmd !! 1%nat = Some arg ->
  type arg = TComparator ->
  validateComparator cmd cmdDef = None.
Proof.
  intros Hcmd Harg Htype.
  pose proof (parseDocument_commands
                (fun cmd => Forall (fun a => type a = TComparator ->
                                             isComparatorText (value a) = true)
                                   (args cmd))
                document) as H.
  rewrite List.Forall_forall in H. specialize (H ltac:(
    intros k text cmd' ref Hp;
    destruct (parseCommand_args _ _ _ _ Hp) as (t & sc & _ & ->);
    apply parseArguments_created; intros cur s e _;
    rewrite value_createArgument;
    apply (createArgument_kind (trim cur) k s e))).
  specialize (H cmd Hcmd). rewrite List.Forall_forall in H.
  specialize (H arg (In_lookup _ _ _ Harg) Htype).
  apply isComparatorText_iff in H.
  unfold validateComparator.
  destruct (negb (bool_decide (name cmd ∈ IFVAL_COMMANDS))); [done|].
  rewrite Harg. simpl in H.
  destruct H as [<-|[<-|[<-|[<-|[<-|[<-|[]]]]]]]; reflexivity.
Qed.

Lemma comparator_kind_never_flagged_witness :
  validateComparator (ifval_command "EQ" TComparator) ifval_def = None.
Proof.
  apply (comparator_kind_never_flagged (script [ ifval_line "EQ" ])
           (ifval_command "EQ" TComparator) ifval_def
           (ifval_arg "EQ" TComparator)).
  - vm_compute. left. reflexivity.
  - reflexivity.
  - reflexivity.
Defined.

(** *** A call without arguments *)

Lemma isSpace_not_parens c :
  isSpace c = true -> chr_eqb c "(" = false /\ chr_eqb c ")" = false.
Proof. ascii_cases c. Qed.

Lemma balancedFrom_spaces s d :
  forallb isSpace s = true -> balancedFrom s d = Nat.eqb d 0.
Proof.
  revert d. induction s as [|c s IH]; intros d H; simpl; [done|].
  simpl in H. apply andb_true_iff in H as [Hc Hs].
  destruct (isSpace_not_parens c Hc) as [-> ->]. by apply IH.
Qed.

Lemma parseArguments_blank blanks line sc :
  forallb isSpace blanks = true -> parseArguments blanks line sc = [].
Proof. intros H. unfold parseArguments. by rewrite trim_spaces. Qed.

(** X24: a call with nothing or only white space between its parentheses
    is a call without arguments: the parsed command has an empty argument
    list (not one empty argument), and its range still runs from the name
    to the close parenthesis. *)
Theorem empty_call_no_arguments i ind c run ws blanks post :
  forallb isSpace ind = true -> isCmdStart c = true ->
  forallb isCmdCont run = true -> forallb isSpace ws = true ->
  forallb isSpace blanks = true ->
  fst <$> parseCommand i
            (ind ++ (c :: run) ++ ws ++ "("%char :: blanks ++ ")"%char :: post)
  = Some (mkParsedCommand (c :: run) i (len ind) []
            (mkRange i (len ind) i
               (len ind + len (c :: run) + len ws + 1 + len blanks + 1))).
Proof.
  intros Hind Hc Hrun Hws Hblanks.
  rewrite command_line_terminated; try done.
  - by rewrite parseArguments_blank.
  - unfold balanced. by rewrite balancedFrom_spaces.
Qed.

Lemma empty_call_no_arguments_witness :
  fst <$> parseCommand 7 (lit "    _END(  )")
  = Some (mkParsedCommand (lit "_END") 7 4 [] (mkRange 7 4 7 12)).
Proof.
  apply (empty_call_no_arguments 7 (lit "    ") "_"%char (lit "END") []
           (lit "  ") []); reflexivity.
Defined.

(* ===================================================================== *)
(** ** The diagnostics that validation emits for a known command         *)
(* ===================================================================== *)

(** *** The list pushed for one command *)

Lemma pushed_option_list d : pushed d = option_list d.
Proof. by destruct d. Qed.

Lemma validateCommand_emitted dl parsed cmd cmdDef :
  getCommand dl (name cmd) = Some cmdDef ->
  validateCommand dl parsed cmd
  = option_list (validateArgumentCount cmd cmdDef)
    ++ validateArgumentTypes cmd cmdDef
    ++ option_list (validateLabelReference cmd cmdDef (labels parsed))
    ++ option_list (validateComparator cmd cmdDef).
Proof.
  intros H. rewrite (validateCommand_known _ _ _ _ H).
  by rewrite !pushed_option_list.
Qed.

(** The diagnostics of the document around those of one of its commands. *)
Lemma updateDiagnostics_around dl document pre cmd post :
  languageId document = lit "bdsp-ev" ->
  commands (parseDocument document) = pre ++ cmd :: post ->
  updateDiagnostics dl document
  = Some (concat (map (validateCommand dl (parseDocument document)) pre)
          ++ validateCommand dl (parseDocument document) cmd
          ++ concat (map (validateCommand dl (parseDocument document)) post)).
Proof.
  intros Hlang Hcmds. rewrite updateDiagnostics_flat by done.
  by rewrite Hcmds, map_app, concat_app.
Qed.

(** *** The names of parsed commands *)

Lemma cmdMatchFrom_inv s i idx nm ws :
  cmdMatchFrom s i = Some (idx, nm, ws) ->
  exists t, cmdMatchAt t = Some (nm, ws).
Proof.
  revert i. induction s as [|x s IH]; intros i.
  - done.
  - rewrite cmdMatchFrom_cons.
    destruct (cmdMatchAt (x :: s)) as [[nm' ws']|] eqn:E.
    + intros H. inversion H; subst. by exists (x :: s).
    + apply IH.
Qed.

(** The name of a parsed command is a command name: a start character
    and a run of name characters. *)
Lemma parseCommand_name i text cmd ref :
  parseCommand i text = Some (cmd, ref) ->
  exists c run,
    name cmd = c :: run /\ isCmdStart c = true
    /\ forallb isCmdCont run = true.
Proof.
  unfold parseCommand, cmdMatch.
  destruct (cmdMatchFrom text 0) as [[[idx nm] ws]|] eqn:E; [|done].
  cbv zeta. intros H.
  pose proof (f_equal (fun o => match o with
                                | Some (c, _) => name c
                                | None => nm
                                end) H) as Hn.
  cbv beta iota delta [name] in Hn.
  assert (Hname : name cmd = nm) by (symmetry; exact Hn). clear Hn H.
  apply cmdMatchFrom_inv in E as [t E].
  apply cmdMatchAt_inv in E as (c & run & rest & Hnm & Hc & Hrun & _).
  exists c, run. by rewrite Hname.
Qed.

Lemma parsed_command_name document cmd :
  In cmd (commands (parseDocument document)) ->
  exists c run,
    name cmd = c :: run /\ isCmdStart c = true
    /\ forallb isCmdCont run = true.
Proof.
  intros Hin.
  pose proof (parseDocument_commands
                (fun cmd => exists c run,
                     name cmd = c :: run /\ isCmdStart c = true
                     /\ forallb isCmdCont run = true)
                document) as H.
  rewrite Forall_forall in H. apply H; [|by apply list_elem_of_In].
  intros k text cmd' ref. apply parseCommand_name.
Qed.

(** *** The messages of the four checks *)

Lemma validateArgumentCount_message cmd cmdDef d :
  validateArgumentCount cmd cmdDef = Some d ->
  exists rest, message d = name cmd ++ " "%char :: rest.
Proof.
  unfold validateArgumentCount, createDiagnostic.
  destruct (_ <? _); [intros [= <-]; by eexists|].
  destruct (_ >? _); [intros [= <-]; by eexists|done].
Qed.

Lemma validateArgumentTypesLoop_message i cargs expectedArgs :
  Forall (fun d => exists rest, message d = lit "Argument " ++ rest)
         (validateArgumentTypesLoop i cargs expectedArgs).
Proof.
  revert i expectedArgs.
  induction cargs as [|arg cargs IH]; intros i [|e expectedArgs]; simpl;
    try constructor.
  destruct (Z.of_nat (length (orEmpty (Types e))) =? 0); [apply IH|].
  destruct (isArgumentTypeValid arg (orEmpty (Types e))); simpl; [apply IH|].
  constructor; [by eexists | apply IH].
Qed.

Lemma validateLabelReference_message cmd cmdDef labels d :
  validateLabelReference cmd cmdDef labels = Some d ->
  exists rest, message d = lit "Undefined label: " ++ rest.
Proof.
  unfold validateLabelReference, createDiagnostic.
  destruct (_ !! name cmd) as [k|]; [|done].
  destruct (args cmd !! k) as [arg|]; [|done].
  destruct (negb _); [done|]. cbv zeta.
  destruct (labels !! _); [done|]. intros [= <-]. by eexists.
Qed.

Lemma validateComparator_message cmd cmdDef d :
  validateComparator cmd cmdDef = Some d ->
  exists rest, message d = lit "Invalid comparator: " ++ rest.
Proof.
  unfold validateComparator, createDiagnostic.
  destruct (negb (bool_decide (name cmd ∈ IFVAL_COMMANDS))); [done|].
  destruct (args cmd !! 1%nat) as [arg|]; [|done]. cbv zeta.
  destruct (negb _); [|done]. intros [= <-]. by eexists.
Qed.

Lemma Forall_option_list {A} (P : A -> Prop) (o : option A) :
  (forall x, o = Some x -> P x) -> Forall P (option_list o).
Proof. destruct o as [x|]; intros H; repeat constructor. by apply H. Qed.

Lemma stripQuotes_withoutQuotes s : stripQuotes s = withoutQuotes s.
Proof.
  induction s as [|c s IH]; [done|]. simpl.
  change (Ascii.eqb c dquote || Ascii.eqb c "'") with (isQuote c).
  destruct (isQuote c); simpl; by rewrite IH.
Qed.

(** A message whose second character is a lower-case letter does not
    start with a command name and a space. *)
Lemma isLower_not_cmdCont x : isLower x = true -> isCmdCont x = false.
Proof. ascii_cases x. Qed.

Lemma isLower_not_blank x : isLower x = true -> x <> " "%char.
Proof. ascii_cases x. Qed.

Lemma startsWith_name_lower m0 m1 m' c run s :
  isLower m1 = true -> forallb isCmdCont run = true ->
  startsWith (m0 :: m1 :: m') ((c :: run) ++ " "%char :: s) = false.
Proof.
  intros Hl Hrun. destruct run as [|r0 run]; simpl.
  - assert (E : chr_eqb " " m1 = false).
    { apply chr_eqb_neq. intros <-. by apply (isLower_not_blank " "). }
    rewrite E. by rewrite andb_false_r.
  - assert (E : chr_eqb r0 m1 = false).
    { apply chr_eqb_neq. intros <-. simpl in Hrun.
      apply andb_true_iff in Hrun as [Hr _].
      by rewrite (isLower_not_cmdCont r0 Hl) in Hr. }
    rewrite E. by rewrite andb_false_r.
Qed.

(** What the checks after the arity check push is no arity diagnostic. *)
Lemma others_not_arity cmd cmdDef labels c run :
  name cmd = c :: run -> forallb isCmdCont run = true ->
  Forall (fun d => isArityDiagnostic cmd d = false)
         (validateArgumentTypes cmd cmdDef
          ++ option_list (validateLabelReference cmd cmdDef labels)
          ++ option_list (validateComparator cmd cmdDef)).
Proof.
  intros Hname Hrun.
  assert (Hlow : forall d m0 m1 m',
             message d = m0 :: m1 :: m' -> isLower m1 = true ->
             isArityDiagnostic cmd d = false).
  { intros d m0 m1 m' Hm Hl. unfold isArityDiagnostic. rewrite Hm, Hname.
    change (lit " requires at least ")
      with (" "%char :: lit "requires at least ").
    change (lit " accepts at most ") with (" "%char :: lit "accepts at most ").
    by rewrite !startsWith_name_lower. }
  rewrite !Forall_app. repeat split.
  - unfold validateArgumentTypes.
    pose proof (validateArgumentTypesLoop_message 0 (args cmd)
                  (orEmpty (Args cmdDef))) as H.
    induction H as [|d l [rest Hd] _ IH]; constructor; [|done].
    by apply (Hlow d "A"%char "r"%char (lit "gument " ++ rest)).
  - apply Forall_option_list. intros d Hd.
    apply validateLabelReference_message in Hd as [rest Hd].
    by apply (Hlow d "U"%char "n"%char (lit "defined label: " ++ rest)).
  - apply Forall_option_list. intros d Hd.
    apply validateComparator_message in Hd as [rest Hd].
    by apply (Hlow d "I"%char "n"%char (lit "valid comparator: " ++ rest)).
Qed.

(** *** C2 *)

(** C2: for a command of the document whose name is in the registry, with
    required = the number of slots not marked optional, max = the number
    of slots and actual = the number of parsed arguments, the diagnostics
    that validation emits for the command are: when actual < required, the
    one error [<name> requires at least <required> argument(s), but got
    <actual>] at the range of the command, followed by what the other
    checks emit; when actual > max, the one warning [<name> accepts at most
    <max> argument(s), but got <actual>] there, followed by what the other
    checks emit; when required <= actual <= max, only what the other
    checks emit. The other checks emit no arity diagnostic, and
    required <= max, so that at most one of the two is emitted for a
    call. These diagnostics stand in the list set for the document between
    those of the commands before and those of the commands after. *)
Theorem arity_diagnostic dl document pre cmd post cmdDef :
  languageId document = lit "bdsp-ev" ->
  commands (parseDocument document) = pre ++ cmd :: post ->
  getCommand dl (name cmd) = Some cmdDef ->
  let parsed := parseDocument document in
  let expectedArgs := orEmpty (Args cmdDef) in
  let required :=
    Z.of_nat (length (List.filter (fun a => negb (Optional a)) expectedArgs)) in
  let max := Z.of_nat (length expectedArgs) in
  let actual := Z.of_nat (length (args cmd)) in
  let tooFew :=
    mkDiagnostic (crange cmd)
      (name cmd ++ lit " requires at least " ++ numToString required
       ++ lit " argument(s), but got " ++ numToString actual)
      Error (lit "bdsp-ev") in
  let tooMany :=
    mkDiagnostic (crange cmd)
      (name cmd ++ lit " accepts at most " ++ numToString max
       ++ lit " argument(s), but got " ++ numToString actual)
      Warning (lit "bdsp-ev") in
  let others :=
    validateArgumentTypes cmd cmdDef
    ++ option_list (validateLabelReference cmd cmdDef (labels parsed))
    ++ option_list (validateComparator cmd cmdDef) in
  let emitted := validateCommand dl parsed cmd in
  updateDiagnostics dl document
  = Some (concat (map (validateCommand dl parsed) pre)
          ++ emitted
          ++ concat (map (validateCommand dl parsed) post))
  /\ required <= max
  /\ (actual < required -> emitted = tooFew :: others)
  /\ (max < actual -> emitted = tooMany :: others)
  /\ (required <= actual <= max -> emitted = others)
  /\ isArityDiagnostic cmd tooFew = true
  /\ isArityDiagnostic cmd tooMany = true
  /\ Forall (fun d => isArityDiagnostic cmd d = false) others.
Proof.
  intros Hlang Hcmds Hdef parsed expectedArgs required max actual
         tooFew tooMany others emitted.
  pose proof (requiredCountOf_le expectedArgs) as Hle.
  unfold requiredCountOf in Hle. fold required max in Hle.
  assert (Hem : emitted
                = option_list (validateArgumentCount cmd cmdDef) ++ others)
    by (by apply validateCommand_emitted).
  assert (Hcount : validateArgumentCount cmd cmdDef
                   = if actual <? required then Some tooFew
                     else if actual >? max then Some tooMany else None)
    by reflexivity.
  split; [by apply updateDiagnostics_around|].
  split; [exact Hle|].
  split; [|split; [|split]].
  - intros Hlt. apply Z.ltb_lt in Hlt. by rewrite Hem, Hcount, Hlt.
  - intros Hgt.
    assert (H1 : (actual <? required) = false) by (apply Z.ltb_ge; lia).
    assert (H2 : (actual >? max) = true) by (apply Z.gtb_lt; lia).
    by rewrite Hem, Hcount, H1, H2.
  - intros [Hlo Hhi].
    assert (H1 : (actual <? required) = false) by (apply Z.ltb_ge; lia).
    assert (H2 : (actual >? max) = false)
      by (rewrite Z.gtb_ltb; apply Z.ltb_ge; lia).
    by rewrite Hem, Hcount, H1, H2.
  - assert (Hin : In cmd (commands (parseDocument document)))
      by (rewrite Hcmds; apply in_elt).
    apply parsed_command_name in Hin as (c & run & Hname & _ & Hrun).
    split; [|split].
    + unfold isArityDiagnostic, tooFew. cbn [message].
      rewrite (app_assoc (name cmd) (lit " requires at least ")).
      by rewrite startsWith_app.
    + unfold isArityDiagnostic, tooMany. cbn [message].
      rewrite (app_assoc (name cmd) (lit " accepts at most ")).
      rewrite (startsWith_app (name cmd ++ lit " accepts at most ")).
      apply orb_true_r.
    + by apply (others_not_arity cmd cmdDef (labels parsed) c run).
Qed.

(** The example of the specification: two required slots and one optional
    slot; the call with one argument gets the error, the call with four
    arguments the warning, and nothing else. *)
Lemma arity_diagnostic_witness :
  updateDiagnostics three_slots_registry too_few_document
  = Some [ mkDiagnostic (mkRange 0 0 0 7)
             (lit "_CMD requires at least 2 argument(s), but got 1")
             Error (lit "bdsp-ev") ]
  /\ updateDiagnostics three_slots_registry too_many_document
     = Some [ mkDiagnostic (mkRange 0 0 0 16)
                (lit "_CMD accepts at most 3 argument(s), but got 4")
                Warning (lit "bdsp-ev") ].
Proof.
  split.
  - destruct (arity_diagnostic three_slots_registry too_few_document
                [] too_few_command [] three_slots)
      as (Hall & _ & Hfew & _); [reflexivity | reflexivity | reflexivity |].
    rewrite Hall, Hfew by (vm_compute; reflexivity).
    vm_compute. reflexivity.
  - destruct (arity_diagnostic three_slots_registry too_many_document
                [] too_many_command [] three_slots)
      as (Hall & _ & _ & Hmany & _); [reflexivity | reflexivity | reflexivity |].
    rewrite Hall, Hmany by (vm_compute; reflexivity).
    vm_compute. reflexivity.
Defined.

(** *** C3 *)

(** The names of the jump/call commands start with an underscore. *)
Lemma jump_command_name n k :
  DiagnosticProvider.JUMP_COMMANDS !! n = Some k ->
  exists tail, n = "_"%char :: tail.
Proof.
  intros H. apply JUMP_COMMANDS_table in H. simpl in H.
  repeat (destruct H as [H|H]; [inversion H; by eexists|]). done.
Qed.

(** For a command whose name starts with an underscore, what the arity,
    type and comparator checks push is no undefined-label diagnostic. *)
Lemma around_not_undefined cmd cmdDef tail :
  name cmd = "_"%char :: tail ->
  Forall (fun d => isUndefinedLabel d = false)
         ((option_list (validateArgumentCount cmd cmdDef)
           ++ validateArgumentTypes cmd cmdDef)
          ++ option_list (validateComparator cmd cmdDef)).
Proof.
  intros Hname. rewrite !Forall_app. repeat split.
  - apply Forall_option_list. intros d Hd.
    apply validateArgumentCount_message in Hd as [rest Hd].
    unfold isUndefinedLabel. by rewrite Hd, Hname.
  - unfold validateArgumentTypes.
    pose proof (validateArgumentTypesLoop_message 0 (args cmd)
                  (orEmpty (Args cmdDef))) as H.
    induction H as [|d l [rest Hd] _ IH]; constructor; [|done].
    unfold isUndefinedLabel. by rewrite Hd.
  - apply Forall_option_list. intros d Hd.
    apply validateComparator_message in Hd as [rest Hd].
    unfold isUndefinedLabel. by rewrite Hd.
Qed.

(** C3: for a jump/call command of the document (a name with an entry [k]
    in the table of label-bearing argument indices) whose name is in the
    registry and whose argument at index [k] is present and classified as
    a quoted string, with <name> the value of that argument without its
    quote characters: when <name> has no entry in the label table of the
    document, the diagnostics that validation emits for the command are
    those of the arity and type checks, then the one error
    [Undefined label: <name>] at the range of that argument, then that of
    the comparator check; when <name> has an entry they are those of the
    other checks only, and none of these is an undefined-label diagnostic.
    So the error is emitted if and only if <name> is absent from the label
    table; and when some line of the document declares a label <name>,
    wherever that line is, no undefined-label diagnostic is emitted for
    the command. These diagnostics stand in the list set for the document
    between those of the commands before and after. *)
Theorem label_reference_validity dl document pre cmd post cmdDef k arg :
  languageId document = lit "bdsp-ev" ->
  commands (parseDocument document) = pre ++ cmd :: post ->
  getCommand dl (name cmd) = Some cmdDef ->
  DiagnosticProvider.JUMP_COMMANDS !! name cmd = Some k ->
  args cmd !! k = Some arg ->
  type arg = TString ->
  let parsed := parseDocument document in
  let labelName := withoutQuotes (value arg) in
  let undefined :=
    mkDiagnostic (arange arg) (lit "Undefined label: " ++ labelName)
                 Error (lit "bdsp-ev") in
  let before :=
    option_list (validateArgumentCount cmd cmdDef)
    ++ validateArgumentTypes cmd cmdDef in
  let after := option_list (validateComparator cmd cmdDef) in
  let emitted := validateCommand dl parsed cmd in
  updateDiagnostics dl document
  = Some (concat (map (validateCommand dl parsed) pre)
          ++ emitted
          ++ concat (map (validateCommand dl parsed) post))
  /\ (labels parsed !! labelName = None ->
      emitted = before ++ undefined :: after)
  /\ (is_Some (labels parsed !! labelName) -> emitted = before ++ after)
  /\ isUndefinedLabel undefined = true
  /\ Forall (fun d => isUndefinedLabel d = false) (before ++ after)
  /\ (In undefined emitted <-> labels parsed !! labelName = None)
  /\ (forall text, In text (lines document) ->
      labelMatch text = Some labelName ->
      emitted = before ++ after).
Proof.
  intros Hlang Hcmds Hdef Hk Harg Htype parsed labelName undefined
         before after emitted.
  assert (Hv : validateLabelReference cmd cmdDef (labels parsed)
               = match labels parsed !! labelName with
                 | None => Some undefined
                 | Some _ => None
                 end).
  { transitivity
      (match labels parsed !! stripQuotes (value arg) with
       | None =>
           Some (mkDiagnostic (arange arg)
                   (lit "Undefined label: " ++ stripQuotes (value arg))
                   Error (lit "bdsp-ev"))
       | Some _ => None
       end).
    - unfold validateLabelReference. rewrite Hk, Harg, Htype. reflexivity.
    - by rewrite stripQuotes_withoutQuotes. }
  assert (Hem : emitted
                = before
                  ++ option_list
                       (validateLabelReference cmd cmdDef (labels parsed))
                  ++ after).
  { unfold emitted, before. rewrite <- app_assoc.
    by apply validateCommand_emitted. }
  assert (Hnone : labels parsed !! labelName = None ->
                  emitted = before ++ undefined :: after).
  { intros H. by rewrite Hem, Hv, H. }
  assert (Hsome : is_Some (labels parsed !! labelName) ->
                  emitted = before ++ after).
  { intros [l H]. by rewrite Hem, Hv, H. }
  assert (Hund : isUndefinedLabel undefined = true).
  { unfold isUndefinedLabel, undefined. cbn [message].
    apply startsWith_app. }
  destruct (jump_command_name _ _ Hk) as [tail Hname].
  pose proof (around_not_undefined cmd cmdDef tail Hname) as Hothers.
  fold before after in Hothers.
  split; [by apply updateDiagnostics_around|].
  split; [exact Hnone|]. split; [exact Hsome|]. split; [exact Hund|].
  split; [exact Hothers|]. split.
  - split.
    + intros Hin. destruct (labels parsed !! labelName) as [l|] eqn:E; [|done].
      exfalso. rewrite Hsome in Hin by eauto.
      rewrite Forall_forall in Hothers.
      apply list_elem_of_In, Hothers in Hin. congruence.
    + intros H. rewrite (Hnone H). apply in_elt.
  - intros text Hin Hm. apply Hsome.
    by apply (parseLines_labels_declared _ _ _ text).
Qed.

(** The undefined-label example of the specification, and the same jump in
    a document that declares the label on a later line. *)
Lemma label_reference_validity_witness :
  updateDiagnostics jump_registry missing_label_document
  = Some [ mkDiagnostic (mkRange 0 6 0 21)
             (lit "Undefined label: missing_label") Error (lit "bdsp-ev") ]
  /\ updateDiagnostics jump_registry declared_label_document = Some [].
Proof.
  split.
  - destruct (label_reference_validity jump_registry missing_label_document
                [] missing_label_command [] jump_def 0%nat missing_label_arg)
      as (Hall & Hnone & _);
      [reflexivity | reflexivity | reflexivity | reflexivity | reflexivity
      | reflexivity |].
    rewrite Hall, Hnone by (vm_compute; reflexivity).
    vm_compute. reflexivity.
  - destruct (label_reference_validity jump_registry declared_label_document
                [] missing_label_command [] jump_def 0%nat missing_label_arg)
      as (Hall & _ & _ & _ & _ & _ & Hdecl);
      [reflexivity | reflexivity | reflexivity | reflexivity | reflexivity
      | reflexivity |].
    rewrite Hall, (Hdecl (lit "missing_label:"));
      [| right; left; reflexivity | vm_compute; reflexivity ].
    vm_compute. reflexivity.
Defined.

(** *** C4 *)

(** For _IFVAL_JUMP and _IFVAL_CALL, what the arity, type and label checks
    push is no invalid-comparator diagnostic. *)
Lemma others_not_comparator cmd cmdDef labels :
  name cmd = lit "_IFVAL_JUMP" \/ name cmd = lit "_IFVAL_CALL" ->
  Forall (fun d => isInvalidComparator d = false)
         (option_list (validateArgumentCount cmd cmdDef)
          ++ validateArgumentTypes cmd cmdDef
          ++ option_list (validateLabelReference cmd cmdDef labels)).
Proof.
  intros Hname. rewrite !Forall_app. repeat split.
  - apply Forall_option_list. intros d Hd.
    apply validateArgumentCount_message in Hd as [rest Hd].
    unfold isInvalidComparator. by destruct Hname as [H|H]; rewrite Hd, H.
  - unfold validateArgumentTypes.
    pose proof (validateArgumentTypesLoop_message 0 (args cmd)
                  (orEmpty (Args cmdDef))) as H.
    induction H as [|d l [rest Hd] _ IH]; constructor; [|done].
    unfold isInvalidComparator. by rewrite Hd.
  - apply Forall_option_list. intros d Hd.
    apply validateLabelReference_message in Hd as [rest Hd].
    unfold isInvalidComparator. by rewrite Hd.
Qed.

(** C4: for a command of the document named _IFVAL_JUMP or _IFVAL_CALL
    whose name is in the registry, the diagnostics that validation emits
    for the command are those of the arity, type and label checks, none of
    which is an invalid-comparator diagnostic, followed by: nothing when
    there is no argument at index 1; nothing when the value of that
    argument, with every quote character left out, is one of GE, GT, LE,
    LT, EQ, NE; and otherwise exactly one error at the range of that
    argument, whose message cites the value without its quote characters
    and the six valid keywords. These diagnostics stand in the list set
    for the document between those of the commands before and after. *)
Theorem comparator_validity dl document pre cmd post cmdDef :
  languageId document = lit "bdsp-ev" ->
  commands (parseDocument document) = pre ++ cmd :: post ->
  getCommand dl (name cmd) = Some cmdDef ->
  name cmd = lit "_IFVAL_JUMP" \/ name cmd = lit "_IFVAL_CALL" ->
  let parsed := parseDocument document in
  let others :=
    option_list (validateArgumentCount cmd cmdDef)
    ++ validateArgumentTypes cmd cmdDef
    ++ option_list (validateLabelReference cmd cmdDef (labels parsed)) in
  let emitted := validateCommand dl parsed cmd in
  let keywords :=
    [ lit "GE"; lit "GT"; lit "LE"; lit "LT"; lit "EQ"; lit "NE" ] in
  updateDiagnostics dl document
  = Some (concat (map (validateCommand dl parsed) pre)
          ++ emitted
          ++ concat (map (validateCommand dl parsed) post))
  /\ Forall (fun d => isInvalidComparator d = false) others
  /\ (args cmd !! 1%nat = None -> emitted = others)
  /\ (forall arg, args cmd !! 1%nat = Some arg ->
      let v := withoutQuotes (value arg) in
      let invalid :=
        mkDiagnostic (arange arg)
          (lit "Invalid comparator: " ++ v
           ++ lit ". Expected one of: GE, GT, LE, LT, EQ, NE")
          Error (lit "bdsp-ev") in
      isInvalidComparator invalid = true
      /\ (In v keywords -> emitted = others)
      /\ (~ In v keywords -> emitted = others ++ [invalid])).
Proof.
  intros Hlang Hcmds Hdef Hname parsed others emitted keywords.
  assert (Hem : emitted = others ++ option_list (validateComparator cmd cmdDef)).
  { unfold emitted, others. rewrite <- !app_assoc.
    by apply validateCommand_emitted. }
  split; [by apply updateDiagnostics_around|].
  split; [by apply others_not_comparator|].
  pose proof (proj2 (elem_of_IFVAL_COMMANDS (name cmd)) Hname) as Hifval.
  assert (Hc : validateComparator cmd cmdDef
               = match args cmd !! 1%nat with
                 | None => None
                 | Some arg =>
                     if bool_decide (withoutQuotes (value arg)
                                     ∈ VALID_COMPARATORS)
                     then None
                     else Some (mkDiagnostic (arange arg)
                                  (lit "Invalid comparator: "
                                   ++ withoutQuotes (value arg)
                                   ++ lit ". Expected one of: GE, GT, LE, LT, EQ, NE")
                                  Error (lit "bdsp-ev"))
                 end).
  { unfold validateComparator. rewrite (bool_decide_eq_true_2 _ Hifval).
    cbn [negb]. destruct (args cmd !! 1%nat) as [arg|]; [|done]. cbv zeta.
    rewrite stripQuotes_withoutQuotes.
    by destruct (bool_decide (withoutQuotes (value arg) ∈ VALID_COMPARATORS)). }
  split.
  - intros Hnone. rewrite Hem, Hc, Hnone. apply app_nil_r.
  - intros arg Harg v invalid. split; [|split].
    + unfold isInvalidComparator, invalid. cbn [message].
      apply startsWith_app.
    + intros Hv. apply elem_of_VALID_COMPARATORS in Hv.
      rewrite Hem, Hc, Harg. fold v.
      rewrite (bool_decide_eq_true_2 _ Hv). apply app_nil_r.
    + intros Hv.
      assert (Hv' : ~ v ∈ VALID_COMPARATORS)
        by (intros X; apply Hv, elem_of_VALID_COMPARATORS, X).
      rewrite Hem, Hc, Harg. fold v.
      by rewrite (bool_decide_eq_false_2 _ Hv').
Qed.

(** The comparator examples of the specification, and the same two
    comparators written between quote characters: EQ is accepted and XX
    is cited without its quotes. *)
Lemma comparator_validity_witness :
  updateDiagnostics ifval_registry (ifval_document "EQ") = Some []
  /\ updateDiagnostics ifval_registry (ifval_document "XX")
     = Some [ mkDiagnostic (mkRange 0 24 0 27)
                (lit "Invalid comparator: XX. Expected one of: GE, GT, LE, LT, EQ, NE")
                Error (lit "bdsp-ev") ]
  /\ updateDiagnostics ifval_registry (ifval_document "'EQ'") = Some []
  /\ updateDiagnostics ifval_registry (ifval_document "'XX'")
     = Some [ mkDiagnostic (mkRange 0 24 0 29)
                (lit "Invalid comparator: XX. Expected one of: GE, GT, LE, LT, EQ, NE")
                Error (lit "bdsp-ev") ].
Proof.
  split; [|split; [|split]].
  - destruct (comparator_validity ifval_registry (ifval_document "EQ")
                [] (ifval_command "EQ" TComparator) [] ifval_def)
      as (Hall & _ & _ & H);
      [reflexivity | reflexivity | reflexivity | left; reflexivity |].
    destruct (H (ifval_arg "EQ" TComparator)) as (_ & Hin & _); [reflexivity|].
    rewrite Hall, Hin by (vm_compute; tauto).
    vm_compute. reflexivity.
  - destruct (comparator_validity ifval_registry (ifval_document "XX")
                [] (ifval_command "XX" TUnknown) [] ifval_def)
      as (Hall & _ & _ & H);
      [reflexivity | reflexivity | reflexivity | left; reflexivity |].
    destruct (H (ifval_arg "XX" TUnknown)) as (_ & _ & Hnot); [reflexivity|].
    rewrite Hall, Hnot
      by (rewrite <- list_elem_of_In; apply (bool_decide_unpack _);
          vm_compute; reflexivity).
    vm_compute. reflexivity.
  - destruct (comparator_validity ifval_registry (ifval_document "'EQ'")
                [] (ifval_quoted_command "'EQ'") [] ifval_def)
      as (Hall & _ & _ & H);
      [reflexivity | reflexivity | reflexivity | left; reflexivity |].
    destruct (H (ifval_quoted_arg "'EQ'")) as (_ & Hin & _); [reflexivity|].
    rewrite Hall, Hin by (vm_compute; tauto).
    vm_compute. reflexivity.
  - destruct (comparator_validity ifval_registry (ifval_document "'XX'")
                [] (ifval_quoted_command "'XX'") [] ifval_def)
      as (Hall & _ & _ & H);
      [reflexivity | reflexivity | reflexivity | left; reflexivity |].
    destruct (H (ifval_quoted_arg "'XX'")) as (_ & _ & Hnot); [reflexivity|].
    rewrite Hall, Hnot
      by (rewrite <- list_elem_of_In; apply (bool_decide_unpack _);
          vm_compute; reflexivity).
    vm_compute. reflexivity.
Defined.

(* ===================================================================== *)
(** ** The active call context                                           *)
(* ===================================================================== *)

(** *** Open parentheses that open no command *)




(** *** The last command opening before later parentheses *)

Section LastOpeningBefore.
Variables (c : ascii) (run ws tail : str).
Hypothesis Hc : isCmdStart c = true.
Hypothesis Hrun : forallb isCmdCont run = true.
Hypothesis Hws : forallb isSpace ws = true.
Hypothesis Htail : forall k, cmdMatchAllFrom tail k = [].



End LastOpeningBefore.

(** *** C8 *)



(** The words of the specification give, on its own example, what the
    code gives. *)
Example spec_activeContext_example stringsOpaque innermostOnly :
  spec_activeContext stringsOpaque innermostOnly
    talkmsg_open_line (len talkmsg_open_line)
  = Some (lit "_TALKMSG", 1).
Proof. by destruct stringsOpaque, innermostOnly. Qed.

